(** * command.js: the parser combinators of the command-line parser

    A shallow embedding of the parsing core of command.js (the
    "General parsing" part of the source) and the properties of its
    result model, primitive combinators, failure merging and completion
    derivation.

    Modelling conventions.
    - A JavaScript number that holds an offset is a [Z]; the one
      non-integer the code computes with, [-Infinity] (the value of
      [Math.max()] on no arguments), is the constructor [NegInfinity] of
      [number].
    - A JavaScript string is a [string]; [s[i]] is [charAt], which is
      [None] (undefined) out of range.
    - A witness is a JavaScript value, [Value].
    - [null], [false] and "no failure" are all falsy: the second
      component of a parser's result is an [option Failure].
    - A parser may recurse without bound (a [parseStar] over a parser that
      matches the empty string never returns), so a parser takes a
      recursion budget and returns [None] when the budget is exhausted.
      Only the deferred recursive calls of the source consume budget.
    - Objects have identity: two annotations built by two [new Annotation]
      calls are different objects even when all their fields agree.  The
      field [oid] of [Annotation] is that identity. *)

From Stdlib Require Import ZArith List String Ascii Bool Lia.
From Stdlib Require Import Permutation Sorted.
Import ListNotations.

Local Open Scope Z_scope.
Local Set Warnings "-register-all".

(** ** JavaScript values *)

Inductive Value : Type :=
| VUndefined
| VNull
| VBool (b : bool)
| VNum (n : Z)
| VStr (s : string)
| VArr (elements : list Value).

(** [!!v]: the values that count as true in a condition. *)
Definition truthy (v : Value) : bool :=
  match v with
  | VUndefined | VNull => false
  | VBool b => b
  | VNum n => negb (n =? 0)
  | VStr s => negb (String.eqb s EmptyString)
  | VArr _ => true
  end.

(** [v == null]. *)
Definition isNull (v : Value) : bool :=
  match v with
  | VUndefined | VNull => true
  | _ => false
  end.

(** A parameter with a default value, [function f(x = d)]: [argument] is
    [None] when the argument is left out.  The default is used when the
    argument is left out and also when it is [undefined]; every other
    value, [null] among them, is kept. *)
Definition defaultParameter (argument : option Value) (default : Value) : Value :=
  match argument with
  | None | Some VUndefined => default
  | Some v => v
  end.

(** The elements that [...v] spreads into an array literal.  Values other
    than arrays and strings are not iterable; the combinators below only
    spread the array witnesses that they build themselves. *)
Definition spread (v : Value) : list Value :=
  match v with
  | VArr l => l
  | VStr s => map (fun c => VStr (String c EmptyString)) (list_ascii_of_string s)
  | _ => []
  end.

(** ** Numbers: integers and [-Infinity] *)

Inductive number : Type :=
| NegInfinity
| Int (z : Z).

Definition num_leb (a b : number) : bool :=
  match a, b with
  | NegInfinity, _ => true
  | Int _, NegInfinity => false
  | Int x, Int y => x <=? y
  end.

Definition num_ltb (a b : number) : bool :=
  match a, b with
  | _, NegInfinity => false
  | NegInfinity, Int _ => true
  | Int x, Int y => x <? y
  end.

Definition num_eqb (a b : number) : bool :=
  match a, b with
  | NegInfinity, NegInfinity => true
  | Int x, Int y => x =? y
  | _, _ => false
  end.

Definition num_max (a b : number) : number :=
  match a, b with
  | NegInfinity, _ => b
  | _, NegInfinity => a
  | Int x, Int y => Int (Z.max x y)
  end.

(** ** Strings *)

Definition strlen (s : string) : Z := Z.of_nat (String.length s).

(** [s[i]]: undefined outside [0 .. length-1]. *)
Definition charAt (s : string) (i : Z) : option ascii :=
  if i <? 0 then None else String.get (Z.to_nat i) s.

(** [c1 == c2] on the results of indexing. *)
Definition char_eqb (c1 c2 : option ascii) : bool :=
  match c1, c2 with
  | None, None => true
  | Some a, Some b => Ascii.eqb a b
  | _, _ => false
  end.

(** [s.slice(from)] for an integer [from]: a negative index counts from the
    end of the string. *)
Definition slice (s : string) (from : Z) : string :=
  let len := strlen s in
  let k := if from <? 0 then Z.max 0 (len + from) else Z.min from len in
  substring (Z.to_nat k) (Z.to_nat (len - k)) s.

(** [c.startsWith(p)]. *)
Definition startsWith (c p : string) : bool := String.prefix p c.

(** The loop of [substringMatchForward]: [steps] is the number of indices
    left before [stop1]; the result is the final value of [i]. *)
Fixpoint matchForward (string1 string2 : string) (i j : Z) (steps : nat) : Z :=
  match steps with
  | O => i
  | S k =>
      if char_eqb (charAt string1 i) (charAt string2 j)
      then matchForward string1 string2 (i + 1) (j + 1) k
      else i
  end.

Definition substringMatchForward
  (string1 : string) (start1 end1 : Z) (string2 : string) (start2 end2 : Z) : Z :=
  let stop1 := start1 + Z.min (end1 - start1) (end2 - start2) in
  matchForward string1 string2 start1 start2 (Z.to_nat (stop1 - start1)) - start1.

(** Return the length of the longest common prefix. *)
Definition stringMatchForward (string1 string2 : string) : Z :=
  substringMatchForward string1 0 (strlen string1) string2 0 (strlen string2).

(** [array.sort()] on strings: ascending in the lexicographic order of the
    character codes.  That order is total and only identical strings
    compare equal, so the sorted array does not depend on the sorting
    algorithm (lemma [sort_unique] below). *)
Fixpoint insert (x : string) (l : list string) : list string :=
  match l with
  | [] => [x]
  | y :: l' => if String.leb x y then x :: l else y :: insert x l'
  end.

Fixpoint sort (l : list string) : list string :=
  match l with
  | [] => []
  | x :: l' => insert x (sort l')
  end.

(** One step of the [forEach] of [normalizeCompletions]; the state is the
    accumulator and the index [i] of its last element. *)
Definition normalizeStep (st : list string * nat) (c : string) : list string * nat :=
  let (accumulator, i) := st in
  if startsWith c (nth i accumulator EmptyString)
  then st
  else (accumulator ++ [c], S i).

(** Given an array of strings, return the unique shortest prefixes, i.e.
    all completions that do not have another as a prefix. *)
Definition normalizeCompletions (completions : list string) : list string :=
  if (List.length completions =? 0)%nat then []
  else
    let sorted := sort completions in
    fst (fold_left normalizeStep (skipn 1 sorted) (firstn 1 sorted, O)).

(** ** Annotations *)

(** The value of a label field: a string (tag, name, help text), or an
    object (a presentation type), which JavaScript compares by
    reference.  [LUndefined] is what reading a missing key yields. *)
Inductive LabelValue : Type :=
| LUndefined
| LStr (s : string)
| LRef (object : nat).

(** [v1 != v2] is [negb (looseEq v1 v2)].  A string and an object are
    taken as different. *)
Definition looseEq (v1 v2 : LabelValue) : bool :=
  match v1, v2 with
  | LUndefined, LUndefined => true
  | LStr a, LStr b => String.eqb a b
  | LRef a, LRef b => Nat.eqb a b
  | _, _ => false
  end.

(** A label is an object literal: its keys in order, with their values. *)
Definition Label : Type := list (string * LabelValue).

Definition keys (label : Label) : list string := map fst label.

Fixpoint field (label : Label) (k : string) : LabelValue :=
  match label with
  | [] => LUndefined
  | (k', v) :: rest => if String.eqb k k' then v else field rest k
  end.

Record Annotation : Type := mkAnnotation {
  oid : nat;           (* the identity of the object *)
  label : Label;
  a_start : Z;
  a_end : number
}.

(** [new Annotation(label, start, end)], allocated at identity [id]. *)
Definition new_Annotation (id : nat) (lbl : Label) (start : Z) (end_ : number) : Annotation :=
  {| oid := id; label := lbl; a_start := start; a_end := end_ |}.

Definition labelsEqual (label1 label2 : Label) : bool :=
  if negb (List.length (keys label1) =? List.length (keys label2))%nat then false
  else forallb (fun k1 => looseEq (field label1 k1) (field label2 k1)) (keys label1).

(** [this_.equals(annotation)]. *)
Definition equals (this_ annotation : Annotation) : bool :=
  (a_start annotation =? a_start this_)
  && num_eqb (a_end annotation) (a_end this_)
  && labelsEqual (label annotation) (label this_).

Definition LabelValue_eq_dec (x y : LabelValue) : {x = y} + {x <> y}.
Proof. decide equality; [apply string_dec | apply Nat.eq_dec]. Defined.

Definition number_eq_dec (x y : number) : {x = y} + {x <> y}.
Proof. decide equality; apply Z.eq_dec. Defined.

Definition Annotation_eq_dec (x y : Annotation) : {x = y} + {x <> y}.
Proof.
  decide equality.
  - apply number_eq_dec.
  - apply Z.eq_dec.
  - apply (list_eq_dec (fun p q : string * LabelValue =>
        ltac:(decide equality; [apply LabelValue_eq_dec | apply string_dec]))).
  - apply Nat.eq_dec.
Defined.

(** Whether two references denote the same object: the test a [Set] of
    annotations uses for its members. *)
Definition sameObject (x y : Annotation) : bool :=
  if Annotation_eq_dec x y then true else false.

(** ** Sets, kept as their members in insertion order *)

Section JSSet.
Variable A : Type.
Variable same : A -> A -> bool.

(** [set.add(a)]. *)
Definition Set_add (set : list A) (a : A) : list A :=
  if existsb (same a) set then set else set ++ [a].

(** [new Set(array)]. *)
Definition new_Set (array : list A) : list A :=
  fold_left Set_add array [].

(** [set.delete(a)]. *)
Definition Set_delete (set : list A) (a : A) : list A :=
  filter (fun x => negb (same a x)) set.
End JSSet.

Arguments Set_add {A} same set a.
Arguments new_Set {A} same array.
Arguments Set_delete {A} same set a.

(** Return all the unique annotations from two arrays of annotations. *)
Definition mergeAnnotations (annotations1 annotations2 : list Annotation) : list Annotation :=
  let result := new_Set sameObject annotations1 in
  fold_left (Set_add sameObject) annotations2 result.

(** ** Results *)

Section Parsing.
(** The application-specific context carried through a parse. *)
Context {CommandContext : Type}.

Record Success : Type := mkSuccess {
  s_annotations : list Annotation;
  s_context : CommandContext;
  s_end : Z;
  s_witness : Value
}.

Record Failure : Type := mkFailure {
  f_annotations : list Annotation;
  f_completions : list string;
  f_end : number;
  f_pause : bool
}.

Definition new_Success (annotations : list Annotation) (context : CommandContext)
  (end_ : Z) (witness : Value) : Success :=
  {| s_annotations := annotations; s_context := context;
     s_end := end_; s_witness := witness |}.

(** [Success.initial(context)]. *)
Definition initial (context : CommandContext) : Success :=
  new_Success [] context 0 VNull.

(** [new Failure(annotations, completions, end, pause)]; [pause] is [None]
    when the argument is left out, and then defaults to
    [completions.length == 0]. *)
Definition new_Failure (annotations : list Annotation) (completions : list string)
  (end_ : number) (pause : option bool) : Failure :=
  {| f_annotations := annotations;
     f_completions := completions;
     f_end := end_;
     f_pause := match pause with
                | Some b => b
                | None => (List.length completions =? 0)%nat
                end |}.

Definition prependAnnotations (annotations : list Annotation) (this_ : Failure) : Failure :=
  new_Failure (annotations ++ f_annotations this_)
    (f_completions this_) (f_end this_) (Some (f_pause this_)).

Definition replaceAnnotations (annotations : list Annotation) (this_ : Failure) : Failure :=
  new_Failure annotations (f_completions this_) (f_end this_) (Some (f_pause this_)).

(** What a parser returns: the successes and the failure, if any. *)
Definition Result : Type := list Success * option Failure.

(** A parser, given a recursion budget, the input and a [Success]. *)
Definition Parser : Type := nat -> string -> Success -> option Result.

(** [Math.max(...successes.map(s => s.end))]. *)
Definition furthestSuccess (successes : list Success) : number :=
  fold_right num_max NegInfinity (map (fun s => Int (s_end s)) successes).

(** The two conditions that [parseCheckInvariants] asserts on a result:
    a failure ends no earlier than the furthest success, and without a
    failure there is at least one success. *)
Definition invariantsHold (r : Result) : bool :=
  let (successes, failure) := r in
  let furthest := furthestSuccess successes in
  match failure with
  | Some f => num_leb furthest (f_end f)
  | None => (0 <? List.length successes)%nat
  end.

(** The first assertion of [parseCheckInvariants]: [s.witness != undefined]. *)
Definition witnessesDefined (r : Result) : bool :=
  forallb (fun s => negb (isNull (s_witness s))) (fst r).

Definition parseCheckInvariants (parser : Parser) : Parser :=
  fun fuel input success =>
    match parser fuel input success with
    | None => None
    | Some (successes, failure) => Some (successes, failure)
    end.

(** ** Primitive combinators *)

(** Return a parser for string [constant]; [witness] is [None] when the
    argument is left out, and defaults to [constant]. *)
Definition parseConstant (constant : string) (witness : option Value) : Parser :=
  let witness := defaultParameter witness (VStr constant) in
  let size := strlen constant in
  fun _ input success =>
    let start := s_end success in
    let comparisonSize := Z.min size (strlen input - start) in
    let matchSize :=
      substringMatchForward
        input start (start + comparisonSize) constant 0 comparisonSize in
    Some (if matchSize =? size
          then ([new_Success (s_annotations success)
                             (s_context success)
                             (start + size)
                             witness],
                None)
          else ([],
                Some (new_Failure
                        []
                        [slice constant matchSize]
                        (Int (start + matchSize))
                        (Some false)))).

Definition mergeFailures (f1 f2 : option Failure) : option Failure :=
  match f1, f2 with
  | None, _ => f2
  | _, None => f1
  | Some x1, Some x2 =>
      let e1 := f_end x1 in
      let e2 := f_end x2 in
      if num_eqb e1 e2
      then Some (new_Failure
                   (mergeAnnotations (f_annotations x1) (f_annotations x2))
                   (normalizeCompletions (f_completions x1 ++ f_completions x2))
                   e1
                   (Some (f_pause x1 || f_pause x2)))
      else if num_ltb e1 e2 then f2 else f1
  end.

(** [f && f.end >= furthest && f]. *)
Definition notBefore (furthest : number) (f : option Failure) : option Failure :=
  match f with
  | Some x => if num_leb furthest (f_end x) then Some x else None
  | None => None
  end.

Definition parseAlternatives (parser1 parser2 : Parser) : Parser :=
  fun fuel input success =>
    match parser1 fuel input success with
    | None => None
    | Some (s1, f1) =>
        match parser2 fuel input success with
        | None => None
        | Some (s2, f2) =>
            let successes := s1 ++ s2 in
            let furthest := furthestSuccess successes in
            Some (successes,
                  mergeFailures (notBefore furthest f1) (notBefore furthest f2))
        end
    end.

Definition parseWithFallback (parser fallbackParser : Parser) : Parser :=
  fun fuel input success =>
    match parser fuel input success with
    | None => None
    | Some (s1, f1) =>
        match fallbackParser fuel input success with
        | None => None
        | Some (s2, f2) =>
            let successes := s1 ++ s2 in
            let furthest := furthestSuccess successes in
            Some (successes, notBefore furthest f1)
        end
    end.

Definition parseFail : Parser :=
  fun _ input success =>
    Some ([], Some (new_Failure [] [] (Int (s_end success)) (Some false))).

(** [parsers.reduce(parseAlternatives, parseFail)]. *)
Definition parseChoice (parsers : list Parser) : Parser :=
  fold_left parseAlternatives parsers parseFail.

(** The [for] loop of [parseChain] over the successes of [parser1] still
    to visit, with the loop variables [failure], [furthest], [successes]. *)
Fixpoint chainLoop (mergeWitnesses : Value -> Value -> Value)
  (chain : Success -> Parser) (fuel : nat) (input : string)
  (successes1 : list Success)
  (failure : option Failure) (furthest : number) (successes : list (list Success))
  : option (option Failure * number * list (list Success)) :=
  match successes1 with
  | [] => Some (failure, furthest, successes)
  | s1 :: rest =>
      match chain s1 fuel input s1 with
      | None => None
      | Some (s2, f2) =>
          let failure :=
            mergeFailures failure
              (option_map (prependAnnotations (s_annotations s1)) f2) in
          let furthest := num_max furthest (furthestSuccess s2) in
          let witness1 := s_witness s1 in
          chainLoop mergeWitnesses chain fuel input rest failure furthest
            (successes ++
             [map (fun s => new_Success (s_annotations s)
                                        (s_context s)
                                        (s_end s)
                                        (mergeWitnesses witness1 (s_witness s)))
                  s2])
      end
  end.

(** Run [parser1], then the parsers that result from calling [chain] on
    each [Success], starting from where that [Success] left off. *)
Definition parseChain (mergeWitnesses : Value -> Value -> Value)
  (parser1 : Parser) (chain : Success -> Parser) : Parser :=
  fun fuel input success =>
    match parser1 fuel input success with
    | None => None
    | Some (successes1, failure1) =>
        match chainLoop mergeWitnesses chain fuel input successes1
                failure1 (Int 0) [] with
        | None => None
        | Some (failure, furthest, successes) =>
            Some (List.concat successes, notBefore furthest failure)
        end
    end.

Definition parseThen (mergeWitnesses : Value -> Value -> Value)
  (parser1 parser2 : Parser) : Parser :=
  parseChain mergeWitnesses parser1 (fun success => parser2).

(** Match the empty string; the default witness is ["empty"]. *)
Definition parseEmpty (witness : option Value) : Parser :=
  let witness := defaultParameter witness (VStr "empty") in
  fun _ input success =>
    Some ([new_Success (s_annotations success)
                       (s_context success)
                       (s_end success)
                       witness],
          None).

Definition transformWitness (success : Success) (transform : Value -> Value) : Success :=
  new_Success (s_annotations success)
              (s_context success)
              (s_end success)
              (transform (s_witness success)).

(** Parse using all [parsers] in sequence.  [mergeWitnesses] receives the
    witnesses as its argument list. *)
Definition parseSequence (mergeWitnesses : list Value -> Value)
  (parsers : list Parser) : Parser :=
  let reverseParseThen p1 p2 :=
    parseThen (fun w1 w2 => VArr (w2 :: spread w1)) p1 p2 in
  let merge s :=
    transformWitness s (fun w => mergeWitnesses (rev (spread w))) in
  let parser := fold_left reverseParseThen parsers (parseEmpty (Some (VArr []))) in
  fun fuel input success =>
    match parser fuel input success with
    | None => None
    | Some (successes, failure) => Some (map merge successes, failure)
    end.

Definition parseTransform (parser : Parser) (transform : Value -> Value) : Parser :=
  let transformSuccess s :=
    new_Success (s_annotations s) (s_context s) (s_end s) (transform (s_witness s)) in
  fun fuel input success =>
    match parser fuel input success with
    | None => None
    | Some (successes, failure) => Some (map transformSuccess successes, failure)
    end.

(** Return two lists: the elements for which [predicate] holds, and the
    rest.  Preserve order. *)
Definition categorize {A : Type} (array : list A) (predicate : A -> bool)
  : list A * list A :=
  fold_left (fun (acc : list A * list A) x =>
               let (positives, negatives) := acc in
               if predicate x then (positives ++ [x], negatives)
               else (positives, negatives ++ [x]))
            array ([], []).

Definition parseFilter (parser : Parser) : Parser :=
  fun fuel input success =>
    match parser fuel input success with
    | None => None
    | Some (successes, failure) =>
        let (positives, negatives) :=
          categorize successes (fun s => truthy (s_witness s)) in
        match positives, failure with
        | [], None =>
            Some ([], Some (new_Failure [] [] (Int (s_end success)) (Some false)))
        | _, _ => Some (positives, failure)
        end
    end.

(** ** Repetition and structure *)

(** [(w1, w2) => [w1, ...w2]]. *)
Definition consWitness (w1 w2 : Value) : Value := VArr (w1 :: spread w2).

(** The parser that [parseKleene()] builds inside [parseStar].  The
    deferred call [(input, success) => parseKleene()(input, success)]
    spends one unit of the budget. *)
Fixpoint parseKleene (parser : Parser) (fuel : nat) (input : string) (success : Success)
  : option Result :=
  parseAlternatives
    (parseEmpty (Some (VArr [])))
    (parseThen consWitness
               parser
               (fun _ input success =>
                  match fuel with
                  | O => None
                  | S fuel' => parseKleene parser fuel' input success
                  end))
    fuel input success.

(** Parse using [parser] repeatedly; the witness is [mergeWitnesses] of
    the array of witnesses. *)
Definition parseStar (mergeWitnesses : Value -> Value) (parser : Parser) : Parser :=
  parseTransform (parseKleene parser) mergeWitnesses.

(** The parser that [parseRepeated()] builds inside [parseSeparated]. *)
Fixpoint parseRepeated (parseElement parseSeparator : Parser)
  (fuel : nat) (input : string) (success : Success) : option Result :=
  parseThen
    consWitness
    parseElement
    (parseAlternatives
       (parseEmpty (Some (VArr [])))
       (parseThen (fun s w => w)
                  parseSeparator
                  (fun _ input success =>
                     match fuel with
                     | O => None
                     | S fuel' =>
                         parseRepeated parseElement parseSeparator fuel' input success
                     end)))
    fuel input success.

Definition parseSeparated (mergeWitnesses : Value -> Value)
  (parseElement parseSeparator : Parser) : Parser :=
  parseTransform
    (parseAlternatives (parseEmpty (Some (VArr [])))
                       (parseRepeated parseElement parseSeparator))
    mergeWitnesses.

(** The result of [regexp.exec]: where the match starts, the text
    matched ([result[0]]) and the registers. *)
Record MatchResult : Type := mkMatchResult {
  index : Z;
  matched : string;
  registers : list string
}.

Definition parseRestrictedRegexp (makeWitness : MatchResult -> Value)
  (regexp : string -> option MatchResult) : Parser :=
  fun _ input success =>
    let start := s_end success in
    match regexp (slice input start) with
    | Some result =>
        if index result =? 0
        then Some ([new_Success (s_annotations success)
                                (s_context success)
                                (start + strlen (matched result))
                                (makeWitness result)],
                   None)
        else Some ([], Some (new_Failure [] [] (Int start) (Some true)))
    | None => Some ([], Some (new_Failure [] [] (Int start) (Some true)))
    end.

(** Run [parser], but fail if it fails or if it matches the empty string. *)
Definition parseNonEmpty (parser : Parser) : Parser :=
  fun fuel input success =>
    match parser fuel input success with
    | None => None
    | Some (successes, failure) =>
        let start := s_end success in
        let (empties, nonEmpties) :=
          categorize successes (fun s => start =? s_end s) in
        if (List.length empties =? 0)%nat
        then Some (successes, failure)
        else Some (nonEmpties,
                   match failure with
                   | Some f => Some f
                   | None => Some (new_Failure [] [] (Int start) (Some false))
                   end)
    end.

(** Like [parseStar], but [parser] must match at least once. *)
Definition parsePlus (mergeWitnesses : Value -> Value) (parser : Parser) : Parser :=
  parseNonEmpty (parseStar mergeWitnesses parser).

Definition parseDelayed (makeParser : unit -> Parser) : Parser :=
  fun fuel input success => makeParser tt fuel input success.

(** The default witness is ["missing"]. *)
Definition parseOptional (parser : Parser) (witness : option Value) : Parser :=
  let witness := defaultParameter witness (VStr "missing") in
  parseChoice [parser; parseEmpty (Some witness)].

(** ** Completions *)

(** [annotations.reduce(mergeAnnotations, [])]. *)
Definition mergeSuccessAnnotations (successes : list Success) : list Annotation :=
  let annotations := map s_annotations successes in
  fold_left mergeAnnotations annotations [].

Definition parseWithCompletions
  (makeCompletions : CommandContext -> option Failure -> Z -> list string)
  (parser : Parser) : Parser :=
  fun fuel input success =>
    match parser fuel input success with
    | None => None
    | Some (successes, failure) =>
        let completions :=
          makeCompletions (s_context success) failure (s_end success) in
        match failure with
        | Some f =>
            Some (successes,
                  Some (new_Failure
                          (f_annotations f) completions (f_end f) (Some false)))
        | None =>
            if (List.length completions =? 0)%nat
            then Some (successes, None)
            else Some (successes,
                       Some (new_Failure (mergeSuccessAnnotations successes)
                                         completions
                                         (furthestSuccess successes)
                                         (Some false)))
        end
    end.

Definition parsePause (parser : Parser) : Parser :=
  fun fuel input success =>
    match parser fuel input success with
    | None => None
    | Some (successes, failure) =>
        let incomplete :=
          option_map
            (fun f => new_Failure (f_annotations f)
                                  (f_completions f)
                                  (f_end f)
                                  (Some true))
            failure in
        Some (successes, incomplete)
    end.

Definition withoutCompletions (parser : Parser) : Parser :=
  parseWithCompletions (fun context failure start => []) parser.

(** Drop any [Success] that [parser] returns that has a null witness. *)
Definition parseMaybe (parser : Parser) : Parser :=
  fun fuel input success =>
    match parser fuel input success with
    | None => None
    | Some (successes, failure) =>
        let (nulls, nonNulls) :=
          categorize successes (fun s => isNull (s_witness s)) in
        if (0 <? List.length nonNulls)%nat
        then Some (nonNulls, failure)
        else Some ([],
                   match failure with
                   | Some f => Some f
                   | None =>
                       Some (new_Failure (mergeSuccessAnnotations successes)
                                         []
                                         (Int (s_end success))
                                         (Some false))
                   end)
    end.

Definition parseContext (makeContext : Success -> CommandContext) (parser : Parser)
  : Parser :=
  let updateContext success :=
    new_Success (s_annotations success)
                (makeContext success)
                (s_end success)
                (s_witness success) in
  fun fuel input success =>
    match parser fuel input success with
    | None => None
    | Some (successes, failure) => Some (map updateContext successes, failure)
    end.

(** ** Subsets of constants *)

(** The [constants] handed to [parseSubset]: an array, as the comment on
    [parseSubset] says, or a [Set].  Only a [Set] has a [size]. *)
Inductive Constants : Type :=
| ArrayOf (elements : list string)
| SetOf (members : list string).

Definition elementsOf (constants : Constants) : list string :=
  match constants with
  | ArrayOf l => l
  | SetOf l => l
  end.

(** [constants.size == 0]: on an array [size] is undefined, and
    [undefined == 0] is false. *)
Definition sizeIsZero (constants : Constants) : bool :=
  match constants with
  | ArrayOf _ => false
  | SetOf l => (List.length l =? 0)%nat
  end.

(** [fewer.delete(witness)] on a set of strings: only a string can be a
    member. *)
Definition deleteWitness (set : list string) (witness : Value) : list string :=
  match witness with
  | VStr w => Set_delete String.eqb set w
  | _ => set
  end.

(** The function [choose] of [parseSubset]; each nested call of [choose]
    spends one unit of the budget. *)
Fixpoint choose (parseSeparator : Parser) (fuel : nat) (choices : list string) : Parser :=
  parseChain
    consWitness
    (parseChoice (map (fun c => parseConstant c None) choices))
    (fun success =>
       let fewer := deleteWitness (new_Set String.eqb choices) (s_witness success) in
       if (List.length fewer =? 0)%nat
       then parseEmpty (Some (VArr []))
       else parseAlternatives
              (parseEmpty (Some (VArr [])))
              (parseThen (fun s f => f)
                         parseSeparator
                         (match fuel with
                          | O => fun _ _ _ => None
                          | S fuel' => choose parseSeparator fuel' fewer
                          end))).

Definition parseSubset (constants : Constants) (parseSeparator : Parser) : Parser :=
  if sizeIsZero constants
  then parseEmpty (Some (VArr []))
  else fun fuel input success =>
         parseAlternatives
           (parseEmpty (Some (VArr [])))
           (choose parseSeparator fuel (new_Set String.eqb (elementsOf constants)))
           fuel input success.

End Parsing.

Arguments Success : clear implicits.
Arguments Result : clear implicits.
Arguments Parser : clear implicits.
Arguments parseConstant {CommandContext} constant%_string_scope witness
  fuel%_nat_scope input%_string_scope.
Arguments parseFail {CommandContext} fuel%_nat_scope input%_string_scope.

(** ** Definitions used to state the properties *)

(** The part of a string from position [n] on. *)
Fixpoint drop (n : nat) (s : string) : string :=
  match n, s with
  | O, _ => s
  | S _, EmptyString => EmptyString
  | S n', String _ s' => drop n' s'
  end.

(** The length of the longest common prefix of two strings. *)
Fixpoint commonPrefixLength (a b : string) : nat :=
  match a, b with
  | String x a', String y b' =>
      if Ascii.eqb x y then S (commonPrefixLength a' b') else O
  | _, _ => O
  end.

(** [witnesses => witnesses.join("")] on an array of strings. *)
Definition join (witnesses : Value) : Value :=
  VStr (String.concat ""
          (map (fun w => match w with VStr s => s | _ => EmptyString end)
               (spread witnesses))).

(** Valid parses are the successes that end where the input ended
    ([validParses] of the user interface). *)
Definition validParses {CommandContext : Type} (end_ : Z)
  (successes : list (Success CommandContext)) : list (Success CommandContext) :=
  filter (fun s => s_end s =? end_) successes.

(** What [normalizeCompletions] keeps of the sorted array after its first
    element: [last] is the last string kept so far. *)
Fixpoint keepShortest (last : string) (rest : list string) : list string :=
  match rest with
  | [] => []
  | c :: rest' =>
      if startsWith c last then keepShortest last rest'
      else c :: keepShortest c rest'
  end.

(** The order in which [sort] arranges strings. *)
Definition le_string (a b : string) : Prop := String.leb a b = true.

(** How [normalizeCompletions] reads once the array is sorted. *)
Definition shortest (sorted : list string) : list string :=
  match sorted with
  | [] => []
  | c0 :: rest => c0 :: keepShortest c0 rest
  end.

(** No string of [l], read from [last] on, starts with the one before it. *)
Fixpoint noneStartsWithPrevious (last : string) (l : list string) : Prop :=
  match l with
  | [] => True
  | c :: l' => startsWith c last = false /\ noneStartsWithPrevious c l'
  end.

(** Neither of two strings is a prefix of the other. *)
Definition unrelated (a b : string) : Prop :=
  String.prefix a b = false /\ String.prefix b a = false.

(** The valid parses among the successes that [parser] returns on [input]
    from the initial [Success]; [None] when the budget does not suffice. *)
Definition accepted {CommandContext : Type} (parser : Parser CommandContext)
  (fuel : nat) (input : string) (context : CommandContext)
  : option (list (Success CommandContext)) :=
  match parser fuel input (initial context) with
  | Some (successes, _) => Some (validParses (strlen input) successes)
  | None => None
  end.

(** ** The invariant of parser results *)

Section InvariantDefinitions.
Context {CommandContext : Type}.

(** The invariant of a result of a parse started at [start], with what
    makes it inductive: no success and no failure ends before [start];
    a failure ends no earlier than any success; without a failure there is
    a success. *)
Definition endsBetween (start : Z) (r : Result CommandContext) : Prop :=
  Forall (fun s => start <= s_end s) (fst r)
  /\ match snd r with
     | Some f =>
         exists e, f_end f = Int e
                   /\ start <= e
                   /\ Forall (fun s => s_end s <= e) (fst r)
     | None => fst r <> []
     end.

(** [parser] keeps the invariant whenever it returns, from any position
    that is not negative. *)
Definition keepsInvariant (parser : Parser CommandContext) : Prop :=
  forall (fuel : nat) (input : string) (success : Success CommandContext)
         (r : Result CommandContext),
    0 <= s_end success ->
    parser fuel input success = Some r ->
    endsBetween (s_end success) r.

(** [parser] never returns without a failure. *)
Definition alwaysFails (parser : Parser CommandContext) : Prop :=
  forall (fuel : nat) (input : string) (success : Success CommandContext)
         (r : Result CommandContext),
    0 <= s_end success ->
    parser fuel input success = Some r ->
    snd r <> None.

(** A failure, if any, ends at an integer position from [start] on. *)
Definition failureFrom (start : Z) (f : option Failure) : Prop :=
  match f with
  | Some x => exists e, f_end x = Int e /\ start <= e
  | None => True
  end.

(** What the loop of [parseChain], in a parse started at [start],
    maintains of its variables [failure], [furthest] and [successes]. *)
Definition loopState (start : Z) (failure : option Failure) (furthest : number)
  (successes : list (list (Success CommandContext))) : Prop :=
  (exists m, furthest = Int m
             /\ 0 <= m
             /\ Forall (fun s => s_end s <= m) (List.concat successes)
             /\ (m = 0 \/ Exists (fun s => s_end s = m) (List.concat successes)))
  /\ Forall (fun s => start <= s_end s) (List.concat successes)
  /\ failureFrom start failure.

(** The failure of the loop ends no earlier than any success collected. *)
Definition covered (failure : option Failure)
  (successes : list (list (Success CommandContext))) : Prop :=
  Forall (fun s => exists x e, failure = Some x /\ f_end x = Int e /\ s_end s <= e)
         (List.concat successes).

(** The parsers built by finitely many applications of the combinators
    listed here.  Three things are left out on purpose.  [parseNonEmpty]
    occurs only in the way the source uses it, in [parsePlus].  [annotate]
    is not modelled: it allocates annotation objects.  And a grammar that
    refers to itself through [parseDelayed] is no finite application of
    combinators; [parseDelayed] is here for the use the source makes of it,
    a parser built when it is first run. *)
Inductive Combinator : Parser CommandContext -> Prop :=
| Combinator_constant (constant : string) (witness : option Value) :
    Combinator (parseConstant constant witness)
| Combinator_empty (witness : option Value) :
    Combinator (parseEmpty witness)
| Combinator_fail :
    Combinator parseFail
| Combinator_regexp (makeWitness : MatchResult -> Value)
    (regexp : string -> option MatchResult) :
    Combinator (parseRestrictedRegexp makeWitness regexp)
| Combinator_alternatives (parser1 parser2 : Parser CommandContext) :
    Combinator parser1 -> Combinator parser2 ->
    Combinator (parseAlternatives parser1 parser2)
| Combinator_fallback (parser fallbackParser : Parser CommandContext) :
    Combinator parser -> Combinator fallbackParser ->
    Combinator (parseWithFallback parser fallbackParser)
| Combinator_choice (parsers : list (Parser CommandContext)) :
    (forall p, In p parsers -> Combinator p) ->
    Combinator (parseChoice parsers)
| Combinator_chain (mergeWitnesses : Value -> Value -> Value)
    (parser1 : Parser CommandContext)
    (chain : Success CommandContext -> Parser CommandContext) :
    Combinator parser1 -> (forall s, Combinator (chain s)) ->
    Combinator (parseChain mergeWitnesses parser1 chain)
| Combinator_then (mergeWitnesses : Value -> Value -> Value)
    (parser1 parser2 : Parser CommandContext) :
    Combinator parser1 -> Combinator parser2 ->
    Combinator (parseThen mergeWitnesses parser1 parser2)
| Combinator_sequence (mergeWitnesses : list Value -> Value)
    (parsers : list (Parser CommandContext)) :
    (forall p, In p parsers -> Combinator p) ->
    Combinator (parseSequence mergeWitnesses parsers)
| Combinator_transform (parser : Parser CommandContext) (transform : Value -> Value) :
    Combinator parser -> Combinator (parseTransform parser transform)
| Combinator_filter (parser : Parser CommandContext) :
    Combinator parser -> Combinator (parseFilter parser)
| Combinator_star (mergeWitnesses : Value -> Value) (parser : Parser CommandContext) :
    Combinator parser -> Combinator (parseStar mergeWitnesses parser)
| Combinator_separated (mergeWitnesses : Value -> Value)
    (parseElement parseSeparator : Parser CommandContext) :
    Combinator parseElement -> Combinator parseSeparator ->
    Combinator (parseSeparated mergeWitnesses parseElement parseSeparator)
| Combinator_plus (mergeWitnesses : Value -> Value) (parser : Parser CommandContext) :
    Combinator parser -> Combinator (parsePlus mergeWitnesses parser)
| Combinator_delayed (makeParser : unit -> Parser CommandContext) :
    Combinator (makeParser tt) -> Combinator (parseDelayed makeParser)
| Combinator_optional (parser : Parser CommandContext) (witness : option Value) :
    Combinator parser -> Combinator (parseOptional parser witness)
| Combinator_withCompletions
    (makeCompletions : CommandContext -> option Failure -> Z -> list string)
    (parser : Parser CommandContext) :
    Combinator parser -> Combinator (parseWithCompletions makeCompletions parser)
| Combinator_pause (parser : Parser CommandContext) :
    Combinator parser -> Combinator (parsePause parser)
| Combinator_withoutCompletions (parser : Parser CommandContext) :
    Combinator parser -> Combinator (withoutCompletions parser)
| Combinator_maybe (parser : Parser CommandContext) :
    Combinator parser -> Combinator (parseMaybe parser)
| Combinator_context (makeContext : Success CommandContext -> CommandContext)
    (parser : Parser CommandContext) :
    Combinator parser -> Combinator (parseContext makeContext parser)
| Combinator_subset (constants : Constants) (parseSeparator : Parser CommandContext) :
    Combinator parseSeparator -> Combinator (parseSubset constants parseSeparator)
| Combinator_checkInvariants (parser : Parser CommandContext) :
    Combinator parser -> Combinator (parseCheckInvariants parser).

End InvariantDefinitions.

(** ** More of the source: lists, value parsers, unique completion *)

(** [array.filter((e, i) => keep(e, i))], with [i] the index of [e]. *)
Fixpoint filterIndexed {A : Type} (keep : A -> nat -> bool) (array : list A) (i : nat)
  : list A :=
  match array with
  | [] => []
  | e :: rest =>
      if keep e i then e :: filterIndexed keep rest (S i)
      else filterIndexed keep rest (S i)
  end.

(** JavaScript numbers are doubles.  Every integer of absolute value at
    most [2^53] is a double, and the sum of two of them is their exact sum
    when that is again such an integer; beyond, sums are rounded. *)
Definition exactBound : Z := 2 ^ 53.

Definition isExact (z : Z) : bool := (- exactBound <=? z) && (z <=? exactBound).

(** [a + b] on integers where the addition is exact; [None] where it
    would be rounded, which this development does not follow. *)
Definition numberAdd (a b : Z) : option Z :=
  if isExact a && isExact b && isExact (a + b) then Some (a + b) else None.

(** The loop of [iota]: [steps] iterations are left, [i] is the counter.
    The result is [None] when an addition of the loop is not exact. *)
Fixpoint iotaLoop (steps : nat) (i offset : Z) : option (list Z) :=
  match steps with
  | O => Some []
  | S steps' =>
      match numberAdd i offset with
      | None => None
      | Some e =>
          match numberAdd i 1 with
          | None => None
          | Some i' =>
              match iotaLoop steps' i' offset with
              | None => None
              | Some accumulator => Some (e :: accumulator)
              end
          end
      end
  end.

(** Return an array of the numbers [0, n), each moved by [offset]; [n] is
    an integer, and the loop runs while [i < n]. *)
Definition iota (n offset : Z) : option (list Z) := iotaLoop (Z.to_nat n) 0 offset.

Definition prefixElements {A : Type} (insert : A) (elements : list A) : list A :=
  fold_left (fun accumulator e => accumulator ++ [insert; e]) elements [].

Definition removePrefixes {A : Type} (elements : list A) : list A :=
  filterIndexed (fun e i => (i mod 2 =? 1)%nat) elements O.

(** [prefixElements(insert, elements).slice(1)]. *)
Definition separate {A : Type} (insert : A) (elements : list A) : list A :=
  skipn 1 (prefixElements insert elements).

Definition removeSeparators {A : Type} (elements : list A) : list A :=
  filterIndexed (fun e i => (i mod 2 =? 0)%nat) elements O.

(** [s.slice(from, to)] for integers [from] and [to]. *)
Definition slice2 (s : string) (from to : Z) : string :=
  let len := strlen s in
  let k := if from <? 0 then Z.max 0 (len + from) else Z.min from len in
  let final := if to <? 0 then Z.max 0 (len + to) else Z.min to len in
  substring (Z.to_nat k) (Z.to_nat (Z.max 0 (final - k))) s.

(** The loop of [uniqueCompletion] over the sorted completions still to
    visit; it returns the empty string as soon as nothing is shared. *)
Fixpoint uniqueLoop (first : string) (sorted : list string) : string :=
  match sorted with
  | [] => first
  | s :: rest =>
      let prefix := stringMatchForward first s in
      if prefix =? 0 then EmptyString
      else uniqueLoop (slice2 first 0 prefix) rest
  end.

(** Given a failure not marked for pause, return the longest prefix that
    its completions share.  If it is marked for pause, return the empty
    string. *)
Definition uniqueCompletion (failure : Failure) : string :=
  if f_pause failure then EmptyString
  else
    let completions := f_completions failure in
    if (List.length completions =? 0)%nat then EmptyString
    else
      let sorted := sort completions in
      let first := nth 0 sorted EmptyString in
      uniqueLoop first sorted.

Definition DIGIT_LIST : list string :=
  ["0"; "1"; "2"; "3"; "4"; "5"; "6"; "7"; "8"; "9"]%string.

(** ** Definitions used to state what a choice of constants offers *)

(** The constants that are not a prefix of [rest], the input that remains. *)
Definition unmatched (rest : string) (constants : list string) : list string :=
  filter (fun c => negb (String.prefix c rest)) constants.

(** How far into [rest] the furthest of the unmatched constants reaches. *)
Definition furthestReach (rest : string) (constants : list string) : nat :=
  list_max (map (fun c => commonPrefixLength c rest) (unmatched rest constants)).

(** What is left to type of the unmatched constants that reach furthest. *)
Definition leftToType (rest : string) (constants : list string) : list string :=
  map (fun c => drop (commonPrefixLength c rest) c)
      (filter (fun c => (commonPrefixLength c rest =? furthestReach rest constants)%nat)
              (unmatched rest constants)).

Section MoreParsing.
Context {CommandContext : Type}.

(** The completions that [parseWhitespace] and [parseComma] offer: the
    separator when the failure is where the parse started. *)
Definition separatorCompletions (separator : string)
  (context : CommandContext) (failure : option Failure) (start : Z) : list string :=
  match failure with
  | Some f => if num_eqb (Int start) (f_end f) then [separator] else []
  | None => []
  end.

(** Parse a non-empty string of whitespace.  [whitespace] is what the
    regular expression of the source computes when executed on a string. *)
Definition parseWhitespace (whitespace : string -> option MatchResult)
  : Parser CommandContext :=
  parseWithCompletions
    (separatorCompletions " ")
    (parseRestrictedRegexp (fun result => VStr "whitespace") whitespace).

(** Parse a comma, perhaps with whitespace on either side. *)
Definition parseComma (comma : string -> option MatchResult) : Parser CommandContext :=
  parseWithCompletions
    (separatorCompletions ",")
    (parseRestrictedRegexp (fun result => VStr "comma") comma).

Definition parseCommaSeparated (comma : string -> option MatchResult)
  (parser : Parser CommandContext) : Parser CommandContext :=
  parseSeparated (fun w => w) parser (parseComma comma).

(** [digits] is the regular expression for a run of digits, [parseInt] the
    conversion of the matched text in base ten. *)
Definition parseNonNegativeInteger (digits : string -> option MatchResult)
  (parseInt : string -> Value) : Parser CommandContext :=
  parseWithCompletions
    (fun context failure start => DIGIT_LIST)
    (parseRestrictedRegexp (fun result => parseInt (matched result)) digits).

Definition parseYesNo : Parser CommandContext :=
  parseChoice [parseConstant "yes" None; parseConstant "no" None].

(** A sequence of [parsers], each preceded by whitespace; the witness is
    the array of the witnesses of [parsers]. *)
Definition whitespacePrefixed (whitespace : string -> option MatchResult)
  (parsers : list (Parser CommandContext)) : Parser CommandContext :=
  parseSequence (fun witnesses => VArr (removePrefixes witnesses))
                (prefixElements (parseWhitespace whitespace) parsers).

(** A sequence of [parsers] with whitespace between them. *)
Definition whitespaceSeparated (whitespace : string -> option MatchResult)
  (parsers : list (Parser CommandContext)) : Parser CommandContext :=
  parseSequence (fun witnesses => VArr (removeSeparators witnesses))
                (separate (parseWhitespace whitespace) parsers).

(** ** Definitions used to state how the combinators compose *)

(** The success that [parseChain] builds from a success [s1] of its first
    parser and a success [s] of the continuation of [s1]. *)
Definition chained (mergeWitnesses : Value -> Value -> Value)
  (s1 s : Success CommandContext) : Success CommandContext :=
  new_Success (s_annotations s) (s_context s) (s_end s)
              (mergeWitnesses (s_witness s1) (s_witness s)).

(** The successes that the continuation of [s1] contributes to a chain. *)
Definition continuations (mergeWitnesses : Value -> Value -> Value)
  (chain : Success CommandContext -> Parser CommandContext)
  (fuel : nat) (input : string) (s1 : Success CommandContext)
  : list (Success CommandContext) :=
  match chain s1 fuel input s1 with
  | Some (s2, _) => map (chained mergeWitnesses s1) s2
  | None => []
  end.

(** [path] lists one success of each of [parsers], in order: each parser
    is run from where the one before it ended, on a [Success] whose witness
    is the array [seen] of the witnesses so far, latest first, as
    [parseSequence] accumulates them. *)
Fixpoint threaded (parsers : list (Parser CommandContext)) (fuel : nat) (input : string)
  (last : Success CommandContext) (seen : list Value)
  (path : list (Success CommandContext)) : Prop :=
  match parsers, path with
  | [], [] => True
  | p :: parsers', s1 :: path' =>
      (exists successes failure,
          p fuel input (new_Success (s_annotations last) (s_context last)
                                    (s_end last) (VArr seen))
          = Some (successes, failure)
          /\ In s1 successes)
      /\ threaded parsers' fuel input s1 (s_witness s1 :: seen) path'
  | _, _ => False
  end.

(** [path] lists, for each of [parsers] in order, a success of
    [separator] and then a success of the parser: each is run from where
    the success before it ended, on a [Success] whose witness is the array
    [seen] of all the witnesses so far, latest first. *)
Fixpoint separatorThreaded (separator : Parser CommandContext)
  (parsers : list (Parser CommandContext)) (fuel : nat) (input : string)
  (last : Success CommandContext) (seen : list Value)
  (path : list (Success CommandContext * Success CommandContext)) : Prop :=
  match parsers, path with
  | [], [] => True
  | p :: parsers', (w, s) :: path' =>
      (exists successes failure,
          separator fuel input (new_Success (s_annotations last) (s_context last)
                                            (s_end last) (VArr seen))
          = Some (successes, failure)
          /\ In w successes)
      /\ (exists successes failure,
             p fuel input (new_Success (s_annotations w) (s_context w)
                                       (s_end w) (VArr (s_witness w :: seen)))
             = Some (successes, failure)
             /\ In s successes)
      /\ separatorThreaded separator parsers' fuel input s
                           (s_witness s :: s_witness w :: seen) path'
  | _, _ => False
  end.

(** The success that [parseConstant(constant, witness)] returns from
    [success] when it matches. *)
Definition matchOf (success : Success CommandContext)
  (entry : string * option Value) : Success CommandContext :=
  new_Success (s_annotations success) (s_context success)
              (s_end success + strlen (fst entry))
              (match snd entry with
               | None | Some VUndefined => VStr (fst entry)
               | Some w => w
               end).

(** The witness of [x] is the array of some distinct strings of [choices]. *)
Definition distinctChoice (choices : list string) (x : Success CommandContext) : Prop :=
  exists chosen,
    s_witness x = VArr (map VStr chosen) /\ NoDup chosen /\ incl chosen choices.

End MoreParsing.

(** * Properties *)

(** ** Strings and the matching loop *)

Lemma drop_nil (n : nat) : drop n EmptyString = EmptyString.
Proof. destruct n; reflexivity. Qed.

Lemma drop_length (n : nat) (s : string) :
  String.length (drop n s) = (String.length s - n)%nat.
Proof.
  revert s; induction n as [|n IH]; intros s; simpl.
  - lia.
  - destruct s as [|c s]; simpl; [reflexivity | apply IH].
Qed.

Lemma drop_step (n : nat) (s : string) (c : ascii) (r : string) :
  drop n s = String c r ->
  String.get n s = Some c /\ drop (S n) s = r.
Proof.
  revert s; induction n as [|n IH]; intros s H.
  - simpl in H. subst s. split; reflexivity.
  - destruct s as [|c' s]; simpl in H; [discriminate|].
    destruct (IH s H) as [Hg Hd]. split.
    + simpl. exact Hg.
    + simpl. destruct s; simpl in *; [ now rewrite drop_nil in H | exact Hd ].
Qed.

Lemma charAt_of_nat (s : string) (n : nat) :
  charAt s (Z.of_nat n) = String.get n s.
Proof.
  unfold charAt. destruct (Z.of_nat n <? 0) eqn:E.
  - apply Z.ltb_lt in E. lia.
  - now rewrite Nat2Z.id.
Qed.

(** While both indices stay inside their strings, the loop counts the
    common prefix of the two remainders, up to the number of steps. *)
Lemma matchForward_common (steps : nat) :
  forall (s1 s2 : string) (i j : nat),
    (steps <= String.length (drop i s1))%nat ->
    (steps <= String.length (drop j s2))%nat ->
    matchForward s1 s2 (Z.of_nat i) (Z.of_nat j) steps
    = Z.of_nat i
      + Z.of_nat (Nat.min steps (commonPrefixLength (drop i s1) (drop j s2))).
Proof.
  induction steps as [|k IH]; intros s1 s2 i j H1 H2.
  - simpl. lia.
  - destruct (drop i s1) as [|a r1] eqn:E1; [simpl in H1; lia|].
    destruct (drop j s2) as [|b r2] eqn:E2; [simpl in H2; lia|].
    destruct (drop_step _ _ _ _ E1) as [G1 D1].
    destruct (drop_step _ _ _ _ E2) as [G2 D2].
    cbn [matchForward]. rewrite !charAt_of_nat, G1, G2.
    cbn [char_eqb commonPrefixLength].
    destruct (Ascii.eqb a b).
    + replace (Z.of_nat i + 1) with (Z.of_nat (S i)) by lia.
      replace (Z.of_nat j + 1) with (Z.of_nat (S j)) by lia.
      rewrite IH.
      * rewrite D1, D2. lia.
      * rewrite D1. simpl in H1. lia.
      * rewrite D2. simpl in H2. lia.
    + lia.
Qed.

Lemma commonPrefixLength_le_l (a b : string) :
  (commonPrefixLength a b <= String.length a)%nat.
Proof.
  revert b; induction a as [|x a IH]; intros [|y b]; simpl; try lia.
  destruct (Ascii.eqb x y); [specialize (IH b)|]; lia.
Qed.

Lemma commonPrefixLength_le_r (a b : string) :
  (commonPrefixLength a b <= String.length b)%nat.
Proof.
  revert b; induction a as [|x a IH]; intros [|y b]; simpl; try lia.
  destruct (Ascii.eqb x y); [specialize (IH b)|]; lia.
Qed.

(** The common prefix really is common, and cannot be extended. *)
Lemma commonPrefixLength_common (a b : string) :
  substring 0 (commonPrefixLength a b) a = substring 0 (commonPrefixLength a b) b.
Proof.
  revert b; induction a as [|x a IH]; intros [|y b]; simpl; try reflexivity.
  destruct (Ascii.eqb x y) eqn:E; simpl; [|reflexivity].
  apply Ascii.eqb_eq in E. subst y. now rewrite IH.
Qed.

Lemma commonPrefixLength_maximal (a b : string) :
  let m := commonPrefixLength a b in
  match String.get m a, String.get m b with
  | Some x, Some y => x <> y
  | _, _ => True
  end.
Proof.
  revert b; induction a as [|x a IH]; intros [|y b]; simpl; try exact I.
  destruct (Ascii.eqb x y) eqn:E; simpl.
  - apply IH.
  - now apply Ascii.eqb_neq.
Qed.

Lemma prefix_commonPrefixLength (a b : string) :
  String.prefix a b = true <-> commonPrefixLength a b = String.length a.
Proof.
  revert b; induction a as [|x a IH]; intros b.
  - destruct b; simpl; split; reflexivity.
  - destruct b as [|y b]; simpl.
    + split; discriminate.
    + destruct (ascii_dec x y) as [->|N].
      * rewrite Ascii.eqb_refl, IH. split; [congruence | now injection 1].
      * apply Ascii.eqb_neq in N. rewrite N. split; discriminate.
Qed.

Lemma substring_drop (k : nat) (s : string) :
  substring k (String.length s - k) s = drop k s.
Proof.
  revert s; induction k as [|k IH]; intros s.
  - rewrite Nat.sub_0_r. simpl.
    induction s as [|c s IHs]; simpl; [reflexivity | now rewrite IHs].
  - destruct s as [|c s]; simpl; [reflexivity | apply IH].
Qed.

Lemma slice_drop (s : string) (k : nat) :
  (k <= String.length s)%nat -> slice s (Z.of_nat k) = drop k s.
Proof.
  intros H. unfold slice, strlen.
  destruct (Z.of_nat k <? 0) eqn:E; [apply Z.ltb_lt in E; lia|].
  rewrite Z.min_l by lia.
  rewrite Nat2Z.id.
  replace (Z.to_nat (Z.of_nat (String.length s) - Z.of_nat k))
    with (String.length s - k)%nat by lia.
  apply substring_drop.
Qed.

(** What [parseConstant] computes as [matchSize]. *)
Lemma matchSize_commonPrefixLength (constant input : string) (start : Z) :
  0 <= start ->
  let comparisonSize := Z.min (strlen constant) (strlen input - start) in
  substringMatchForward input start (start + comparisonSize) constant 0 comparisonSize
  = Z.of_nat (commonPrefixLength constant (drop (Z.to_nat start) input)).
Proof.
  intros Hs comparisonSize.
  unfold substringMatchForward.
  replace (start + comparisonSize - start) with comparisonSize by lia.
  replace (comparisonSize - 0) with comparisonSize by lia.
  rewrite Z.min_id.
  replace (start + comparisonSize - start) with comparisonSize by lia.
  set (rest := drop (Z.to_nat start) input).
  pose proof (commonPrefixLength_le_l constant rest) as Hl.
  pose proof (commonPrefixLength_le_r constant rest) as Hr.
  pose proof (drop_length (Z.to_nat start) input) as Hd. fold rest in Hd.
  assert (Hsym : forall a b, commonPrefixLength a b = commonPrefixLength b a).
  { induction a as [|x a IH]; intros [|y b]; simpl; try reflexivity.
    rewrite (Ascii.eqb_sym x y). destruct (Ascii.eqb y x); [now rewrite IH | reflexivity]. }
  replace start with (Z.of_nat (Z.to_nat start)) at 1 2 by lia.
  change 0 with (Z.of_nat 0) at 1.
  rewrite matchForward_common.
  - fold rest. simpl drop. rewrite (Hsym rest constant).
    unfold comparisonSize, strlen in *. lia.
  - fold rest. unfold comparisonSize, strlen. lia.
  - simpl drop. unfold comparisonSize, strlen. lia.
Qed.

(** ** parseConstant *)

Lemma parseConstant_unfold {CommandContext : Type}
  (literal : string) (witness : option Value) (fuel : nat) (input : string)
  (success : Success CommandContext) :
  0 <= s_end success ->
  let start := s_end success in
  let matched := commonPrefixLength literal (drop (Z.to_nat start) input) in
  parseConstant literal witness fuel input success
  = Some (if Z.of_nat matched =? strlen literal
          then ([mkSuccess (s_annotations success) (s_context success)
                           (start + strlen literal)
                           (defaultParameter witness (VStr literal))],
                None)
          else ([],
                Some (mkFailure [] [slice literal (Z.of_nat matched)]
                                (Int (start + Z.of_nat matched)) false))).
Proof.
  intros H start matched. unfold parseConstant.
  rewrite (matchSize_commonPrefixLength literal input (s_end success) H).
  reflexivity.
Qed.

(** C2.  [parseConstant(literal)], started at a position [start >= 0]:
    when the literal is a prefix of the input from [start] on (a full
    match), the result is exactly one [Success], ending at
    [start + literal.length], with the literal as witness unless another
    witness was given (an [undefined] witness counts as none given, as
    for every parameter with a default), and no [Failure]; otherwise the
    result is no
    [Success] and one [Failure] ending at [start] plus the length of the
    longest common prefix of the literal and the remaining input, with the
    unmatched suffix of the literal as its only completion and [pause]
    false.  The two instances with the literal "launch" follow. *)
Theorem parseConstant_correct :
  (forall (CommandContext : Type) (literal : string) (witness : option Value)
          (fuel : nat) (input : string) (success : Success CommandContext),
      0 <= s_end success ->
      let start := s_end success in
      let rest := drop (Z.to_nat start) input in
      let matched := commonPrefixLength literal rest in
      parseConstant literal witness fuel input success
      = Some (if String.prefix literal rest
              then ([mkSuccess (s_annotations success) (s_context success)
                               (start + strlen literal)
                               (match witness with
                                | None | Some VUndefined => VStr literal
                                | Some w => w
                                end)],
                    None)
              else ([],
                    Some (mkFailure [] [drop matched literal]
                                    (Int (start + Z.of_nat matched)) false))))
  /\ (forall (CommandContext : Type) (context : CommandContext) (fuel : nat),
         parseConstant "launch" None fuel "launch" (initial context)
         = Some ([mkSuccess [] context 6 (VStr "launch")], None)
         /\ parseConstant "launch" (Some VUndefined) fuel "launch" (initial context)
            = Some ([mkSuccess [] context 6 (VStr "launch")], None))
  /\ (forall (CommandContext : Type) (context : CommandContext) (fuel : nat),
         parseConstant "launch" None fuel "lau" (initial context)
         = Some ([], Some (mkFailure [] ["nch"%string] (Int 3) false))).
Proof.
  split; [|split; intros; [split|]; reflexivity].
  intros CommandContext literal witness fuel input success H start rest matched.
  rewrite (parseConstant_unfold literal witness fuel input success H).
  fold start rest matched. unfold defaultParameter.
  destruct (String.prefix literal rest) eqn:P.
  - apply prefix_commonPrefixLength in P. fold matched in P.
    unfold strlen. rewrite P, Z.eqb_refl. reflexivity.
  - destruct (Z.of_nat matched =? strlen literal) eqn:E.
    + apply Z.eqb_eq in E. unfold strlen in E. apply Nat2Z.inj in E.
      apply prefix_commonPrefixLength in E. fold rest in E. congruence.
    + rewrite slice_drop by apply commonPrefixLength_le_l. reflexivity.
Qed.

(** Instances from position 2: "launch" with the witness 1, "launch" with
    the witness [undefined], which gives the literal, and a partial
    match. *)
Lemma parseConstant_correct_witness :
  0 <= 2
  /\ parseConstant "launch" (Some (VNum 1)) 0 "a launch" (mkSuccess [] tt 2 VNull)
     = Some ([mkSuccess [] tt 8 (VNum 1)], None)
  /\ parseConstant "launch" (Some VUndefined) 0 "a launch" (mkSuccess [] tt 2 VNull)
     = Some ([mkSuccess [] tt 8 (VStr "launch")], None)
  /\ parseConstant "launch" (Some VNull) 0 "a lau" (mkSuccess [] tt 2 VNull)
     = Some ([], Some (mkFailure [] ["nch"%string] (Int 5) false)).
Proof.
  split; [lia|]. split; [|split].
  - exact (proj1 parseConstant_correct unit "launch"%string (Some (VNum 1)) 0%nat
             "a launch"%string (mkSuccess [] tt 2 VNull) ltac:(simpl; lia)).
  - exact (proj1 parseConstant_correct unit "launch"%string (Some VUndefined) 0%nat
             "a launch"%string (mkSuccess [] tt 2 VNull) ltac:(simpl; lia)).
  - exact (proj1 parseConstant_correct unit "launch"%string (Some VNull) 0%nat
             "a lau"%string (mkSuccess [] tt 2 VNull) ltac:(simpl; lia)).
Defined.

(** C10.  Every [Success] that [parseConstant] returns carries the
    annotations and the context of the starting [Success]; the [Failure] it
    returns carries no annotations. *)
Theorem parseConstant_frame :
  forall (CommandContext : Type) (literal : string) (witness : option Value)
         (fuel : nat) (input : string) (success : Success CommandContext),
  exists successes failure,
    parseConstant literal witness fuel input success = Some (successes, failure)
    /\ Forall (fun s => s_annotations s = s_annotations success
                        /\ s_context s = s_context success) successes
    /\ match failure with
       | Some f => f_annotations f = []
       | None => True
       end.
Proof.
  intros. unfold parseConstant.
  match goal with |- context [if ?c then _ else _] => destruct c end.
  - eexists; eexists; split; [reflexivity|]. split; [|exact I].
    constructor; [split; reflexivity | constructor].
  - eexists; eexists; split; [reflexivity|]. split; [constructor | reflexivity].
Qed.

(** An instance: from a [Success] that carries an annotation, the success
    keeps it and the failure drops it. *)
Lemma parseConstant_frame_example :
  parseConstant "go" None 0 "go" (mkSuccess [new_Annotation 1 [] 0 (Int 0)] tt 0 VNull)
  = Some ([mkSuccess [new_Annotation 1 [] 0 (Int 0)] tt 2 (VStr "go")], None)
  /\ parseConstant "go" None 0 "g" (mkSuccess [new_Annotation 1 [] 0 (Int 0)] tt 0 VNull)
     = Some ([], Some (mkFailure [] ["o"%string] (Int 1) false)).
Proof. split; reflexivity. Qed.

(** ** parseFail *)

(** C4, as the code has it.  [parseFail] returns no [Success] and one
    [Failure] at the starting position with no completions and [pause]
    false: it passes [false] for [pause], where the default rule would have
    given true. *)
Theorem parseFail_result :
  forall (CommandContext : Type) (fuel : nat) (input : string)
         (success : Success CommandContext),
    parseFail fuel input success
    = Some ([], Some (mkFailure [] [] (Int (s_end success)) false))
    /\ f_pause (new_Failure [] [] (Int (s_end success)) None) = true.
Proof. intros. split; reflexivity. Qed.

(** The failure that [parseFail] returns from the initial [Success] on the
    empty input does not have [pause] true. *)
Lemma parseFail_pause_not_true :
  ~ (exists f,
        parseFail 0 "" (initial tt) = Some ([], Some f)
        /\ f_end f = Int 0
        /\ f_completions f = []
        /\ f_pause f = true).
Proof.
  intros [f [H [_ [_ P]]]].
  injection H as <-. discriminate P.
Qed.

(** ** parseStar over a constant *)

(** C5, as the code has it.  With a budget of at least 2,
    [parseStar(join, parseConstant("ab"))] returns on "abab" the successes
    ending at 0, 2 and 4 with the witnesses "", "ab" and "abab", and on
    "ababa" the same successes and a [Failure] ending at 5 whose only
    completion is "b" and whose [pause] is false. *)
Theorem parseStar_ab_results :
  forall (CommandContext : Type) (context : CommandContext) (n : nat),
    let successes :=
      [mkSuccess [] context 0 (VStr "");
       mkSuccess [] context 2 (VStr "ab");
       mkSuccess [] context 4 (VStr "abab")] in
    parseStar join (parseConstant "ab" None) (2 + n)%nat "abab"%string (initial context)
    = Some (successes, Some (mkFailure [] ["ab"%string] (Int 4) false))
    /\ parseStar join (parseConstant "ab" None) (2 + n)%nat "ababa"%string (initial context)
       = Some (successes, Some (mkFailure [] ["b"%string] (Int 5) false)).
Proof. intros. destruct n; split; vm_compute; reflexivity. Qed.

(** Whatever the budget, the failure returned on "ababa" does not have
    [pause] true. *)
Lemma parseStar_ababa_pause_not_true :
  ~ (exists fuel successes f,
        parseStar join (parseConstant "ab" None) fuel "ababa"%string (initial tt)
        = Some (successes, Some f)
        /\ In 4 (map s_end successes)
        /\ f_end f = Int 5
        /\ f_pause f = true).
Proof.
  intros (fuel & successes & f & H & _ & _ & P).
  destruct fuel as [|[|[|n]]]; vm_compute in H; try discriminate H;
    injection H as _ <-; discriminate P.
Qed.

(** ** parseChoice of two constants *)

(** C6, as the code has it.  [parseChoice(parseConstant("cat"),
    parseConstant("car"))] returns on "ca" no [Success] and one merged
    [Failure] ending at 2 whose completions are the sorted array
    ["r", "t"]. *)
Theorem parseChoice_cat_car :
  forall (CommandContext : Type) (context : CommandContext) (fuel : nat),
    parseChoice [parseConstant "cat" None; parseConstant "car" None]
      fuel "ca"%string (initial context)
    = Some ([], Some (mkFailure [] ["r"%string; "t"%string] (Int 2) false)).
Proof. intros. vm_compute. reflexivity. Qed.

(** The completions of the merged failure are not ["t", "r"]. *)
Lemma parseChoice_cat_car_not_t_r :
  ~ (exists f,
        parseChoice [parseConstant "cat" None; parseConstant "car" None]
          0%nat "ca"%string (initial tt)
        = Some ([], Some f)
        /\ f_end f = Int 2
        /\ f_completions f = ["t"%string; "r"%string]).
Proof.
  intros (f & H & _ & C).
  vm_compute in H. injection H as <-. discriminate C.
Qed.

(** ** parseSubset *)

(** C9.  [parseSubset(["a","b","c"], parseConstant(","))], with a budget
    of at least 2, returns a [Success] that consumes the whole input for
    each of "", "a", "a,b" and "c,a,b", and none for "a,a"; with a smaller
    budget it returns none for "a,a" either. *)
Theorem parseSubset_abc :
  forall (CommandContext : Type) (context : CommandContext),
    let subset :=
      parseSubset (ArrayOf ["a"; "b"; "c"]%string) (parseConstant "," None) in
    (forall n : nat,
        accepted subset (2 + n) "" context
        = Some [mkSuccess [] context 0 (VArr [])]
        /\ accepted subset (2 + n) "a" context
           = Some [mkSuccess [] context 1 (VArr [VStr "a"])]
        /\ accepted subset (2 + n) "a,b" context
           = Some [mkSuccess [] context 3 (VArr [VStr "a"; VStr "b"])]
        /\ accepted subset (2 + n) "c,a,b" context
           = Some [mkSuccess [] context 5 (VArr [VStr "c"; VStr "a"; VStr "b"])]
        /\ accepted subset (2 + n) "a,a" context = Some [])
    /\ (forall fuel : nat,
           accepted subset fuel "a,a" context = None
           \/ accepted subset fuel "a,a" context = Some []).
Proof.
  intros CommandContext context subset. split.
  - intros n. destruct n; repeat split; vm_compute; reflexivity.
  - intros [|[|[|n]]]; vm_compute; auto.
Qed.

(** ** The invariant asserted by parseCheckInvariants *)

(** C1 fails on [parseNonEmpty].  [parseOptional(parseConstant("a"))]
    returns on "a" the successes ending at 1 and 0 and no failure, which
    satisfies the invariant; [parseNonEmpty] of it drops the empty success
    and adds a [Failure] at the start, so the failure ends at 0, before the
    success that ends at 1: the condition asserted by
    [parseCheckInvariants] is false on that result. *)
Theorem parseNonEmpty_breaks_invariant :
  forall (CommandContext : Type) (context : CommandContext) (fuel : nat),
    let parser := parseOptional (parseConstant "a" None) None in
    parser fuel "a"%string (initial context)
    = Some ([mkSuccess [] context 1 (VStr "a");
             mkSuccess [] context 0 (VStr "missing")],
            None)
    /\ parseNonEmpty parser fuel "a"%string (initial context)
       = Some ([mkSuccess [] context 1 (VStr "a")],
               Some (mkFailure [] [] (Int 0) false))
    /\ invariantsHold ([mkSuccess [] context 1 (VStr "a")],
                       Some (mkFailure [] [] (Int 0) false)) = false.
Proof. intros. repeat split; vm_compute; reflexivity. Qed.

(** ** The order on strings *)

Lemma ascii_compare_refl (a : ascii) : Ascii.compare a a = Eq.
Proof. unfold Ascii.compare. apply N.compare_refl. Qed.

Lemma ascii_compare_lt_trans (a b c : ascii) :
  Ascii.compare a b = Lt -> Ascii.compare b c = Lt -> Ascii.compare a c = Lt.
Proof.
  unfold Ascii.compare. rewrite !N.compare_lt_iff. apply N.lt_trans.
Qed.

Lemma leb_refl (s : string) : le_string s s.
Proof.
  unfold le_string, String.leb.
  induction s as [|c s IH]; simpl; [reflexivity|].
  now rewrite ascii_compare_refl.
Qed.

Lemma compare_not_Gt_trans (a : string) :
  forall b c : string,
    String.compare a b <> Gt -> String.compare b c <> Gt -> String.compare a c <> Gt.
Proof.
  induction a as [|x a IH]; intros [|y b] [|z c]; simpl; try congruence.
  destruct (Ascii.compare x y) eqn:Exy; destruct (Ascii.compare y z) eqn:Eyz;
    try congruence.
  - apply Ascii.compare_eq_iff in Exy, Eyz. subst.
    rewrite ascii_compare_refl. apply IH.
  - apply Ascii.compare_eq_iff in Exy. subst. rewrite Eyz. congruence.
  - apply Ascii.compare_eq_iff in Eyz. subst. rewrite Exy. congruence.
  - rewrite (ascii_compare_lt_trans _ _ _ Exy Eyz). congruence.
Qed.

Lemma leb_not_Gt (a b : string) : le_string a b <-> String.compare a b <> Gt.
Proof.
  unfold le_string, String.leb.
  destruct (String.compare a b); split; congruence.
Qed.

Lemma leb_trans (a b c : string) : le_string a b -> le_string b c -> le_string a c.
Proof. rewrite !leb_not_Gt. apply compare_not_Gt_trans. Qed.

Lemma prefix_refl (s : string) : String.prefix s s = true.
Proof.
  induction s as [|c s IH]; simpl; [reflexivity|].
  destruct (ascii_dec c c); [exact IH | congruence].
Qed.

Lemma prefix_nil (s : string) : String.prefix EmptyString s = true.
Proof. destruct s; reflexivity. Qed.

Lemma prefix_cons (x y : ascii) (a b : string) :
  String.prefix (String x a) (String y b) = true <-> x = y /\ String.prefix a b = true.
Proof.
  simpl. destruct (ascii_dec x y) as [E|N]; split; try tauto; discriminate.
Qed.

Lemma prefix_leb (p c : string) : String.prefix p c = true -> le_string p c.
Proof.
  rewrite leb_not_Gt. revert c.
  induction p as [|x p IH]; intros [|y c] H; simpl; try congruence.
  - discriminate H.
  - apply prefix_cons in H. destruct H as [-> H].
    rewrite ascii_compare_refl. now apply IH.
Qed.

(** In the lexicographic order, whatever lies between a string and one of
    its extensions is itself an extension of that string. *)
Lemma prefix_between (a : string) :
  forall b c : string,
    le_string a b -> le_string b c ->
    String.prefix a c = true -> String.prefix a b = true.
Proof.
  induction a as [|x a IH]; intros b c Hab Hbc P.
  - apply prefix_nil.
  - rewrite leb_not_Gt in Hab, Hbc.
    destruct c as [|z c]; [discriminate P|].
    apply prefix_cons in P. destruct P as [<- P].
    destruct b as [|y b]; [simpl in Hab; congruence|].
    simpl in Hab, Hbc.
    destruct (Ascii.compare x y) eqn:Exy; try congruence.
    + apply Ascii.compare_eq_iff in Exy. subst y.
      rewrite ascii_compare_refl in Hbc.
      apply prefix_cons. split; [reflexivity|].
      apply (IH b c); [| |exact P]; now apply leb_not_Gt.
    + rewrite Ascii.compare_antisym, Exy in Hbc. simpl in Hbc. congruence.
Qed.

(** ** Sorting *)

Lemma insert_perm (x : string) (l : list string) : Permutation (insert x l) (x :: l).
Proof.
  induction l as [|y l IH]; simpl; [reflexivity|].
  destruct (String.leb x y); [reflexivity|].
  rewrite IH. apply perm_swap.
Qed.

Lemma sort_perm (l : list string) : Permutation (sort l) l.
Proof.
  induction l as [|x l IH]; simpl; [reflexivity|].
  rewrite insert_perm. now constructor.
Qed.

Lemma insert_sorted (x : string) (l : list string) :
  StronglySorted le_string l -> StronglySorted le_string (insert x l).
Proof.
  induction 1 as [|y l S IH F]; simpl.
  - repeat constructor.
  - destruct (String.leb x y) eqn:E.
    + constructor; [constructor; assumption|].
      constructor; [exact E|].
      eapply Forall_impl; [|exact F]. intros z Hz. eapply leb_trans; eassumption.
    + constructor; [exact IH|].
      assert (Hyx : le_string y x).
      { destruct (String.leb_total x y) as [H|H]; [congruence | exact H]. }
      eapply Permutation_Forall; [symmetry; apply insert_perm|].
      constructor; assumption.
Qed.

Lemma sort_sorted (l : list string) : StronglySorted le_string (sort l).
Proof.
  induction l as [|x l IH]; simpl; [constructor | now apply insert_sorted].
Qed.

Lemma sort_of_sorted (l : list string) : StronglySorted le_string l -> sort l = l.
Proof.
  induction 1 as [|x l S IH F]; simpl; [reflexivity|].
  rewrite IH. destruct l as [|y l]; simpl; [reflexivity|].
  inversion F as [|? ? Hxy _]; subst. unfold le_string in Hxy. now rewrite Hxy.
Qed.

(** A sorted array is determined by its elements: [sort] has no choice. *)
Lemma sorted_perm_eq (l1 : list string) :
  forall l2 : list string,
    StronglySorted le_string l1 -> StronglySorted le_string l2 ->
    Permutation l1 l2 -> l1 = l2.
Proof.
  induction l1 as [|x l1 IH]; intros l2 S1 S2 P.
  - apply Permutation_nil in P. now subst.
  - destruct l2 as [|y l2]; [symmetry in P; apply Permutation_nil in P; discriminate|].
    inversion S1 as [|? ? S1' F1]; inversion S2 as [|? ? S2' F2]; subst.
    assert (x = y) as ->.
    { assert (Hx : In x (y :: l2)) by (eapply Permutation_in; [exact P | now left]).
      assert (Hy : In y (x :: l1))
        by (eapply Permutation_in; [symmetry; exact P | now left]).
      rewrite Forall_forall in F1, F2.
      destruct Hx as [->|Hx]; [reflexivity|].
      destruct Hy as [->|Hy]; [reflexivity|].
      apply String.leb_antisym; [apply F1 | apply F2]; assumption. }
    f_equal. apply IH; try assumption.
    now apply Permutation_cons_inv in P.
Qed.

Lemma sort_unique (l l' : list string) :
  Permutation l l' -> StronglySorted le_string l' -> sort l = l'.
Proof.
  intros P S. apply sorted_perm_eq; [apply sort_sorted | exact S |].
  now rewrite sort_perm.
Qed.

(** ** normalizeCompletions *)

(** The [forEach] of [normalizeCompletions], started with an accumulator
    that ends in [last] at index [i], appends [keepShortest last rest]. *)
Lemma fold_normalizeStep (rest : list string) :
  forall (pre : list string) (last : string),
    fst (fold_left normalizeStep rest (pre ++ [last], List.length pre))
    = pre ++ last :: keepShortest last rest.
Proof.
  induction rest as [|c rest IH]; intros pre last; simpl.
  - reflexivity.
  - rewrite nth_middle.
    destruct (startsWith c last).
    + apply IH.
    + replace (S (List.length pre)) with (List.length (pre ++ [last]))
        by (rewrite length_app; simpl; lia).
      rewrite IH. now rewrite <- app_assoc.
Qed.

Lemma normalizeCompletions_shortest (completions : list string) :
  normalizeCompletions completions = shortest (sort completions).
Proof.
  unfold normalizeCompletions.
  destruct completions as [|c cs]; [reflexivity|].
  cbn [List.length Nat.eqb].
  destruct (sort (c :: cs)) as [|c0 rest] eqn:E.
  - pose proof (sort_perm (c :: cs)) as P. rewrite E in P.
    apply Permutation_nil in P. discriminate P.
  - cbn [firstn skipn shortest].
    apply (fold_normalizeStep rest [] c0).
Qed.

Lemma keepShortest_incl (rest : list string) :
  forall last x, In x (keepShortest last rest) -> In x rest.
Proof.
  induction rest as [|c rest IH]; intros last x H; simpl in *; [exact H|].
  destruct (startsWith c last).
  - right. eapply IH, H.
  - destruct H as [->|H]; [now left | right; eapply IH, H].
Qed.

Lemma shortest_incl (l : list string) : incl (shortest l) l.
Proof.
  destruct l as [|c0 rest]; intros x H; [exact H|].
  destruct H as [->|H]; [now left | right; eapply keepShortest_incl, H].
Qed.

Lemma keepShortest_sorted (rest : list string) :
  forall last,
    StronglySorted le_string (last :: rest) ->
    StronglySorted le_string (last :: keepShortest last rest).
Proof.
  induction rest as [|c rest IH]; intros last S; simpl; [exact S|].
  inversion S as [|? ? S' F]; subst.
  inversion S' as [|? ? S'' F']; subst.
  inversion F as [|? ? Hc Fr]; subst.
  destruct (startsWith c last).
  - apply IH. now constructor.
  - constructor.
    + now apply IH.
    + constructor; [exact Hc|].
      rewrite Forall_forall in *. intros x Hx. apply Fr.
      eapply keepShortest_incl, Hx.
Qed.

Lemma shortest_sorted (l : list string) :
  StronglySorted le_string l -> StronglySorted le_string (shortest l).
Proof.
  destruct l as [|c0 rest]; [trivial | apply keepShortest_sorted].
Qed.

Lemma keepShortest_chain (rest : list string) :
  forall last, noneStartsWithPrevious last (keepShortest last rest).
Proof.
  induction rest as [|c rest IH]; intros last; simpl; [exact I|].
  destruct (startsWith c last) eqn:E; [apply IH|].
  simpl. split; [exact E | apply IH].
Qed.

Lemma keepShortest_fixed (l : list string) :
  forall last, noneStartsWithPrevious last l -> keepShortest last l = l.
Proof.
  induction l as [|c l IH]; intros last H; simpl; [reflexivity|].
  destruct H as [E H]. rewrite E. f_equal. now apply IH.
Qed.

Lemma shortest_idempotent (l : list string) : shortest (shortest l) = shortest l.
Proof.
  destruct l as [|c0 rest]; [reflexivity|]. simpl. f_equal.
  apply keepShortest_fixed, keepShortest_chain.
Qed.

(** In a sorted array where no string starts with the one before it, the
    first string is unrelated to every later one. *)
Lemma first_unrelated (x : string) (l : list string) :
  StronglySorted le_string (x :: l) ->
  noneStartsWithPrevious x l ->
  Forall (unrelated x) l.
Proof.
  intros S H.
  destruct l as [|y l]; [constructor|].
  destruct H as [Hxy _]. unfold startsWith in Hxy.
  inversion S as [|? ? S' F]; subst.
  inversion F as [|? ? Lxy _]; subst.
  assert (A : forall b, In b (y :: l) -> String.prefix x b = false).
  { intros b Hb. destruct (String.prefix x b) eqn:P; [|reflexivity].
    assert (Lyb : le_string y b).
    { destruct Hb as [->|Hb]; [apply leb_refl|].
      inversion S' as [|? ? _ F']; subst.
      rewrite Forall_forall in F'. now apply F'. }
    rewrite (prefix_between x y b Lxy Lyb P) in Hxy. discriminate Hxy. }
  rewrite Forall_forall. intros b Hb. split; [now apply A|].
  destruct (String.prefix b x) eqn:P; [|reflexivity].
  assert (b = x) as ->.
  { apply String.leb_antisym; [now apply prefix_leb|].
    rewrite Forall_forall in F. now apply F. }
  rewrite <- (A x Hb). symmetry. apply prefix_refl.
Qed.

Lemma chain_unrelated (l : list string) :
  forall x,
    StronglySorted le_string (x :: l) ->
    noneStartsWithPrevious x l ->
    ForallOrdPairs unrelated (x :: l).
Proof.
  induction l as [|y l IH]; intros x S H.
  - repeat constructor.
  - constructor; [now apply first_unrelated|].
    apply IH; [now inversion S | apply H].
Qed.

Lemma shortest_unrelated (l : list string) :
  StronglySorted le_string l -> ForallOrdPairs unrelated (shortest l).
Proof.
  destruct l as [|c0 rest]; intros S; [constructor|].
  apply chain_unrelated; [now apply keepShortest_sorted | apply keepShortest_chain].
Qed.

Lemma keepShortest_covers (rest : list string) :
  forall last,
    Forall (fun x => Exists (fun p => String.prefix p x = true)
                            (last :: keepShortest last rest)) rest.
Proof.
  induction rest as [|c rest IH]; intros last; [constructor|]. simpl.
  destruct (startsWith c last) eqn:E.
  - constructor; [now left | apply IH].
  - constructor.
    + right. left. apply prefix_refl.
    + eapply Forall_impl; [|apply (IH c)]. intros x Hx. now right.
Qed.

Lemma shortest_covers (l : list string) :
  Forall (fun x => Exists (fun p => String.prefix p x = true) (shortest l)) l.
Proof.
  destruct l as [|c0 rest]; [constructor|].
  constructor; [left; apply prefix_refl | apply keepShortest_covers].
Qed.

Lemma normalizeCompletions_incl (xs : list string) :
  incl (normalizeCompletions xs) xs.
Proof.
  rewrite normalizeCompletions_shortest.
  intros x Hx. apply shortest_incl in Hx.
  eapply Permutation_in; [apply sort_perm | exact Hx].
Qed.

Lemma normalizeCompletions_covers (xs : list string) :
  Forall (fun x => Exists (fun p => String.prefix p x = true)
                          (normalizeCompletions xs)) xs.
Proof.
  rewrite normalizeCompletions_shortest.
  eapply Permutation_Forall; [apply sort_perm | apply shortest_covers].
Qed.

(** C7.  [normalizeCompletions] is idempotent, and in its result no string
    is a prefix of a string at another position, so none is a proper
    extension of another.  The result is the shortest-prefix set of the
    input: its strings come from the input, and every input string has a
    prefix in it. *)
Theorem normalizeCompletions_idempotent :
  forall xs : list string,
    normalizeCompletions (normalizeCompletions xs) = normalizeCompletions xs
    /\ ForallOrdPairs unrelated (normalizeCompletions xs)
    /\ incl (normalizeCompletions xs) xs
    /\ Forall (fun x => Exists (fun p => String.prefix p x = true)
                               (normalizeCompletions xs)) xs.
Proof.
  intros xs.
  split; [|split; [|split]].
  - rewrite !normalizeCompletions_shortest.
    pose proof (sort_sorted xs) as S.
    rewrite (sort_of_sorted _ (shortest_sorted _ S)). apply shortest_idempotent.
  - rewrite normalizeCompletions_shortest.
    apply shortest_unrelated, sort_sorted.
  - apply normalizeCompletions_incl.
  - apply normalizeCompletions_covers.
Qed.

(** Read on the elements: a string of the result that is a prefix of a
    string of the result is that string. *)
Lemma normalizeCompletions_prefix_free (xs : list string) (a b : string) :
  In a (normalizeCompletions xs) -> In b (normalizeCompletions xs) ->
  String.prefix a b = true -> a = b.
Proof.
  rewrite normalizeCompletions_shortest.
  pose proof (shortest_unrelated _ (sort_sorted xs)) as U.
  induction U as [|x l F U IH]; intros Ha Hb P; [destruct Ha|].
  rewrite Forall_forall in F.
  destruct Ha as [->|Ha], Hb as [->|Hb]; auto.
  - destruct (F b Hb) as [Q _]. congruence.
  - destruct (F a Ha) as [_ Q]. congruence.
Qed.

Lemma prefix_trans (a : string) :
  forall b c : string,
    String.prefix a b = true -> String.prefix b c = true -> String.prefix a c = true.
Proof.
  induction a as [|x a IH]; intros b c Hab Hbc; [apply prefix_nil|].
  destruct b as [|y b]; [discriminate Hab|].
  destruct c as [|z c]; [discriminate Hbc|].
  apply prefix_cons in Hab, Hbc. destruct Hab as [-> Hab], Hbc as [-> Hbc].
  apply prefix_cons. split; [reflexivity | eapply IH; eassumption].
Qed.

Lemma prefix_antisym (a b : string) :
  String.prefix a b = true -> String.prefix b a = true -> a = b.
Proof.
  intros Hab Hba. apply String.leb_antisym; now apply prefix_leb.
Qed.

(** The result is the only shortest-prefix set: whatever part of the input
    covers the input, with none of its strings a prefix of another, has
    the same strings. *)
Lemma normalizeCompletions_unique (xs l : list string) :
  incl l xs ->
  (forall x, In x xs -> exists p, In p l /\ String.prefix p x = true) ->
  (forall a b, In a l -> In b l -> String.prefix a b = true -> a = b) ->
  forall x, In x l <-> In x (normalizeCompletions xs).
Proof.
  intros Incl Cover Free x.
  pose proof (normalizeCompletions_covers xs) as C. rewrite Forall_forall in C.
  split; intros Hx.
  - destruct (proj1 (Exists_exists _ _) (C x (Incl x Hx))) as (r & Hr & Prx).
    destruct (Cover r (normalizeCompletions_incl xs r Hr)) as (p & Hp & Ppr).
    assert (p = x) as -> by (apply Free; [assumption.. | eapply prefix_trans; eassumption]).
    now rewrite (prefix_antisym x r Ppr Prx) in *.
  - destruct (Cover x (normalizeCompletions_incl xs x Hx)) as (p & Hp & Ppx).
    destruct (proj1 (Exists_exists _ _) (C p (Incl p Hp))) as (r & Hr & Prp).
    assert (r = x) as ->
        by (eapply normalizeCompletions_prefix_free;
            [exact Hr | exact Hx | eapply prefix_trans; eassumption]).
    now rewrite (prefix_antisym x p Prp Ppx) in *.
Qed.

(** The result does not depend on the order of the input. *)
Lemma normalizeCompletions_perm (xs ys : list string) :
  Permutation xs ys -> normalizeCompletions xs = normalizeCompletions ys.
Proof.
  intros P. rewrite !normalizeCompletions_shortest. f_equal.
  apply sort_unique; [|apply sort_sorted].
  rewrite P. symmetry. apply sort_perm.
Qed.

(** ** Sets and mergeAnnotations *)

Section SetFacts.
Variable A : Type.
Variable same : A -> A -> bool.
Hypothesis same_spec : forall x y, same x y = true <-> x = y.

Lemma existsb_same (a : A) (set : list A) : existsb (same a) set = true <-> In a set.
Proof.
  rewrite existsb_exists. split.
  - intros (x & Hx & E). apply same_spec in E. now subst.
  - intros H. exists a. split; [exact H | now apply same_spec].
Qed.

Lemma In_Set_add (set : list A) (b a : A) :
  In a (Set_add same set b) <-> In a set \/ a = b.
Proof.
  unfold Set_add. destruct (existsb (same b) set) eqn:E.
  - apply existsb_same in E. split; [now left | intros [H| ->]; assumption].
  - rewrite in_app_iff. simpl. intuition congruence.
Qed.

Lemma NoDup_Set_add (set : list A) (b : A) : NoDup set -> NoDup (Set_add same set b).
Proof.
  intros N. unfold Set_add. destruct (existsb (same b) set) eqn:E; [exact N|].
  apply NoDup_app; [exact N | repeat constructor; intros [] |].
  intros x Hx [<-|[]].
  apply existsb_same in Hx. congruence.
Qed.

Lemma In_fold_Set_add (l : list A) :
  forall (set : list A) (a : A),
    In a (fold_left (Set_add same) l set) <-> In a set \/ In a l.
Proof.
  induction l as [|b l IH]; intros set a; simpl.
  - tauto.
  - rewrite IH, In_Set_add. intuition.
Qed.

Lemma NoDup_fold_Set_add (l : list A) :
  forall set : list A, NoDup set -> NoDup (fold_left (Set_add same) l set).
Proof.
  induction l as [|b l IH]; intros set N; simpl; [exact N|].
  apply IH. now apply NoDup_Set_add.
Qed.

End SetFacts.

Lemma sameObject_spec (x y : Annotation) : sameObject x y = true <-> x = y.
Proof.
  unfold sameObject. destruct (Annotation_eq_dec x y); split; congruence.
Qed.

Lemma In_mergeAnnotations (annotations1 annotations2 : list Annotation) (a : Annotation) :
  In a (mergeAnnotations annotations1 annotations2)
  <-> In a annotations1 \/ In a annotations2.
Proof.
  unfold mergeAnnotations, new_Set.
  rewrite !(In_fold_Set_add _ _ sameObject_spec). simpl. tauto.
Qed.

Lemma NoDup_mergeAnnotations (annotations1 annotations2 : list Annotation) :
  NoDup (mergeAnnotations annotations1 annotations2).
Proof.
  unfold mergeAnnotations, new_Set.
  repeat apply (NoDup_fold_Set_add _ _ sameObject_spec). constructor.
Qed.

Lemma existsb_mergeAnnotations (related : Annotation -> bool)
  (annotations1 annotations2 : list Annotation) :
  existsb related (mergeAnnotations annotations1 annotations2)
  = existsb related annotations1 || existsb related annotations2.
Proof.
  apply eq_true_iff_eq. rewrite orb_true_iff, !existsb_exists. split.
  - intros (x & Hx & R). apply In_mergeAnnotations in Hx.
    destruct Hx as [Hx|Hx]; [left | right]; exists x; auto.
  - intros [(x & Hx & R)|(x & Hx & R)]; exists x; split; try assumption;
      apply In_mergeAnnotations; auto.
Qed.

(** C8.  [mergeAnnotations(A, B)] is the union of [A] and [B] as sets
    under [equals], the structural equality of annotations (equal start,
    equal end, equal label fields): an annotation equals one of the result
    exactly when it equals one of [A] or one of [B], whichever of the two
    is asked.  In particular [mergeAnnotations(A, A)] is [A] as a set, and
    [mergeAnnotations(A, B)] is [mergeAnnotations(B, A)] as sets.  The
    same holds by object: the result holds exactly the objects of [A] and
    of [B], none twice, in the order of [A] followed by [B]; and so it
    holds under every way of comparing annotations, among them equality
    of start, end and label. *)
Theorem mergeAnnotations_union :
  forall A B : list Annotation,
    (forall a, existsb (equals a) (mergeAnnotations A B)
               = existsb (equals a) A || existsb (equals a) B)
    /\ (forall a, existsb (fun x => equals x a) (mergeAnnotations A B)
                  = existsb (fun x => equals x a) A || existsb (fun x => equals x a) B)
    /\ (forall a, existsb (equals a) (mergeAnnotations A A) = existsb (equals a) A)
    /\ (forall a, existsb (fun x => equals x a) (mergeAnnotations A A)
                  = existsb (fun x => equals x a) A)
    /\ (forall a, existsb (equals a) (mergeAnnotations A B)
                  = existsb (equals a) (mergeAnnotations B A))
    /\ (forall a, existsb (fun x => equals x a) (mergeAnnotations A B)
                  = existsb (fun x => equals x a) (mergeAnnotations B A))
    /\ mergeAnnotations A B = new_Set sameObject (A ++ B)
    /\ NoDup (mergeAnnotations A B)
    /\ (forall a, In a (mergeAnnotations A B) <-> In a A \/ In a B)
    /\ (forall a, In a (mergeAnnotations A A) <-> In a A)
    /\ (forall a, In a (mergeAnnotations A B) <-> In a (mergeAnnotations B A))
    /\ (forall (same : Annotation -> Annotation -> Prop) a,
          (exists x, In x (mergeAnnotations A B) /\ same a x)
          <-> (exists x, (In x A \/ In x B) /\ same a x))
    /\ (forall a,
          (exists x, In x (mergeAnnotations A B)
                     /\ a_start x = a_start a /\ a_end x = a_end a
                     /\ label x = label a)
          <-> (exists x, (In x A \/ In x B)
                         /\ a_start x = a_start a /\ a_end x = a_end a
                         /\ label x = label a)).
Proof.
  intros A B.
  assert (H1 : forall a, In a (mergeAnnotations A A) <-> In a A)
    by (intros a; rewrite In_mergeAnnotations; tauto).
  assert (H2 : forall a, In a (mergeAnnotations A B) <-> In a (mergeAnnotations B A))
    by (intros a; rewrite !In_mergeAnnotations; tauto).
  split; [intros a; apply existsb_mergeAnnotations|].
  split; [intros a; apply existsb_mergeAnnotations|].
  split; [intros a; rewrite existsb_mergeAnnotations; apply orb_diag|].
  split; [intros a; rewrite existsb_mergeAnnotations; apply orb_diag|].
  split; [intros a; rewrite !existsb_mergeAnnotations; apply orb_comm|].
  split; [intros a; rewrite !existsb_mergeAnnotations; apply orb_comm|].
  split; [unfold mergeAnnotations, new_Set; now rewrite fold_left_app|].
  split; [apply NoDup_mergeAnnotations|].
  split; [apply In_mergeAnnotations|].
  split; [exact H1|]. split; [exact H2|]. split.
  - intros same a. split; intros (x & Hx & S); exists x; split; try exact S;
      now apply In_mergeAnnotations.
  - intros a. split; intros (x & Hx & S); exists x; split; try exact S;
      now apply In_mergeAnnotations.
Qed.

(** The union is one of sets up to [equals], not of arrays: two different
    objects with the same label, start and end are both in the result. *)
Lemma mergeAnnotations_two_equal_objects :
  equals (new_Annotation 1 [("tag"%string, LStr "help")] 0 (Int 1))
         (new_Annotation 2 [("tag"%string, LStr "help")] 0 (Int 1)) = true
  /\ mergeAnnotations [new_Annotation 1 [("tag"%string, LStr "help")] 0 (Int 1)]
                      [new_Annotation 2 [("tag"%string, LStr "help")] 0 (Int 1)]
     = [new_Annotation 1 [("tag"%string, LStr "help")] 0 (Int 1);
        new_Annotation 2 [("tag"%string, LStr "help")] 0 (Int 1)].
Proof. split; vm_compute; reflexivity. Qed.

(** ** The invariant is kept by the combinators *)

Section Invariant.
Context {CommandContext : Type}.

Implicit Types (successes : list (Success CommandContext)).
Implicit Types (parser : Parser CommandContext).

Lemma furthestSuccess_cases successes :
  (successes = [] /\ furthestSuccess successes = NegInfinity)
  \/ (exists m, furthestSuccess successes = Int m
                /\ Forall (fun s => s_end s <= m) successes
                /\ Exists (fun s => s_end s = m) successes).
Proof.
  induction successes as [|s l IH]; [left; split; reflexivity|].
  right. unfold furthestSuccess in *. simpl.
  destruct IH as [[-> E]|(m & E & F & X)].
  - simpl. exists (s_end s). repeat split.
    + constructor; [lia | constructor].
    + now left.
  - rewrite E. simpl. exists (Z.max (s_end s) m). repeat split.
    + constructor; [lia|]. eapply Forall_impl; [|exact F]. simpl. intros; lia.
    + destruct (Z.max_spec (s_end s) m) as [[_ ->]|[_ ->]]; [now right | now left].
Qed.

Lemma furthestSuccess_leb successes (e : Z) :
  num_leb (furthestSuccess successes) (Int e) = true
  <-> Forall (fun s => s_end s <= e) successes.
Proof.
  destruct (furthestSuccess_cases successes) as [[-> E]|(m & E & F & X)];
    rewrite E; simpl.
  - split; [constructor | reflexivity].
  - rewrite Z.leb_le. split.
    + intros H. eapply Forall_impl; [|exact F]. simpl. intros; lia.
    + intros H. apply Exists_exists in X. destruct X as (s & Hs & <-).
      rewrite Forall_forall in H. now apply H.
Qed.

Lemma furthestSuccess_not_leb successes (x : number) :
  num_leb (furthestSuccess successes) x = false -> successes <> [].
Proof. intros H ->. discriminate H. Qed.

Lemma furthestSuccess_app successes1 successes2 :
  furthestSuccess (successes1 ++ successes2)
  = num_max (furthestSuccess successes1) (furthestSuccess successes2).
Proof.
  unfold furthestSuccess. induction successes1 as [|s l IH]; simpl.
  - now destruct (fold_right _ _ _).
  - rewrite IH.
    destruct (fold_right num_max NegInfinity (map (fun s => Int (s_end s)) l)),
             (fold_right num_max NegInfinity (map (fun s => Int (s_end s)) successes2));
      simpl; try reflexivity.
    now rewrite Z.max_assoc.
Qed.

Lemma mergeFailures_None (f1 f2 : option Failure) :
  mergeFailures f1 f2 = None <-> f1 = None /\ f2 = None.
Proof.
  destruct f1 as [x1|], f2 as [x2|]; simpl; try (split; [discriminate|intros [? ?]; discriminate]).
  - destruct (num_eqb _ _); [|destruct (num_ltb _ _)];
      split; try discriminate; intros [? ?]; discriminate.
  - tauto.
Qed.

(** The merged failure ends where one of the two ends, and no earlier than
    either. *)
Lemma mergeFailures_end (f1 f2 : option Failure) (f : Failure) :
  mergeFailures f1 f2 = Some f ->
  (exists x, (f1 = Some x \/ f2 = Some x) /\ f_end f = f_end x)
  /\ (forall x, f1 = Some x \/ f2 = Some x -> num_leb (f_end x) (f_end f) = true).
Proof.
  assert (R : forall a, num_leb a a = true)
    by (intros [|z]; simpl; [reflexivity | apply Z.leb_refl]).
  destruct f1 as [x1|], f2 as [x2|]; simpl; intros H; try discriminate.
  - destruct (num_eqb (f_end x1) (f_end x2)) eqn:E.
    + injection H as <-. simpl. split.
      * exists x1. split; [now left | reflexivity].
      * intros x [[= <-]|[= <-]]; [apply R|].
        destruct (f_end x1), (f_end x2); simpl in *; try discriminate; try reflexivity.
        apply Z.eqb_eq in E. apply Z.leb_le. lia.
    + destruct (num_ltb (f_end x1) (f_end x2)) eqn:L; injection H as <-; split.
      * exists x2. split; [now right | reflexivity].
      * intros x [[= <-]|[= <-]]; [|apply R].
        destruct (f_end x1), (f_end x2); simpl in *; try discriminate; try reflexivity.
        apply Z.ltb_lt in L. apply Z.leb_le. lia.
      * exists x1. split; [now left | reflexivity].
      * intros x [[= <-]|[= <-]]; [apply R|].
        destruct (f_end x1), (f_end x2); simpl in *; try discriminate; try reflexivity.
        apply Z.ltb_ge in L. apply Z.eqb_neq in E. apply Z.leb_le. lia.
  - injection H as ->. split.
    + exists f. split; [now left | reflexivity].
    + intros x [[= <-]|[=]]. apply R.
  - injection H as ->. split.
    + exists f. split; [now right | reflexivity].
    + intros x [[=]|[= <-]]. apply R.
Qed.

Lemma mergeFailures_from (start : Z) (f1 f2 : option Failure) :
  failureFrom start f1 -> failureFrom start f2 ->
  failureFrom start (mergeFailures f1 f2).
Proof.
  intros H1 H2. destruct (mergeFailures f1 f2) as [f|] eqn:E; [|exact I].
  destruct (mergeFailures_end _ _ _ E) as [(x & [->| ->] & Ex) _];
    simpl in *; rewrite Ex; assumption.
Qed.

Lemma notBefore_from (start : Z) (furthest : number) (f : option Failure) :
  failureFrom start f -> failureFrom start (notBefore furthest f).
Proof.
  destruct f as [x|]; simpl; [|trivial].
  destruct (num_leb furthest (f_end x)); simpl; trivial.
Qed.

Lemma notBefore_Some (furthest : number) (f : option Failure) (x : Failure) :
  notBefore furthest f = Some x -> f = Some x /\ num_leb furthest (f_end x) = true.
Proof.
  destruct f as [y|]; simpl; [|discriminate].
  destruct (num_leb furthest (f_end y)) eqn:E; [|discriminate].
  intros [= <-]. split; [reflexivity | exact E].
Qed.

Lemma notBefore_None (furthest : number) (f : option Failure) :
  notBefore furthest f = None ->
  f = None \/ exists x, f = Some x /\ num_leb furthest (f_end x) = false.
Proof.
  destruct f as [y|]; simpl; [|now left].
  destruct (num_leb furthest (f_end y)) eqn:E; [discriminate|].
  intros _. right. now exists y.
Qed.

Lemma endsBetween_failureFrom (start : Z) (r : Result CommandContext) :
  endsBetween start r -> failureFrom start (snd r).
Proof.
  intros [_ H]. unfold failureFrom. destruct (snd r); [|exact I].
  destruct H as (e & E & L & _). now exists e.
Qed.

(** The invariant implies the two conditions that [parseCheckInvariants]
    asserts. *)
Lemma endsBetween_invariantsHold (start : Z) (r : Result CommandContext) :
  endsBetween start r -> invariantsHold r = true.
Proof.
  destruct r as [successes [f|]]; intros [_ H]; simpl in *.
  - destruct H as (e & -> & _ & F). now apply furthestSuccess_leb.
  - destruct successes; [congruence | reflexivity].
Qed.

Lemma categorize_filter {A : Type} (array : list A) (predicate : A -> bool) :
  categorize array predicate
  = (filter predicate array, filter (fun x => negb (predicate x)) array).
Proof.
  unfold categorize.
  assert (G : forall l positives negatives,
             fold_left (fun (acc : list A * list A) x =>
                          let (positives, negatives) := acc in
                          if predicate x then (positives ++ [x], negatives)
                          else (positives, negatives ++ [x]))
                       l (positives, negatives)
             = (positives ++ filter predicate l,
                negatives ++ filter (fun x => negb (predicate x)) l)).
  { induction l as [|x l IH]; intros positives negatives; simpl.
    - now rewrite !app_nil_r.
    - destruct (predicate x); simpl; rewrite IH, <- app_assoc; reflexivity. }
  apply (G array [] []).
Qed.

Lemma Forall_filter {A : Type} (P : A -> Prop) (f : A -> bool) (l : list A) :
  Forall P l -> Forall P (filter f l).
Proof.
  rewrite !Forall_forall. intros H x Hx. apply filter_In in Hx. now apply H.
Qed.

Ltac run_parser H :=
  match type of H with
  | context [match ?p ?fuel ?input ?success with _ => _ end] =>
      let E := fresh "E" in
      let successes := fresh "successes" in
      let failure := fresh "failure" in
      destruct (p fuel input success) as [[successes failure]|] eqn:E;
      [|discriminate H]
  end.

Lemma parseConstant_keeps (constant : string) (witness : option Value) :
  keepsInvariant (@parseConstant CommandContext constant witness).
Proof.
  intros fuel input success r H0 H.
  rewrite parseConstant_unfold in H by assumption.
  injection H as <-.
  destruct (_ =? _); split; simpl.
  - constructor; [simpl; unfold strlen; lia | constructor].
  - discriminate.
  - constructor.
  - eexists. split; [reflexivity|]. split; [lia | constructor].
Qed.

Lemma parseEmpty_keeps (witness : option Value) :
  keepsInvariant (@parseEmpty CommandContext witness).
Proof.
  intros fuel input success r H0 H. injection H as <-. split; simpl.
  - constructor; [simpl; lia | constructor].
  - discriminate.
Qed.

Lemma parseFail_keeps : keepsInvariant (@parseFail CommandContext).
Proof.
  intros fuel input success r H0 H. injection H as <-. split; simpl.
  - constructor.
  - eexists. split; [reflexivity|]. split; [lia | constructor].
Qed.

Lemma parseRestrictedRegexp_keeps (makeWitness : MatchResult -> Value)
  (regexp : string -> option MatchResult) :
  keepsInvariant (@parseRestrictedRegexp CommandContext makeWitness regexp).
Proof.
  intros fuel input success r H0 H. unfold parseRestrictedRegexp in H.
  assert (F : endsBetween (s_end success)
                (@nil (Success CommandContext),
                 Some (new_Failure [] [] (Int (s_end success)) (Some true)))).
  { split; simpl; [constructor|].
    eexists. split; [reflexivity|]. split; [lia | constructor]. }
  destruct (regexp _) as [result|]; [|injection H as <-; exact F].
  destruct (index result =? 0); injection H as <-; [|exact F].
  split; simpl.
  - constructor; [simpl; unfold strlen; lia | constructor].
  - discriminate.
Qed.

(** The failure that [parseAlternatives] and [parseWithFallback] return
    for the successes [successes]. *)
Lemma kept_failure_ok (start : Z) successes (failure : option Failure) :
  Forall (fun s => start <= s_end s) successes ->
  failureFrom start failure ->
  (forall x, failure = Some x -> num_leb (furthestSuccess successes) (f_end x) = true) ->
  (failure = None -> successes <> []) ->
  endsBetween start (successes, failure).
Proof.
  intros F H L N. split; [exact F|]. simpl.
  destruct failure as [x|]; [|now apply N].
  destruct H as (e & E & Le). exists e. split; [exact E|]. split; [exact Le|].
  apply furthestSuccess_leb. rewrite <- E. now apply L.
Qed.

Lemma num_leb_trans (a b c : number) :
  num_leb a b = true -> num_leb b c = true -> num_leb a c = true.
Proof.
  destruct a, b, c; simpl; try congruence.
  rewrite !Z.leb_le. lia.
Qed.

Lemma parseAlternatives_keeps parser1 parser2 :
  keepsInvariant parser1 -> keepsInvariant parser2 ->
  keepsInvariant (parseAlternatives parser1 parser2).
Proof.
  intros K1 K2 fuel input success r H0 H. unfold parseAlternatives in H.
  destruct (parser1 fuel input success) as [[s1 f1]|] eqn:E1; [|discriminate H].
  destruct (parser2 fuel input success) as [[s2 f2]|] eqn:E2; [|discriminate H].
  injection H as <-.
  destruct (K1 _ _ _ _ H0 E1) as [F1 I1].
  destruct (K2 _ _ _ _ H0 E2) as [F2 I2].
  pose proof (endsBetween_failureFrom _ _ (K1 _ _ _ _ H0 E1)) as A1.
  pose proof (endsBetween_failureFrom _ _ (K2 _ _ _ _ H0 E2)) as A2.
  simpl in *.
  apply kept_failure_ok.
  - apply Forall_app. now split.
  - apply mergeFailures_from; now apply notBefore_from.
  - intros x Hx. destruct (mergeFailures_end _ _ _ Hx) as [(y & Hy & ->) _].
    destruct Hy as [Hy|Hy]; now apply notBefore_Some in Hy.
  - intros N. apply mergeFailures_None in N. destruct N as [N1 _].
    apply notBefore_None in N1. destruct N1 as [->|(x & _ & L)].
    + intros E. apply app_eq_nil in E. tauto.
    + eapply furthestSuccess_not_leb, L.
Qed.

Lemma parseWithFallback_keeps parser fallbackParser :
  keepsInvariant parser -> keepsInvariant fallbackParser ->
  keepsInvariant (parseWithFallback parser fallbackParser).
Proof.
  intros K1 K2 fuel input success r H0 H. unfold parseWithFallback in H.
  destruct (parser fuel input success) as [[s1 f1]|] eqn:E1; [|discriminate H].
  destruct (fallbackParser fuel input success) as [[s2 f2]|] eqn:E2; [|discriminate H].
  injection H as <-.
  destruct (K1 _ _ _ _ H0 E1) as [F1 I1].
  destruct (K2 _ _ _ _ H0 E2) as [F2 I2].
  pose proof (endsBetween_failureFrom _ _ (K1 _ _ _ _ H0 E1)) as A1.
  simpl in *.
  apply kept_failure_ok.
  - apply Forall_app. now split.
  - now apply notBefore_from.
  - intros x Hx. now apply notBefore_Some in Hx.
  - intros N. apply notBefore_None in N. destruct N as [->|(x & _ & L)].
    + intros E. apply app_eq_nil in E. tauto.
    + eapply furthestSuccess_not_leb, L.
Qed.

Lemma parseChoice_keeps (parsers : list (Parser CommandContext)) :
  (forall p, In p parsers -> keepsInvariant p) ->
  keepsInvariant (parseChoice parsers).
Proof.
  unfold parseChoice.
  assert (G : forall seed, keepsInvariant seed ->
                           (forall p, In p parsers -> keepsInvariant p) ->
                           keepsInvariant (fold_left parseAlternatives parsers seed)).
  { induction parsers as [|p l IH]; intros seed Ks K; simpl; [exact Ks|].
    apply IH.
    - apply parseAlternatives_keeps; [exact Ks | apply K; now left].
    - intros q Hq. apply K. now right. }
  intros K. apply G; [apply parseFail_keeps | exact K].
Qed.

(** *** parseChain *)

Section Chain.
Variable mergeWitnesses : Value -> Value -> Value.
Variable chain : Success CommandContext -> Parser CommandContext.
Variable fuel : nat.
Variable input : string.
Variable start : Z.
Hypothesis start_nonneg : 0 <= start.
Hypothesis chain_keeps : forall s, keepsInvariant (chain s).

Lemma map_witness_ends (witness1 : Value) successes (P : Z -> Prop) :
  Forall (fun s => P (s_end s)) successes ->
  Forall (fun s => P (s_end s))
    (map (fun s => new_Success (s_annotations s) (s_context s) (s_end s)
                     (mergeWitnesses witness1 (s_witness s))) successes).
Proof.
  intros H. apply Forall_map. eapply Forall_impl; [|exact H]. now simpl.
Qed.

Lemma failureFrom_prepend (annotations : list Annotation) (f : option Failure) (from : Z) :
  failureFrom from f -> from >= start ->
  failureFrom start (option_map (prependAnnotations annotations) f).
Proof.
  destruct f as [x|]; simpl; [|trivial].
  intros (e & E & L) G. exists e. split; [exact E | lia].
Qed.

Lemma chainLoop_state (successes1 : list (Success CommandContext)) :
  forall failure furthest (successes : list (list (Success CommandContext)))
         failure' furthest' (successes' : list (list (Success CommandContext))),
    Forall (fun s1 => start <= s_end s1) successes1 ->
    loopState start failure furthest successes ->
    chainLoop mergeWitnesses chain fuel input successes1 failure furthest successes
    = Some (failure', furthest', successes') ->
    loopState start failure' furthest' successes'.
Proof.
  induction successes1 as [|s1 rest IH];
    intros failure furthest successes failure' furthest' successes' F J H.
  - injection H as <- <- <-. exact J.
  - simpl in H.
    destruct (chain s1 fuel input s1) as [[s2 f2]|] eqn:E; [|discriminate H].
    inversion F as [|? ? F1 Frest]; subst.
    assert (K : endsBetween (s_end s1) (s2, f2))
      by (eapply chain_keeps; [lia | exact E]).
    pose proof (endsBetween_failureFrom _ _ K) as K3. simpl in K3.
    destruct K as [K1 K2]. simpl in K1, K2.
    eapply IH; [exact Frest | | exact H].
    destruct J as ((m & -> & M0 & Mle & Mex) & Jfrom & Jf).
    unfold loopState. rewrite concat_app. simpl. rewrite app_nil_r.
    set (s2' := map _ s2).
    assert (Fs2 : Forall (fun s => start <= s_end s) s2').
    { apply (map_witness_ends _ _ (fun e => start <= e)).
      eapply Forall_impl; [|exact K1]. simpl. intros; lia. }
    repeat split.
    + destruct (furthestSuccess_cases s2) as [[-> ->]|(m2 & -> & L2 & X2)].
      * exists m. simpl. rewrite app_nil_r. repeat split; assumption.
      * exists (Z.max m m2). simpl. repeat split; [lia | |].
        -- apply Forall_app. split.
           ++ eapply Forall_impl; [|exact Mle]. simpl. intros; lia.
           ++ apply (map_witness_ends _ _ (fun e => e <= Z.max m m2)).
              eapply Forall_impl; [|exact L2]. simpl. intros; lia.
        -- right. apply Exists_app.
           destruct (Z.max_spec m m2) as [[_ ->]|[G ->]].
           ++ right. apply Exists_exists in X2. destruct X2 as (s & Hs & Es).
              apply Exists_exists. eexists. split; [apply in_map, Hs | exact Es].
           ++ destruct Mex as [->|Mex]; [|now left].
              right. apply Exists_exists in X2. destruct X2 as (s & Hs & Es).
              apply Exists_exists. eexists. split; [apply in_map, Hs|]. simpl.
              rewrite Forall_forall in K1. specialize (K1 s Hs). simpl in K1. lia.
    + apply Forall_app. now split.
    + apply mergeFailures_from; [exact Jf|].
      eapply failureFrom_prepend; [exact K3 | lia].
Qed.

(** When the loop ends without a failure, it began without one and every
    continuation returned a success. *)
Lemma chainLoop_None (successes1 : list (Success CommandContext)) :
  forall failure furthest (successes : list (list (Success CommandContext)))
         furthest' (successes' : list (list (Success CommandContext))),
    Forall (fun s1 => start <= s_end s1) successes1 ->
    chainLoop mergeWitnesses chain fuel input successes1 failure furthest successes
    = Some (None, furthest', successes') ->
    failure = None
    /\ (List.concat successes <> [] \/ successes1 <> [] -> List.concat successes' <> []).
Proof.
  induction successes1 as [|s1 rest IH];
    intros failure furthest successes furthest' successes' F H.
  - injection H as -> <- <-. split; [reflexivity|]. intros [N|N]; congruence.
  - simpl in H.
    destruct (chain s1 fuel input s1) as [[s2 f2]|] eqn:E; [|discriminate H].
    inversion F as [|? ? F1 Frest]; subst.
    destruct (IH _ _ _ _ _ Frest H) as [N C].
    apply mergeFailures_None in N. destruct N as [-> N2].
    split; [reflexivity|]. intros _. apply C. left.
    destruct f2 as [x|]; [discriminate N2|].
    assert (K : endsBetween (s_end s1) (s2, None))
      by (eapply chain_keeps; [lia | exact E]).
    destruct K as [_ K]. simpl in K.
    rewrite concat_app. simpl. rewrite app_nil_r.
    intros A. apply app_eq_nil in A. destruct A as [_ A].
    apply map_eq_nil in A. contradiction.
Qed.

(** When every continuation returns a failure, the failure of the loop
    ends no earlier than any success collected. *)
Hypothesis chain_fails : forall s, alwaysFails (chain s).

Lemma chainLoop_covered (successes1 : list (Success CommandContext)) :
  forall failure furthest (successes : list (list (Success CommandContext)))
         failure' furthest' (successes' : list (list (Success CommandContext))),
    Forall (fun s1 => start <= s_end s1) successes1 ->
    failureFrom start failure ->
    covered failure successes ->
    chainLoop mergeWitnesses chain fuel input successes1 failure furthest successes
    = Some (failure', furthest', successes') ->
    covered failure' successes'
    /\ (failure <> None \/ successes1 <> [] -> failure' <> None).
Proof.
  induction successes1 as [|s1 rest IH];
    intros failure furthest successes failure' furthest' successes' F A C H.
  - injection H as <- <- <-. split; [exact C|]. intros [N|N]; congruence.
  - simpl in H.
    destruct (chain s1 fuel input s1) as [[s2 f2]|] eqn:E; [|discriminate H].
    inversion F as [|? ? F1 Frest]; subst.
    assert (K : endsBetween (s_end s1) (s2, f2))
      by (eapply chain_keeps; [lia | exact E]).
    assert (N2 : f2 <> None)
      by (eapply (chain_fails s1 fuel input s1 (s2, f2)); [lia | exact E]).
    destruct f2 as [x2|]; [clear N2|congruence].
    destruct K as [K1 (e2 & E2 & L2 & K2)]. simpl in K1, K2, E2.
    set (f2' := option_map (prependAnnotations (s_annotations s1)) (Some x2)) in H.
    assert (A' : failureFrom start (mergeFailures failure f2')).
    { apply mergeFailures_from; [exact A|]. exists e2. split; [exact E2 | lia]. }
    destruct (mergeFailures failure f2') as [y|] eqn:M;
      [|apply mergeFailures_None in M; destruct M; discriminate].
    destruct (mergeFailures_end _ _ _ M) as [_ G].
    assert (A'' : failureFrom start (Some y)) by exact A'.
    destruct A' as (ey & Ey & Ly).
    assert (Cnew : covered (Some y)
                     (successes ++
                      [map (fun s => new_Success (s_annotations s) (s_context s)
                                       (s_end s)
                                       (mergeWitnesses (s_witness s1) (s_witness s)))
                           s2])).
    { unfold covered. rewrite concat_app. simpl. rewrite app_nil_r.
      apply Forall_app. split.
      - eapply Forall_impl; [|exact C]. simpl.
        intros s (x & e & -> & Ex & Le).
        specialize (G x (or_introl eq_refl)). rewrite Ex, Ey in G.
        apply Z.leb_le in G. exists y, ey. repeat split; [exact Ey | lia].
      - apply Forall_map. eapply Forall_impl; [|exact K2]. simpl.
        intros s Le.
        specialize (G _ (or_intror eq_refl)). simpl in G. rewrite E2, Ey in G.
        apply Z.leb_le in G. exists y, ey. repeat split; [exact Ey | lia]. }
    destruct (IH _ _ _ _ _ _ Frest A'' Cnew H) as [C' N'].
    split; [exact C'|]. intros _. apply N'. left. discriminate.
Qed.

End Chain.

Lemma parseChain_keeps (mergeWitnesses : Value -> Value -> Value) parser1
  (chain : Success CommandContext -> Parser CommandContext) :
  keepsInvariant parser1 -> (forall s, keepsInvariant (chain s)) ->
  keepsInvariant (parseChain mergeWitnesses parser1 chain).
Proof.
  intros K1 K2 fuel input success r H0 H. unfold parseChain in H.
  destruct (parser1 fuel input success) as [[successes1 failure1]|] eqn:E1;
    [|discriminate H].
  destruct (chainLoop _ _ _ _ _ _ _ _) as [[[failure furthest] successes]|] eqn:E2;
    [|discriminate H].
  injection H as <-.
  pose proof (K1 _ _ _ _ H0 E1) as W.
  pose proof (endsBetween_failureFrom _ _ W) as A1.
  destruct W as [F1 I1]. simpl in F1, I1, A1.
  assert (J0 : @loopState CommandContext (s_end success) failure1 (Int 0) []).
  { repeat split; [|constructor|exact A1].
    exists 0. repeat split; [lia | constructor | now left]. }
  destruct (chainLoop_state mergeWitnesses chain fuel input (s_end success) H0 K2
              _ _ _ _ _ _ _ F1 J0 E2)
    as ((m & -> & M0 & Mle & Mex) & Jfrom & Jf).
  apply kept_failure_ok.
  - exact Jfrom.
  - now apply notBefore_from.
  - intros x Hx. apply notBefore_Some in Hx. destruct Hx as [_ L].
    eapply num_leb_trans; [|exact L]. now apply furthestSuccess_leb.
  - intros N. apply notBefore_None in N. destruct N as [->|(x & -> & L)].
    + destruct (chainLoop_None mergeWitnesses chain fuel input (s_end success) H0 K2
                  _ _ _ _ _ _ F1 E2) as [-> C].
      apply C. now right.
    + destruct Jf as (e & Ex & Le). rewrite Ex in L. simpl in L.
      apply Z.leb_gt in L.
      destruct Mex as [->|Mex]; [lia|].
      intros N. rewrite N in Mex. inversion Mex.
Qed.

(** With continuations that always return a failure, so does the chain. *)
Lemma parseChain_fails (mergeWitnesses : Value -> Value -> Value) parser1
  (chain : Success CommandContext -> Parser CommandContext) :
  keepsInvariant parser1 ->
  (forall s, keepsInvariant (chain s)) -> (forall s, alwaysFails (chain s)) ->
  alwaysFails (parseChain mergeWitnesses parser1 chain).
Proof.
  intros K1 K2 A2 fuel input success r H0 H. unfold parseChain in H.
  destruct (parser1 fuel input success) as [[successes1 failure1]|] eqn:E1;
    [|discriminate H].
  destruct (chainLoop _ _ _ _ _ _ _ _) as [[[failure furthest] successes]|] eqn:E2;
    [|discriminate H].
  injection H as <-. simpl.
  pose proof (K1 _ _ _ _ H0 E1) as W.
  pose proof (endsBetween_failureFrom _ _ W) as A1.
  destruct W as [F1 I1]. simpl in F1, I1, A1.
  assert (J0 : @loopState CommandContext (s_end success) failure1 (Int 0) []).
  { repeat split; [|constructor|exact A1].
    exists 0. repeat split; [lia | constructor | now left]. }
  destruct (chainLoop_state mergeWitnesses chain fuel input (s_end success) H0 K2
              _ _ _ _ _ _ _ F1 J0 E2)
    as ((m & -> & M0 & Mle & Mex) & Jfrom & Jf).
  assert (C0 : @covered CommandContext failure1 []) by constructor.
  destruct (chainLoop_covered mergeWitnesses chain fuel input (s_end success) H0 K2 A2
              _ _ _ _ _ _ _ F1 A1 C0 E2) as [C N].
  assert (Nf : failure <> None).
  { apply N. destruct failure1 as [x|]; [left; discriminate | right].
    exact I1. }
  destruct failure as [x|]; [clear Nf|congruence].
  destruct Jf as (e & Ex & Le). simpl. rewrite Ex. simpl.
  assert (G : m <= e).
  { destruct Mex as [->|Mex]; [lia|].
    apply Exists_exists in Mex. destruct Mex as (s & Hs & <-).
    unfold covered in C. rewrite Forall_forall in C.
    destruct (C s Hs) as (x' & e' & [= <-] & Ex' & L').
    rewrite Ex in Ex'. injection Ex' as <-. exact L'. }
  apply Z.leb_le in G. rewrite G. discriminate.
Qed.

Lemma parseThen_keeps (mergeWitnesses : Value -> Value -> Value) parser1 parser2 :
  keepsInvariant parser1 -> keepsInvariant parser2 ->
  keepsInvariant (parseThen mergeWitnesses parser1 parser2).
Proof. intros K1 K2. apply parseChain_keeps; [exact K1 | intros _; exact K2]. Qed.

Lemma parseTransform_keeps parser (transform : Value -> Value) :
  keepsInvariant parser -> keepsInvariant (parseTransform parser transform).
Proof.
  intros K fuel input success r H0 H. unfold parseTransform in H.
  run_parser H. injection H as <-.
  destruct (K _ _ _ _ H0 E) as [F I]. simpl in F, I.
  split; simpl.
  - apply Forall_map. exact F.
  - destruct failure as [x|].
    + destruct I as (e & Ee & Le & Fe). exists e. repeat split; try assumption.
      apply Forall_map. exact Fe.
    + intros N. apply map_eq_nil in N. contradiction.
Qed.

Lemma parseTransform_fails parser (transform : Value -> Value) :
  alwaysFails parser -> alwaysFails (parseTransform parser transform).
Proof.
  intros A fuel input success r H0 H. unfold parseTransform in H.
  run_parser H. injection H as <-. exact (A _ _ _ _ H0 E).
Qed.

Lemma parseSequence_keeps (mergeWitnesses : list Value -> Value)
  (parsers : list (Parser CommandContext)) :
  (forall p, In p parsers -> keepsInvariant p) ->
  keepsInvariant (parseSequence mergeWitnesses parsers).
Proof.
  intros K.
  assert (G : forall (l : list (Parser CommandContext)) seed,
             keepsInvariant seed -> (forall p, In p l -> keepsInvariant p) ->
             keepsInvariant
               (fold_left (fun p1 p2 =>
                             parseThen (fun w1 w2 => VArr (w2 :: spread w1)) p1 p2)
                          l seed)).
  { induction l as [|p l IH]; intros seed Ks Kl; simpl; [exact Ks|].
    apply IH.
    - apply parseThen_keeps; [exact Ks | apply Kl; now left].
    - intros q Hq. apply Kl. now right. }
  specialize (G parsers _ (parseEmpty_keeps (Some (VArr []))) K).
  intros fuel input success r H0 H. unfold parseSequence in H.
  run_parser H. injection H as <-.
  destruct (G _ _ _ _ H0 E) as [F I]. simpl in F, I.
  split; simpl.
  - apply Forall_map. exact F.
  - destruct failure as [x|].
    + destruct I as (e & Ee & Le & Fe). exists e. repeat split; try assumption.
      apply Forall_map. exact Fe.
    + intros N. apply map_eq_nil in N. contradiction.
Qed.

Lemma parseFilter_keeps parser :
  keepsInvariant parser -> keepsInvariant (parseFilter parser).
Proof.
  intros K fuel input success r H0 H. unfold parseFilter in H.
  run_parser H. rewrite categorize_filter in H.
  destruct (K _ _ _ _ H0 E) as [F I]. simpl in F, I.
  set (positives := filter _ successes) in H.
  assert (Fp : Forall (fun s => s_end success <= s_end s) positives)
    by now apply Forall_filter.
  destruct positives as [|p ps] eqn:P, failure as [x|]; injection H as <-.
  - split; [constructor|]. simpl. destruct I as (e & Ee & Le & _).
    exists e. repeat split; [assumption.. | constructor].
  - split; [constructor|]. simpl.
    eexists; split; [reflexivity|]. split; [lia | constructor].
  - split; [exact Fp|]. simpl. destruct I as (e & Ee & Le & Fe).
    exists e. repeat split; try assumption.
    rewrite <- P. now apply Forall_filter.
  - split; [exact Fp|]. simpl. discriminate.
Qed.

(** *** Repetition *)

Lemma parseAlternatives_empty_fails (witness : option Value) parser2 :
  keepsInvariant parser2 -> alwaysFails parser2 ->
  alwaysFails (parseAlternatives (parseEmpty witness) parser2).
Proof.
  intros K A fuel input success r H0 H. unfold parseAlternatives in H.
  cbn [parseEmpty] in H.
  destruct (parser2 fuel input success) as [[s2 f2]|] eqn:E; [|discriminate H].
  injection H as <-. simpl.
  pose proof (A _ _ _ _ H0 E) as N. simpl in N.
  destruct f2 as [x|]; [clear N|congruence].
  destruct (K _ _ _ _ H0 E) as [F (e & Ee & Le & Fe)]. simpl in F, Ee, Le, Fe.
  cbn [notBefore mergeFailures].
  match goal with
  | |- context [num_leb ?a ?b] => assert (L : num_leb a b = true)
  end.
  { rewrite Ee. apply (furthestSuccess_leb (_ :: s2) e).
    constructor; [simpl; lia | exact Fe]. }
  rewrite L. discriminate.
Qed.

Lemma kleene_step parser (next : Parser CommandContext) :
  keepsInvariant parser -> keepsInvariant next -> alwaysFails next ->
  keepsInvariant
    (parseAlternatives (parseEmpty (Some (VArr [])))
                       (parseThen consWitness parser next))
  /\ alwaysFails
       (parseAlternatives (parseEmpty (Some (VArr [])))
                          (parseThen consWitness parser next)).
Proof.
  intros K Kn An. split.
  - apply parseAlternatives_keeps; [apply parseEmpty_keeps|].
    now apply parseThen_keeps.
  - apply parseAlternatives_empty_fails.
    + now apply parseThen_keeps.
    + apply parseChain_fails; [exact K | intros _; exact Kn | intros _; exact An].
Qed.

Lemma parseKleene_unfold parser (fuel : nat) (input : string)
  (success : Success CommandContext) :
  parseKleene parser fuel input success
  = parseAlternatives
      (parseEmpty (Some (VArr [])))
      (parseThen consWitness parser
                 (fun _ input success =>
                    match fuel with
                    | O => None
                    | S fuel' => parseKleene parser fuel' input success
                    end))
      fuel input success.
Proof. destruct fuel; reflexivity. Qed.

Lemma parseKleene_keeps parser :
  keepsInvariant parser ->
  keepsInvariant (parseKleene parser) /\ alwaysFails (parseKleene parser).
Proof.
  intros K.
  assert (G : forall fuel,
             keepsInvariant (fun _ => parseKleene parser fuel)
             /\ alwaysFails (fun _ => parseKleene parser fuel)).
  { induction fuel as [|fuel [IHk IHa]].
    - destruct (kleene_step parser (fun _ _ _ => None) K) as [Gk Ga];
        try (intros ? ? ? ? ? ?; discriminate).
      split; intros f input success r H0 H; rewrite parseKleene_unfold in H.
      + exact (Gk _ _ _ _ H0 H).
      + exact (Ga _ _ _ _ H0 H).
    - destruct (kleene_step parser (fun _ => parseKleene parser fuel) K IHk IHa)
        as [Gk Ga].
      split; intros f input success r H0 H; rewrite parseKleene_unfold in H.
      + exact (Gk _ _ _ _ H0 H).
      + exact (Ga _ _ _ _ H0 H). }
  split; intros fuel input success r H0 H.
  - exact (proj1 (G fuel) fuel _ _ _ H0 H).
  - exact (proj2 (G fuel) fuel _ _ _ H0 H).
Qed.

Lemma parseStar_keeps (mergeWitnesses : Value -> Value) parser :
  keepsInvariant parser -> keepsInvariant (parseStar mergeWitnesses parser).
Proof. intros K. apply parseTransform_keeps. now apply parseKleene_keeps. Qed.

Lemma parseStar_fails (mergeWitnesses : Value -> Value) parser :
  keepsInvariant parser -> alwaysFails (parseStar mergeWitnesses parser).
Proof. intros K. apply parseTransform_fails. now apply parseKleene_keeps. Qed.

Lemma parseRepeated_unfold (parseElement parseSeparator : Parser CommandContext)
  (fuel : nat) (input : string) (success : Success CommandContext) :
  parseRepeated parseElement parseSeparator fuel input success
  = parseThen
      consWitness
      parseElement
      (parseAlternatives
         (parseEmpty (Some (VArr [])))
         (parseThen (fun s w => w)
                    parseSeparator
                    (fun _ input success =>
                       match fuel with
                       | O => None
                       | S fuel' =>
                           parseRepeated parseElement parseSeparator fuel' input success
                       end)))
      fuel input success.
Proof. destruct fuel; reflexivity. Qed.

Lemma parseRepeated_keeps (parseElement parseSeparator : Parser CommandContext) :
  keepsInvariant parseElement -> keepsInvariant parseSeparator ->
  keepsInvariant (parseRepeated parseElement parseSeparator).
Proof.
  intros Ke Ks.
  assert (Step : forall next : Parser CommandContext,
             keepsInvariant next ->
             keepsInvariant
               (parseThen consWitness parseElement
                  (parseAlternatives (parseEmpty (Some (VArr [])))
                     (parseThen (fun s w => w) parseSeparator next)))).
  { intros next Kn. apply parseThen_keeps; [exact Ke|].
    apply parseAlternatives_keeps; [apply parseEmpty_keeps|].
    now apply parseThen_keeps. }
  assert (G : forall fuel,
             keepsInvariant (fun _ => parseRepeated parseElement parseSeparator fuel)).
  { induction fuel as [|fuel IH];
      intros f input success r H0 H; rewrite parseRepeated_unfold in H.
    - refine (Step (fun _ _ _ => None) _ _ _ _ _ H0 H).
      intros ? ? ? ? ? ?; discriminate.
    - exact (Step (fun _ => parseRepeated parseElement parseSeparator fuel) IH
               _ _ _ _ H0 H). }
  intros fuel input success r H0 H. exact (G fuel fuel _ _ _ H0 H).
Qed.

Lemma parseSeparated_keeps (mergeWitnesses : Value -> Value)
  (parseElement parseSeparator : Parser CommandContext) :
  keepsInvariant parseElement -> keepsInvariant parseSeparator ->
  keepsInvariant (parseSeparated mergeWitnesses parseElement parseSeparator).
Proof.
  intros Ke Ks. apply parseTransform_keeps.
  apply parseAlternatives_keeps; [apply parseEmpty_keeps|].
  now apply parseRepeated_keeps.
Qed.

(** [parseNonEmpty] keeps the invariant over a parser that always returns
    a failure, as [parseStar] does. *)
Lemma parseNonEmpty_keeps parser :
  keepsInvariant parser -> alwaysFails parser ->
  keepsInvariant (parseNonEmpty parser).
Proof.
  intros K A fuel input success r H0 H. unfold parseNonEmpty in H.
  run_parser H. rewrite categorize_filter in H.
  pose proof (A _ _ _ _ H0 E) as N. simpl in N.
  destruct failure as [x|]; [clear N|congruence].
  pose proof (K _ _ _ _ H0 E) as W.
  destruct (List.length _ =? 0)%nat; injection H as <-; [exact W|].
  destruct W as [F (e & Ee & Le & Fe)]. simpl in F, Ee, Le, Fe.
  split; simpl.
  - now apply Forall_filter.
  - exists e. repeat split; try assumption. now apply Forall_filter.
Qed.

Lemma parsePlus_keeps (mergeWitnesses : Value -> Value) parser :
  keepsInvariant parser -> keepsInvariant (parsePlus mergeWitnesses parser).
Proof.
  intros K. apply parseNonEmpty_keeps; [now apply parseStar_keeps | now apply parseStar_fails].
Qed.

(** *** Completions, filters and contexts *)

Lemma parseDelayed_keeps (makeParser : unit -> Parser CommandContext) :
  keepsInvariant (makeParser tt) -> keepsInvariant (parseDelayed makeParser).
Proof. intros K fuel input success r H0 H. exact (K _ _ _ _ H0 H). Qed.

Lemma parseOptional_keeps parser (witness : option Value) :
  keepsInvariant parser -> keepsInvariant (parseOptional parser witness).
Proof.
  intros K. apply parseChoice_keeps.
  intros p [<-|[<-|[]]]; [exact K | apply parseEmpty_keeps].
Qed.

Lemma parseWithCompletions_keeps
  (makeCompletions : CommandContext -> option Failure -> Z -> list string) parser :
  keepsInvariant parser ->
  keepsInvariant (parseWithCompletions makeCompletions parser).
Proof.
  intros K fuel input success r H0 H. unfold parseWithCompletions in H.
  run_parser H.
  destruct (K _ _ _ _ H0 E) as [F I]. simpl in F, I.
  destruct failure as [x|].
  - injection H as <-. split; [exact F|]. exact I.
  - destruct (List.length _ =? 0)%nat; injection H as <-; split; try exact F;
      simpl; [exact I|].
    destruct (furthestSuccess_cases successes) as [[N _]|(m & -> & Fm & Xm)];
      [contradiction|].
    exists m. repeat split; [|exact Fm].
    apply Exists_exists in Xm. destruct Xm as (s & Hs & <-).
    rewrite Forall_forall in F. now apply F.
Qed.

Lemma withoutCompletions_keeps parser :
  keepsInvariant parser -> keepsInvariant (withoutCompletions parser).
Proof. apply parseWithCompletions_keeps. Qed.

Lemma parsePause_keeps parser :
  keepsInvariant parser -> keepsInvariant (parsePause parser).
Proof.
  intros K fuel input success r H0 H. unfold parsePause in H.
  run_parser H. injection H as <-.
  destruct (K _ _ _ _ H0 E) as [F I]. simpl in F, I.
  split; [exact F|]. destruct failure as [x|]; exact I.
Qed.

Lemma parseMaybe_keeps parser :
  keepsInvariant parser -> keepsInvariant (parseMaybe parser).
Proof.
  intros K fuel input success r H0 H. unfold parseMaybe in H.
  run_parser H. rewrite categorize_filter in H.
  destruct (K _ _ _ _ H0 E) as [F I]. simpl in F, I.
  set (nonNulls := filter _ successes) in H.
  assert (Fn : Forall (fun s => s_end success <= s_end s) nonNulls)
    by now apply Forall_filter.
  destruct (0 <? List.length nonNulls)%nat eqn:L; injection H as <-.
  - split; [exact Fn|]. simpl. destruct failure as [x|].
    + destruct I as (e & Ee & Le & Fe). exists e. repeat split; try assumption.
      now apply Forall_filter.
    + intros N. rewrite N in L. discriminate L.
  - split; [constructor|]. simpl. destruct failure as [x|].
    + destruct I as (e & Ee & Le & Fe). exists e. repeat split; try assumption.
      constructor.
    + eexists. split; [reflexivity|]. split; [lia | constructor].
Qed.

Lemma parseContext_keeps (makeContext : Success CommandContext -> CommandContext) parser :
  keepsInvariant parser -> keepsInvariant (parseContext makeContext parser).
Proof.
  intros K fuel input success r H0 H. unfold parseContext in H.
  run_parser H. injection H as <-.
  destruct (K _ _ _ _ H0 E) as [F I]. simpl in F, I.
  split; simpl.
  - apply Forall_map. exact F.
  - destruct failure as [x|].
    + destruct I as (e & Ee & Le & Fe). exists e. repeat split; try assumption.
      apply Forall_map. exact Fe.
    + intros N. apply map_eq_nil in N. contradiction.
Qed.

Lemma parseCheckInvariants_keeps parser :
  keepsInvariant parser -> keepsInvariant (parseCheckInvariants parser).
Proof.
  intros K fuel input success r H0 H. unfold parseCheckInvariants in H.
  run_parser H. injection H as <-. exact (K _ _ _ _ H0 E).
Qed.

(** *** parseSubset *)

Lemma choose_unfold (parseSeparator : Parser CommandContext) (fuel : nat)
  (choices : list string) :
  choose parseSeparator fuel choices
  = parseChain
      consWitness
      (parseChoice (map (fun c => parseConstant c None) choices))
      (fun success =>
         let fewer := deleteWitness (new_Set String.eqb choices) (s_witness success) in
         if (List.length fewer =? 0)%nat
         then parseEmpty (Some (VArr []))
         else parseAlternatives
                (parseEmpty (Some (VArr [])))
                (parseThen (fun s f => f)
                           parseSeparator
                           (match fuel with
                            | O => fun _ _ _ => None
                            | S fuel' => choose parseSeparator fuel' fewer
                            end))).
Proof. destruct fuel; reflexivity. Qed.

Lemma choose_keeps (parseSeparator : Parser CommandContext) :
  keepsInvariant parseSeparator ->
  forall (fuel : nat) (choices : list string),
    keepsInvariant (choose parseSeparator fuel choices).
Proof.
  intros Ks.
  assert (Step : forall (next : list string -> Parser CommandContext) choices,
             (forall fewer, keepsInvariant (next fewer)) ->
             keepsInvariant
               (parseChain
                  consWitness
                  (parseChoice (map (fun c => parseConstant c None) choices))
                  (fun success =>
                     let fewer :=
                       deleteWitness (new_Set String.eqb choices) (s_witness success) in
                     if (List.length fewer =? 0)%nat
                     then parseEmpty (Some (VArr []))
                     else parseAlternatives
                            (parseEmpty (Some (VArr [])))
                            (parseThen (fun s f => f) parseSeparator (next fewer))))).
  { intros next choices Kn. apply parseChain_keeps.
    - apply parseChoice_keeps. intros p Hp. apply in_map_iff in Hp.
      destruct Hp as (c & <- & _). apply parseConstant_keeps.
    - intros s. cbv zeta. destruct (List.length _ =? 0)%nat; [apply parseEmpty_keeps|].
      apply parseAlternatives_keeps; [apply parseEmpty_keeps|].
      apply parseThen_keeps; [exact Ks | apply Kn]. }
  induction fuel as [|fuel IH]; intros choices; rewrite choose_unfold.
  - apply (Step (fun _ => fun _ _ _ => None)).
    intros fewer ? ? ? ? ? ?. discriminate.
  - apply (Step (fun fewer => choose parseSeparator fuel fewer)). exact IH.
Qed.

Lemma parseSubset_keeps (constants : Constants) (parseSeparator : Parser CommandContext) :
  keepsInvariant parseSeparator ->
  keepsInvariant (parseSubset constants parseSeparator).
Proof.
  intros Ks. unfold parseSubset.
  destruct (sizeIsZero constants); [apply parseEmpty_keeps|].
  intros fuel input success r H0 H.
  refine (parseAlternatives_keeps _ _ _ _ _ _ _ _ H0 H).
  - apply parseEmpty_keeps.
  - now apply choose_keeps.
Qed.

(** *** All combinators *)

(** Every parser built from the combinators, with [parseNonEmpty] only
    inside [parsePlus], keeps the invariant. *)
Lemma Combinator_keeps parser : Combinator parser -> keepsInvariant parser.
Proof.
  induction 1.
  - apply parseConstant_keeps.
  - apply parseEmpty_keeps.
  - apply parseFail_keeps.
  - apply parseRestrictedRegexp_keeps.
  - now apply parseAlternatives_keeps.
  - now apply parseWithFallback_keeps.
  - now apply parseChoice_keeps.
  - now apply parseChain_keeps.
  - now apply parseThen_keeps.
  - now apply parseSequence_keeps.
  - now apply parseTransform_keeps.
  - now apply parseFilter_keeps.
  - now apply parseStar_keeps.
  - now apply parseSeparated_keeps.
  - now apply parsePlus_keeps.
  - now apply parseDelayed_keeps.
  - now apply parseOptional_keeps.
  - now apply parseWithCompletions_keeps.
  - now apply parsePause_keeps.
  - now apply withoutCompletions_keeps.
  - now apply parseMaybe_keeps.
  - now apply parseContext_keeps.
  - now apply parseSubset_keeps.
  - now apply parseCheckInvariants_keeps.
Qed.

(** So what [parseCheckInvariants] asserts holds of whatever such a parser
    returns, from every position that is not negative. *)
Lemma Combinator_invariantsHold parser (fuel : nat) (input : string)
  (success : Success CommandContext) (r : Result CommandContext) :
  Combinator parser ->
  0 <= s_end success ->
  parser fuel input success = Some r ->
  invariantsHold r = true.
Proof.
  intros C H0 H. eapply endsBetween_invariantsHold.
  exact (Combinator_keeps parser C _ _ _ _ H0 H).
Qed.

End Invariant.

(** * Further properties of the source *)

(** ** How the combinators compose *)

Section Composition.
Context {CommandContext : Type}.

Implicit Types (parser : Parser CommandContext).

Lemma chainLoop_successes (mergeWitnesses : Value -> Value -> Value)
  (chain : Success CommandContext -> Parser CommandContext)
  (fuel : nat) (input : string) (successes1 : list (Success CommandContext)) :
  forall failure furthest (successes : list (list (Success CommandContext)))
         failure' furthest' (successes' : list (list (Success CommandContext))),
    chainLoop mergeWitnesses chain fuel input successes1 failure furthest successes
    = Some (failure', furthest', successes') ->
    List.concat successes'
    = List.concat successes
      ++ flat_map (continuations mergeWitnesses chain fuel input) successes1
    /\ Forall (fun s1 => chain s1 fuel input s1 <> None) successes1.
Proof.
  induction successes1 as [|s1 rest IH];
    intros failure furthest successes failure' furthest' successes' H.
  - injection H as <- <- <-. simpl. now rewrite app_nil_r.
  - simpl in H.
    destruct (chain s1 fuel input s1) as [[s2 f2]|] eqn:E; [|discriminate H].
    destruct (IH _ _ _ _ _ _ H) as [C F]. split.
    + rewrite C, concat_app. cbn [flat_map List.concat]. rewrite app_nil_r.
      unfold continuations at 2. rewrite E. now rewrite <- app_assoc.
    + constructor; [congruence | exact F].
Qed.

Lemma parseChain_returns (mergeWitnesses : Value -> Value -> Value) parser1
  (chain : Success CommandContext -> Parser CommandContext)
  (fuel : nat) (input : string) (success : Success CommandContext)
  (r : Result CommandContext) :
  parseChain mergeWitnesses parser1 chain fuel input success = Some r ->
  exists successes1 failure1,
    parser1 fuel input success = Some (successes1, failure1)
    /\ fst r = flat_map (continuations mergeWitnesses chain fuel input) successes1
    /\ Forall (fun s1 => chain s1 fuel input s1 <> None) successes1.
Proof.
  unfold parseChain. intros H.
  destruct (parser1 fuel input success) as [[successes1 failure1]|] eqn:E1;
    [|discriminate H].
  destruct (chainLoop _ _ _ _ _ _ _ _) as [[[failure furthest] successes]|] eqn:E2;
    [|discriminate H].
  injection H as <-.
  destruct (chainLoop_successes _ _ _ _ _ _ _ _ _ _ _ E2) as [C F].
  exists successes1, failure1. repeat split; assumption.
Qed.

(** X1.  The successes of [parseChain(mergeWitnesses, parser1, chain)] are,
    for each success [s1] of [parser1] in order, the successes of the
    parser [chain(s1)] run from [s1], each with its witness replaced by
    [mergeWitnesses] of the witness of [s1] and its own; and the chain
    returns only when every one of these continuations does. *)
Theorem parseChain_successes :
  forall (mergeWitnesses : Value -> Value -> Value) (parser1 : Parser CommandContext)
         (chain : Success CommandContext -> Parser CommandContext)
         (fuel : nat) (input : string) (success : Success CommandContext)
         (successes : list (Success CommandContext)) (failure : option Failure),
    parseChain mergeWitnesses parser1 chain fuel input success
    = Some (successes, failure) ->
    exists successes1 failure1,
      parser1 fuel input success = Some (successes1, failure1)
      /\ successes
         = flat_map (continuations mergeWitnesses chain fuel input) successes1
      /\ Forall (fun s1 => chain s1 fuel input s1 <> None) successes1.
Proof.
  intros mergeWitnesses parser1 chain fuel input success successes failure H.
  exact (parseChain_returns _ _ _ _ _ _ _ H).
Qed.

Lemma parseAlternatives_successes parser1 parser2 (fuel : nat) (input : string)
  (success : Success CommandContext) :
  parseAlternatives parser1 parser2 fuel input success
  = match parser1 fuel input success, parser2 fuel input success with
    | Some (s1, f1), Some (s2, f2) =>
        Some (s1 ++ s2,
              mergeFailures (notBefore (furthestSuccess (s1 ++ s2)) f1)
                            (notBefore (furthestSuccess (s1 ++ s2)) f2))
    | _, _ => None
    end.
Proof.
  unfold parseAlternatives.
  destruct (parser1 fuel input success) as [[s1 f1]|]; [|reflexivity].
  destruct (parser2 fuel input success) as [[s2 f2]|]; reflexivity.
Qed.

Lemma parseChoice_snoc (parsers : list (Parser CommandContext)) parser :
  parseChoice (parsers ++ [parser]) = parseAlternatives (parseChoice parsers) parser.
Proof. unfold parseChoice. now rewrite fold_left_app. Qed.

(** The successes of a choice are those of its parsers, in order. *)
Lemma parseChoice_returns (parsers : list (Parser CommandContext))
  (fuel : nat) (input : string) (success : Success CommandContext) :
  forall results : list (Result CommandContext),
    Forall2 (fun p r => p fuel input success = Some r) parsers results ->
    exists failure,
      parseChoice parsers fuel input success
      = Some (List.concat (map fst results), failure).
Proof.
  induction parsers as [|p l IH] using rev_ind; intros results F.
  - inversion F; subst. eexists. reflexivity.
  - apply Forall2_app_inv_l in F. destruct F as (rl & rp & Fl & Fp & ->).
    inversion Fp as [|? r ? ? Hp Fnil]; subst. inversion Fnil; subst.
    destruct (IH _ Fl) as [f Hl].
    rewrite parseChoice_snoc, parseAlternatives_successes, Hl, Hp.
    destruct r as [s2 f2]. eexists.
    rewrite map_app, concat_app. simpl. now rewrite app_nil_r.
Qed.

(** X2.  When each of [parsers] returns, [parseChoice(...parsers)] returns
    the concatenation of their successes, in the order of the parsers: a
    choice drops no success and adds none. *)
Theorem parseChoice_successes :
  forall (parsers : list (Parser CommandContext))
         (fuel : nat) (input : string) (success : Success CommandContext)
         (results : list (Result CommandContext)),
    Forall2 (fun p r => p fuel input success = Some r) parsers results ->
    exists failure,
      parseChoice parsers fuel input success
      = Some (List.concat (map fst results), failure).
Proof. intros. now apply parseChoice_returns. Qed.

End Composition.

(** ** A choice of constants *)

Lemma normalizeCompletions_sorted (xs : list string) :
  StronglySorted le_string (normalizeCompletions xs).
Proof.
  rewrite normalizeCompletions_shortest. apply shortest_sorted, sort_sorted.
Qed.

Lemma normalizeCompletions_NoDup (xs : list string) : NoDup (normalizeCompletions xs).
Proof.
  rewrite normalizeCompletions_shortest.
  pose proof (shortest_unrelated _ (sort_sorted xs)) as U.
  induction U as [|x l F U IH]; constructor; [|exact IH].
  intros Hx. rewrite Forall_forall in F. destruct (F x Hx) as [P _].
  rewrite prefix_refl in P. discriminate P.
Qed.

Lemma normalizeCompletions_covered (xs : list string) (y : string) :
  In y xs -> exists p, In p (normalizeCompletions xs) /\ String.prefix p y = true.
Proof.
  intros Hy.
  pose proof (normalizeCompletions_covers xs) as C. rewrite Forall_forall in C.
  apply Exists_exists. now apply C.
Qed.

(** Two arrays with the same strings have the same normal form. *)
Lemma normalizeCompletions_same_elements (xs ys : list string) :
  (forall x, In x xs <-> In x ys) ->
  normalizeCompletions xs = normalizeCompletions ys.
Proof.
  intros H.
  apply sorted_perm_eq; try apply normalizeCompletions_sorted.
  apply NoDup_Permutation; try apply normalizeCompletions_NoDup.
  intros x. symmetry. apply normalizeCompletions_unique.
  - intros y Hy. apply H. now apply normalizeCompletions_incl.
  - intros y Hy. apply H in Hy. now apply normalizeCompletions_covered.
  - apply normalizeCompletions_prefix_free.
Qed.

(** Normalizing a part first changes nothing. *)
Lemma normalizeCompletions_absorbs (xs ys : list string) :
  normalizeCompletions (normalizeCompletions xs ++ ys) = normalizeCompletions (xs ++ ys).
Proof.
  apply sorted_perm_eq; try apply normalizeCompletions_sorted.
  apply NoDup_Permutation; try apply normalizeCompletions_NoDup.
  intros x. apply normalizeCompletions_unique.
  - intros y Hy. apply normalizeCompletions_incl in Hy.
    apply in_app_iff in Hy. apply in_app_iff.
    destruct Hy as [Hy|Hy]; [left | now right].
    now apply normalizeCompletions_incl in Hy.
  - intros y Hy.
    assert (Hp : exists p, In p (normalizeCompletions xs ++ ys)
                           /\ String.prefix p y = true).
    { apply in_app_iff in Hy. destruct Hy as [Hy|Hy].
      - destruct (normalizeCompletions_covered xs y Hy) as (p & Hp & P).
        exists p. split; [apply in_app_iff; now left | exact P].
      - exists y. split; [apply in_app_iff; now right | apply prefix_refl]. }
    destruct Hp as (p & Hp & P).
    destruct (normalizeCompletions_covered _ p Hp) as (q & Hq & Q).
    exists q. split; [exact Hq | eapply prefix_trans; eassumption].
  - apply normalizeCompletions_prefix_free.
Qed.

Lemma normalizeCompletions_single (x : string) : normalizeCompletions [x] = [x].
Proof. reflexivity. Qed.

Section ChoiceOfConstants.
Context {CommandContext : Type}.

Lemma parseConstant_cases (literal : string) (witness : option Value)
  (fuel : nat) (input : string) (success : Success CommandContext) :
  0 <= s_end success ->
  let rest := drop (Z.to_nat (s_end success)) input in
  let matched := commonPrefixLength literal rest in
  parseConstant literal witness fuel input success
  = Some (if String.prefix literal rest
          then ([matchOf success (literal, witness)], None)
          else ([],
                Some (mkFailure [] [drop matched literal]
                                (Int (s_end success + Z.of_nat matched)) false))).
Proof.
  intros H rest matched.
  rewrite (parseConstant_unfold literal witness fuel input success H).
  fold rest matched.
  destruct (String.prefix literal rest) eqn:P.
  - apply prefix_commonPrefixLength in P. fold matched in P.
    unfold strlen. rewrite P, Z.eqb_refl. reflexivity.
  - destruct (Z.of_nat matched =? strlen literal) eqn:E.
    + apply Z.eqb_eq in E. unfold strlen in E. apply Nat2Z.inj in E.
      apply prefix_commonPrefixLength in E. fold rest in E. congruence.
    + rewrite slice_drop by apply commonPrefixLength_le_l. reflexivity.
Qed.

Lemma mergeFailures_None_r (f : option Failure) : mergeFailures f None = f.
Proof. now destruct f. Qed.

Lemma unmatched_snoc (rest : string) (constants : list string) (c : string) :
  unmatched rest (constants ++ [c])
  = unmatched rest constants ++ (if String.prefix c rest then [] else [c]).
Proof.
  unfold unmatched. rewrite filter_app. simpl. now destruct (String.prefix c rest).
Qed.

Lemma furthestReach_snoc (rest : string) (constants : list string) (c : string) :
  furthestReach rest (constants ++ [c])
  = if String.prefix c rest then furthestReach rest constants
    else Nat.max (furthestReach rest constants) (commonPrefixLength c rest).
Proof.
  unfold furthestReach. rewrite unmatched_snoc.
  destruct (String.prefix c rest).
  - now rewrite app_nil_r.
  - rewrite map_app, list_max_app. simpl. now rewrite Nat.max_0_r.
Qed.

Lemma reach_le_furthest (rest : string) (constants : list string) (c : string) :
  In c (unmatched rest constants) ->
  (commonPrefixLength c rest <= furthestReach rest constants)%nat.
Proof.
  intros H. unfold furthestReach.
  pose proof (proj1 (list_max_le (map (fun c => commonPrefixLength c rest)
                                      (unmatched rest constants)) _)
                (Nat.le_refl _)) as F.
  rewrite Forall_forall in F. apply F.
  now apply (in_map (fun c => commonPrefixLength c rest)).
Qed.

Lemma filter_none {A : Type} (f : A -> bool) (l : list A) :
  (forall x, In x l -> f x = false) -> filter f l = [].
Proof.
  induction l as [|x l IH]; intros H; simpl; [reflexivity|].
  rewrite (H x (or_introl eq_refl)). apply IH. intros y Hy. apply H. now right.
Qed.

Lemma leftToType_snoc (rest : string) (constants : list string) (c : string) :
  String.prefix c rest = false ->
  let M := furthestReach rest constants in
  let r := commonPrefixLength c rest in
  ((r < M)%nat -> leftToType rest (constants ++ [c]) = leftToType rest constants)
  /\ (r = M -> leftToType rest (constants ++ [c])
               = leftToType rest constants ++ [drop r c])
  /\ ((M < r)%nat -> leftToType rest (constants ++ [c]) = [drop r c]).
Proof.
  intros P M r. unfold leftToType.
  rewrite furthestReach_snoc, unmatched_snoc, P.
  rewrite filter_app, map_app. subst M r. cbn [filter map].
  repeat split; intros H.
  - rewrite Nat.max_l by lia.
    destruct (Nat.eqb_spec (commonPrefixLength c rest) (furthestReach rest constants));
      [lia|].
    simpl. now rewrite app_nil_r.
  - rewrite Nat.max_l by lia.
    destruct (Nat.eqb_spec (commonPrefixLength c rest) (furthestReach rest constants));
      [reflexivity | lia].
  - rewrite Nat.max_r by lia. rewrite Nat.eqb_refl.
    rewrite filter_none; [reflexivity|].
    intros x Hx. apply Nat.eqb_neq.
    pose proof (reach_le_furthest rest constants x Hx). lia.
Qed.

Lemma num_leb_max_false (a b R : number) :
  num_leb a R = false -> num_leb (num_max a b) R = false.
Proof.
  destruct a, b, R; simpl; try congruence.
  rewrite !Z.leb_gt. lia.
Qed.

(** One more unmatched constant, reaching [r], merged into the failure of
    the choice so far. *)
Lemma choice_failure_step (fu : number) (start : Z) (M r : nat)
  (L L' : list string) (suffix : string) :
  ((r < M)%nat -> L' = L) ->
  (r = M -> L' = L ++ [suffix]) ->
  ((M < r)%nat -> L' = [suffix]) ->
  mergeFailures
    (notBefore fu
       (if num_leb fu (Int (start + Z.of_nat M))
        then Some (mkFailure [] (normalizeCompletions L) (Int (start + Z.of_nat M)) false)
        else None))
    (notBefore fu (Some (mkFailure [] [suffix] (Int (start + Z.of_nat r)) false)))
  = if num_leb fu (Int (start + Z.of_nat (Nat.max M r)))
    then Some (mkFailure [] (normalizeCompletions L')
                         (Int (start + Z.of_nat (Nat.max M r))) false)
    else None.
Proof.
  intros Hlt Heq Hgt.
  destruct (lt_eq_lt_dec r M) as [[C|C]|C].
  - rewrite (Hlt C), Nat.max_l by lia.
    destruct (num_leb fu (Int (start + Z.of_nat M))) eqn:A; simpl; rewrite ?A; simpl.
    + destruct (num_leb fu (Int (start + Z.of_nat r))) eqn:B; simpl; [|reflexivity].
      replace (start + Z.of_nat M =? start + Z.of_nat r) with false
        by (symmetry; apply Z.eqb_neq; lia).
      replace (start + Z.of_nat M <? start + Z.of_nat r) with false
        by (symmetry; apply Z.ltb_ge; lia).
      reflexivity.
    + replace (num_leb fu (Int (start + Z.of_nat r))) with false; [reflexivity|].
      symmetry. destruct fu as [|z]; simpl in *; [discriminate|].
      apply Z.leb_gt in A. apply Z.leb_gt. lia.
  - subst r. rewrite (Heq eq_refl), Nat.max_id.
    destruct (num_leb fu (Int (start + Z.of_nat M))) eqn:A; simpl; rewrite ?A; simpl;
      [|reflexivity].
    rewrite Z.eqb_refl. unfold new_Failure. simpl.
    now rewrite normalizeCompletions_absorbs.
  - rewrite (Hgt C), Nat.max_r by lia. rewrite normalizeCompletions_single.
    destruct (num_leb fu (Int (start + Z.of_nat M))) eqn:A; simpl; rewrite ?A; simpl.
    + replace (num_leb fu (Int (start + Z.of_nat r))) with true.
      * simpl.
        replace (start + Z.of_nat M =? start + Z.of_nat r) with false
          by (symmetry; apply Z.eqb_neq; lia).
        replace (start + Z.of_nat M <? start + Z.of_nat r) with true
          by (symmetry; apply Z.ltb_lt; lia).
        reflexivity.
      * symmetry. destruct fu as [|z]; simpl in *; [reflexivity|].
        apply Z.leb_le in A. apply Z.leb_le. lia.
    + destruct (num_leb fu (Int (start + Z.of_nat r))); reflexivity.
Qed.

Lemma constants_choice (entries : list (string * option Value))
  (fuel : nat) (input : string) (success : Success CommandContext) :
  0 <= s_end success ->
  let rest := drop (Z.to_nat (s_end success)) input in
  let constants := map fst entries in
  let successes :=
    map (matchOf success) (filter (fun e => String.prefix (fst e) rest) entries) in
  let reach := Int (s_end success + Z.of_nat (furthestReach rest constants)) in
  parseChoice (map (fun e => parseConstant (fst e) (snd e)) entries) fuel input success
  = Some (successes,
          if num_leb (furthestSuccess successes) reach
          then Some (mkFailure [] (normalizeCompletions (leftToType rest constants))
                               reach false)
          else None).
Proof.
  intros H0 rest. cbv zeta.
  induction entries as [|[c w] l IH] using rev_ind.
  - simpl. unfold furthestReach. simpl. now rewrite Z.add_0_r.
  - rewrite !map_app. cbn [map fst snd].
    rewrite parseChoice_snoc, parseAlternatives_successes, IH.
    rewrite (parseConstant_cases c w fuel input success H0). fold rest.
    rewrite filter_app, !map_app. cbn [filter map fst snd].
    rewrite furthestReach_snoc.
    set (matches := map (matchOf success)
                        (filter (fun e => String.prefix (fst e) rest) l)).
    destruct (String.prefix c rest) eqn:P.
    + (* the constant matches *)
      cbn [notBefore map]. rewrite mergeFailures_None_r.
      assert (L : leftToType rest (map fst l ++ [c]) = leftToType rest (map fst l)).
      { unfold leftToType. now rewrite furthestReach_snoc, unmatched_snoc, P, app_nil_r. }
      rewrite L. f_equal. f_equal.
      rewrite furthestSuccess_app.
      destruct (num_leb (furthestSuccess matches) (Int _)) eqn:A.
      * reflexivity.
      * cbn [notBefore]. now rewrite (num_leb_max_false _ _ _ A).
    + (* the constant does not match *)
      cbn [map]. rewrite !app_nil_r. f_equal. f_equal.
      destruct (leftToType_snoc rest (map fst l) c P) as (Hlt & Heq & Hgt).
      now apply choice_failure_step.
Qed.

(** X3.  A choice of constants, started at a position that is not
    negative.  Its successes are the matches of the constants that are a
    prefix of the remaining input, in the order of the constants, each
    with its witness, which is the constant itself when none, or
    [undefined], was given.  Its
    failure comes from the constants that are not: it ends where the
    furthest of them stops matching, offers as completions the normalized
    rests of those that reach that far, never pauses, and is returned
    unless a success ends after it. *)
Theorem parseChoice_of_constants :
  forall (entries : list (string * option Value))
         (fuel : nat) (input : string) (success : Success CommandContext),
    0 <= s_end success ->
    let rest := drop (Z.to_nat (s_end success)) input in
    let constants := map fst entries in
    let successes :=
      map (matchOf success) (filter (fun e => String.prefix (fst e) rest) entries) in
    let reach := Int (s_end success + Z.of_nat (furthestReach rest constants)) in
    parseChoice (map (fun e => parseConstant (fst e) (snd e)) entries) fuel input success
    = Some (successes,
            if num_leb (furthestSuccess successes) reach
            then Some (mkFailure [] (normalizeCompletions (leftToType rest constants))
                                 reach false)
            else None).
Proof. intros entries fuel input success H. now apply constants_choice. Qed.

End ChoiceOfConstants.

(** ** parseSequence *)

Section Sequence.
Context {CommandContext : Type}.

Lemma last_cons {A : Type} (l : list A) :
  forall x d : A, List.last (x :: l) d = List.last l x.
Proof.
  induction l as [|y l IH]; intros x d; [reflexivity|].
  change (List.last (y :: l) d = List.last (y :: l) x). now rewrite !IH.
Qed.

(** [threaded] looks at the annotations, context and end of [last] only. *)
Lemma threaded_ext (parsers : list (Parser CommandContext)) (fuel : nat) (input : string)
  (last last' : Success CommandContext) (seen : list Value)
  (path : list (Success CommandContext)) :
  s_annotations last = s_annotations last' ->
  s_context last = s_context last' ->
  s_end last = s_end last' ->
  threaded parsers fuel input last seen path ->
  threaded parsers fuel input last' seen path.
Proof.
  intros A C E. destruct parsers as [|p l], path as [|s1 rest]; simpl; trivial.
  now rewrite A, C, E.
Qed.

Lemma In_flat_map_continuations (mergeWitnesses : Value -> Value -> Value)
  (p : Parser CommandContext) (fuel : nat) (input : string)
  (successes0 : list (Success CommandContext)) (x : Success CommandContext) :
  In x (flat_map (continuations mergeWitnesses (fun _ => p) fuel input) successes0)
  <-> exists a s1 successes failure,
        In a successes0
        /\ p fuel input a = Some (successes, failure)
        /\ In s1 successes
        /\ x = chained mergeWitnesses a s1.
Proof.
  rewrite in_flat_map. unfold continuations. split.
  - intros (a & Ha & Hx).
    destruct (p fuel input a) as [[successes failure]|] eqn:E; [|destruct Hx].
    apply in_map_iff in Hx. destruct Hx as (s1 & <- & Hs1).
    now exists a, s1, successes, failure.
  - intros (a & s1 & successes & failure & Ha & E & Hs1 & ->).
    exists a. split; [exact Ha|]. rewrite E. now apply in_map.
Qed.

(** The successes of the parser that [parseSequence] folds out of
    [parsers], starting from the successes of [seed]. *)
Lemma sequence_fold (parsers : list (Parser CommandContext)) :
  forall (seed : Parser CommandContext) (fuel : nat) (input : string)
         (success : Success CommandContext)
         (successes : list (Success CommandContext)) (failure : option Failure),
    fold_left (fun p1 p2 => parseThen (fun w1 w2 => VArr (w2 :: spread w1)) p1 p2)
              parsers seed fuel input success
    = Some (successes, failure) ->
    exists successes0 failure0,
      seed fuel input success = Some (successes0, failure0)
      /\ ((forall a, In a successes0 -> exists seen, s_witness a = VArr seen) ->
          forall x,
            In x successes
            <-> exists a seen path,
                  In a successes0
                  /\ s_witness a = VArr seen
                  /\ threaded parsers fuel input a seen path
                  /\ x = new_Success
                           (s_annotations (List.last path a))
                           (s_context (List.last path a))
                           (s_end (List.last path a))
                           (VArr (rev (map s_witness path) ++ seen))).
Proof.
  induction parsers as [|p l IH];
    intros seed fuel input success successes failure H.
  - simpl in H. exists successes, failure. split; [exact H|].
    intros W x. split.
    + intros Hx. destruct (W x Hx) as [seen Hseen].
      exists x, seen, []. repeat split; try assumption.
      simpl. rewrite <- Hseen. now destruct x.
    + intros (a & seen & path & Ha & Hseen & T & ->).
      destruct path; [|destruct T]. simpl. rewrite <- Hseen. now destruct a.
  - simpl in H. destruct (IH _ _ _ _ _ _ H) as (successes1 & failure1 & E1 & C1).
    destruct (parseChain_returns _ _ _ _ _ _ _ E1)
      as (successes0 & failure0 & E0 & F & _). simpl in F.
    exists successes0, failure0. split; [exact E0|].
    intros W x.
    assert (W1 : forall a, In a successes1 -> exists seen, s_witness a = VArr seen).
    { intros a Ha. rewrite F in Ha. apply In_flat_map_continuations in Ha.
      destruct Ha as (a0 & s1 & ss & ff & _ & _ & _ & ->). eexists. reflexivity. }
    rewrite (C1 W1 x). split.
    + intros (a1 & seen1 & path & Ha1 & Hseen1 & T & ->).
      rewrite F in Ha1. apply In_flat_map_continuations in Ha1.
      destruct Ha1 as (a & s1 & ss & ff & Ha & Ep & Hs1 & ->).
      destruct (W a Ha) as [seen Hseen].
      simpl in Hseen1. rewrite Hseen in Hseen1. simpl in Hseen1.
      injection Hseen1 as <-.
      exists a, seen, (s1 :: path). repeat split; try assumption.
      * exists ss, ff. split; [|exact Hs1].
        rewrite <- Hseen. now destruct a.
      * eapply threaded_ext; [| | |exact T]; reflexivity.
      * rewrite last_cons. cbn [map rev]. rewrite <- app_assoc. cbn [app].
        destruct path as [|s2 path]; [reflexivity|]. now rewrite !last_cons.
    + intros (a & seen & path & Ha & Hseen & T & ->).
      destruct path as [|s1 path]; [destruct T|].
      destruct T as [(ss & ff & Ep & Hs1) T].
      assert (Ea : new_Success (s_annotations a) (s_context a) (s_end a) (VArr seen) = a)
        by (rewrite <- Hseen; now destruct a).
      rewrite Ea in Ep.
      exists (chained (fun w1 w2 => VArr (w2 :: spread w1)) a s1),
             (s_witness s1 :: seen), path.
      repeat split.
      * rewrite F. apply In_flat_map_continuations.
        now exists a, s1, ss, ff.
      * simpl. now rewrite Hseen.
      * eapply threaded_ext; [| | |exact T]; reflexivity.
      * rewrite last_cons. cbn [map rev]. rewrite <- app_assoc. cbn [app].
        destruct path as [|s2 path]; [reflexivity|]. now rewrite !last_cons.
Qed.

Lemma parseSequence_paths :
  forall (mergeWitnesses : list Value -> Value) (parsers : list (Parser CommandContext))
         (fuel : nat) (input : string) (success : Success CommandContext)
         (successes : list (Success CommandContext)) (failure : option Failure),
    parseSequence mergeWitnesses parsers fuel input success = Some (successes, failure) ->
    forall x,
      In x successes
      <-> exists path,
            threaded parsers fuel input success [] path
            /\ x = new_Success
                     (s_annotations (List.last path success))
                     (s_context (List.last path success))
                     (s_end (List.last path success))
                     (mergeWitnesses (map s_witness path)).
Proof.
  intros mergeWitnesses parsers fuel input success successes failure H x.
  unfold parseSequence in H.
  match type of H with
  | context [match ?e with _ => _ end] =>
      destruct e as [[successes' failure']|] eqn:E; [|discriminate H]
  end.
  injection H as <- <-.
  destruct (sequence_fold _ _ _ _ _ _ _ E) as (successes0 & failure0 & E0 & C).
  injection E0 as <- <-.
  assert (W : forall a,
             In a [new_Success (s_annotations success) (s_context success)
                               (s_end success) (VArr [])] ->
             exists seen, s_witness a = VArr seen).
  { intros a [<-|[]]. now exists []. }
  specialize (C W). rewrite in_map_iff. split.
  - intros (y & <- & Hy). apply C in Hy.
    destruct Hy as (a & seen & path & [<-|[]] & Hseen & T & ->).
    simpl in Hseen. injection Hseen as <-.
    exists path. split.
    + eapply threaded_ext; [| | |exact T]; reflexivity.
    + unfold transformWitness. simpl. rewrite app_nil_r, rev_involutive.
      destruct path as [|s1 path]; [reflexivity|]. now rewrite !last_cons.
  - intros (path & T & ->).
    eexists. split; [|apply C].
    2:{ eexists _, [], path. split; [now left|]. split; [reflexivity|].
        split; [|reflexivity].
        eapply threaded_ext; [| | |exact T]; reflexivity. }
    unfold transformWitness. simpl. rewrite app_nil_r, rev_involutive.
    destruct path as [|s1 path]; [reflexivity|]. now rewrite !last_cons.
Qed.

(** X4.  The successes of [parseSequence(mergeWitnesses, ...parsers)] are
    exactly these: for every way of taking one success from each parser in
    turn, each parser started where the one before it ended, the success
    with the annotations, context and end of the last one and with the
    witness [mergeWitnesses(w1, ..., wn)] of their witnesses in the order
    of the parsers. *)
Theorem parseSequence_successes :
  forall (mergeWitnesses : list Value -> Value) (parsers : list (Parser CommandContext))
         (fuel : nat) (input : string) (success : Success CommandContext)
         (successes : list (Success CommandContext)) (failure : option Failure),
    parseSequence mergeWitnesses parsers fuel input success = Some (successes, failure) ->
    forall x,
      In x successes
      <-> exists path,
            threaded parsers fuel input success [] path
            /\ x = new_Success
                     (s_annotations (List.last path success))
                     (s_context (List.last path success))
                     (s_end (List.last path success))
                     (mergeWitnesses (map s_witness path)).
Proof. intros until failure. apply parseSequence_paths. Qed.

End Sequence.

(** ** parseSubset *)

Section Subset.
Context {CommandContext : Type}.

Lemma In_new_Set_strings (l : list string) (x : string) :
  In x (new_Set String.eqb l) <-> In x l.
Proof.
  unfold new_Set. rewrite (In_fold_Set_add _ _ String.eqb_eq). simpl. tauto.
Qed.

Lemma In_Set_delete_strings (set : list string) (c x : string) :
  In x (Set_delete String.eqb set c) <-> In x set /\ x <> c.
Proof.
  unfold Set_delete. rewrite filter_In, negb_true_iff, String.eqb_neq.
  split; intros [A B]; split; congruence.
Qed.

Lemma parseConstant_shape (constant : string) (witness : option Value)
  (fuel : nat) (input : string) (success : Success CommandContext) :
  exists r, parseConstant constant witness fuel input success = Some r
            /\ (fst r = [] \/ fst r = [matchOf success (constant, witness)]).
Proof.
  unfold parseConstant.
  match goal with |- context [if ?c then _ else _] => destruct c end;
    eexists; (split; [reflexivity|]); [now right | now left].
Qed.

Lemma constants_success_witness (choices : list string)
  (fuel : nat) (input : string) (success : Success CommandContext)
  (r : Result CommandContext) :
  parseChoice (map (fun c => parseConstant c None) choices) fuel input success = Some r ->
  Forall (fun s1 => exists c, In c choices /\ s_witness s1 = VStr c) (fst r).
Proof.
  assert (R : exists results,
             Forall2 (fun p r => p fuel input success = Some r)
                     (map (fun c => @parseConstant CommandContext c None) choices) results
             /\ Forall (fun s1 => exists c, In c choices /\ s_witness s1 = VStr c)
                       (List.concat (map fst results))).
  { induction choices as [|c l IH].
    - exists []. split; constructor.
    - destruct IH as (results & F & W).
      destruct (parseConstant_shape c None fuel input success) as (rc & Ec & Sc).
      exists (rc :: results). split; [now constructor|].
      simpl. apply Forall_app. split.
      + destruct Sc as [->| ->]; constructor; [|constructor].
        exists c. split; [now left | reflexivity].
      + eapply Forall_impl; [|exact W]. intros s1 (c' & Hc' & E).
        exists c'. split; [now right | exact E]. }
  destruct R as (results & F & W).
  destruct (parseChoice_returns _ fuel input success results F) as [f E].
  intros H. rewrite E in H. injection H as <-. exact W.
Qed.

(** The successes of the continuation that [choose] hands to [parseChain],
    once the constant [c] has been chosen. *)
Lemma choose_continuation (parseSeparator next : Parser CommandContext)
  (choices fewer : list string) (c : string)
  (fuel : nat) (input : string) (s1 : Success CommandContext)
  (r : Result CommandContext) :
  In c choices ->
  s_witness s1 = VStr c ->
  (forall x, In x fewer <-> In x choices /\ x <> c) ->
  (forall input' s' r', next fuel input' s' = Some r' ->
                        Forall (distinctChoice fewer) (fst r')) ->
  (if (List.length fewer =? 0)%nat
   then parseEmpty (Some (VArr []))
   else parseAlternatives
          (parseEmpty (Some (VArr [])))
          (parseThen (fun s f => f) parseSeparator next)) fuel input s1 = Some r ->
  Forall (distinctChoice choices) (map (chained consWitness s1) (fst r)).
Proof.
  intros Hc W Hfewer IH H.
  assert (Single : distinctChoice choices
                     (chained consWitness s1
                        (new_Success (s_annotations s1) (s_context s1) (s_end s1)
                                     (VArr [])))).
  { exists [c]. simpl. rewrite W. repeat split.
    - constructor; [intros [] | constructor].
    - intros x [<-|[]]. exact Hc. }
  destruct (List.length fewer =? 0)%nat.
  - injection H as <-. simpl. constructor; [exact Single | constructor].
  - rewrite parseAlternatives_successes in H. cbn [parseEmpty] in H.
    destruct (parseThen _ parseSeparator next fuel input s1) as [[s2 f2]|] eqn:E;
      [|discriminate H].
    injection H as <-. simpl. constructor; [exact Single|].
    destruct (parseChain_returns _ _ _ _ _ _ _ E) as (ss & fs & Es & F & _).
    simpl in F. rewrite F. rewrite Forall_forall. intros x Hx.
    apply in_map_iff in Hx. destruct Hx as (y & <- & Hy).
    apply in_flat_map in Hy. destruct Hy as (sepSuccess & _ & Hy).
    unfold continuations in Hy.
    destruct (next fuel input sepSuccess) as [[s3 f3]|] eqn:En; [|destruct Hy].
    apply in_map_iff in Hy. destruct Hy as (z & <- & Hz).
    specialize (IH _ _ _ En). simpl in IH. rewrite Forall_forall in IH.
    destruct (IH z Hz) as (chosen & Wz & N & I).
    exists (c :: chosen). simpl. rewrite W, Wz. repeat split.
    + constructor; [|exact N]. intros Hin. apply I, Hfewer in Hin. tauto.
    + intros x [<-|Hx]; [exact Hc|]. apply I, Hfewer in Hx. tauto.
Qed.

Lemma choose_distinct (parseSeparator : Parser CommandContext) (budget : nat) :
  forall (choices : list string) (fuel : nat) (input : string)
         (success : Success CommandContext) (r : Result CommandContext),
    choose parseSeparator budget choices fuel input success = Some r ->
    Forall (distinctChoice choices) (fst r).
Proof.
  induction budget as [|budget IH]; intros choices fuel input success r H;
    rewrite choose_unfold in H;
    destruct (parseChain_returns _ _ _ _ _ _ _ H) as (s1s & f1 & E1 & -> & _);
    apply constants_success_witness in E1; simpl in E1;
    rewrite Forall_forall in E1 |- *; intros x Hx;
    apply in_flat_map in Hx; destruct Hx as (s1 & Hs1 & Hx);
    destruct (E1 s1 Hs1) as (c & Hc & W);
    unfold continuations in Hx;
    match type of Hx with
    | context [match ?e with _ => _ end] =>
        destruct e as [[s2 f2]|] eqn:E2; [|destruct Hx]
    end.
  - refine (proj1 (Forall_forall _ _)
              (choose_continuation parseSeparator (fun _ _ _ => None) choices _ c
                 fuel input s1 (s2, f2) Hc W _ _ E2) x Hx).
    + intros y. rewrite W. simpl.
      rewrite In_Set_delete_strings, In_new_Set_strings. tauto.
    + intros ? ? ? [=].
  - refine (proj1 (Forall_forall _ _)
              (choose_continuation parseSeparator
                 (choose parseSeparator budget _) choices _ c
                 fuel input s1 (s2, f2) Hc W _ _ E2) x Hx).
    + intros y. rewrite W. simpl.
      rewrite In_Set_delete_strings, In_new_Set_strings. tauto.
    + intros input' s' r' E'. exact (IH _ _ _ _ _ E').
Qed.

(** X5.  Every success that [parseSubset(constants, parseSeparator)]
    returns, whatever the separator parser and the input, has as witness
    the array of some of the constants, none of them twice. *)
Theorem parseSubset_distinct :
  forall (constants : Constants) (parseSeparator : Parser CommandContext)
         (fuel : nat) (input : string) (success : Success CommandContext),
    match parseSubset constants parseSeparator fuel input success with
    | Some (successes, _) =>
        Forall (distinctChoice (elementsOf constants)) successes
    | None => True
    end.
Proof.
  intros constants parseSeparator fuel input success.
  assert (Empty : distinctChoice (elementsOf constants)
                    (new_Success (s_annotations success) (s_context success)
                                 (s_end success) (VArr []))).
  { exists []. repeat split; [constructor | intros x []]. }
  unfold parseSubset. destruct (sizeIsZero constants).
  - simpl. constructor; [exact Empty | constructor].
  - rewrite parseAlternatives_successes. cbn [parseEmpty].
    destruct (choose _ _ _ fuel input success) as [[s2 f2]|] eqn:E; [|exact I].
    constructor; [exact Empty|].
    apply choose_distinct in E. simpl in E.
    eapply Forall_impl; [|exact E].
    intros x (chosen & W & N & I). exists chosen. repeat split; try assumption.
    intros y Hy. apply I in Hy. exact (proj1 (In_new_Set_strings _ _) Hy).
Qed.

End Subset.

(** ** Optional, filtered and repeated parsers *)

Section Derived.
Context {CommandContext : Type}.

(** X6.  [parseOptional(parser, witness)] returns the successes of
    [parser] followed by one success that consumes nothing and carries
    [witness], or "missing" when the witness is left out or [undefined]:
    it never returns without a success, and it returns whenever [parser]
    does. *)
Theorem parseOptional_successes :
  forall (parser : Parser CommandContext) (witness : option Value)
         (fuel : nat) (input : string) (success : Success CommandContext),
    match parser fuel input success with
    | Some (successes1, _) =>
        exists failure,
          parseOptional parser witness fuel input success
          = Some (successes1
                  ++ [new_Success (s_annotations success) (s_context success)
                                  (s_end success)
                                  (match witness with
                                   | None | Some VUndefined => VStr "missing"
                                   | Some w => w
                                   end)],
                  failure)
    | None => parseOptional parser witness fuel input success = None
    end.
Proof.
  intros parser witness fuel input success.
  unfold parseOptional, parseChoice. cbn [fold_left].
  rewrite !parseAlternatives_successes. cbn [parseFail parseEmpty].
  destruct (parser fuel input success) as [[s1 f1]|]; [|reflexivity].
  eexists. destruct witness as [[]|]; reflexivity.
Qed.

Lemma filter_nil_forall {A : Type} (f : A -> bool) (l : list A) :
  filter f l = [] -> Forall (fun x => f x = false) l.
Proof.
  induction l as [|x l IH]; simpl; [constructor|].
  destruct (f x) eqn:E; [discriminate|]. intros H. constructor; [exact E | now apply IH].
Qed.

Lemma filter_forall {A : Type} (f : A -> bool) (l : list A) :
  Forall (fun x => f x = true) (filter f l).
Proof. rewrite Forall_forall. intros x Hx. now apply filter_In in Hx. Qed.

(** X7.  [parseFilter(parser)] returns only successes of [parser] whose
    witness is a true value, and never returns empty-handed: when it
    returns no success, it returns a failure. *)
Theorem parseFilter_truthy :
  forall (parser : Parser CommandContext)
         (fuel : nat) (input : string) (success : Success CommandContext),
    match parseFilter parser fuel input success, parser fuel input success with
    | Some (successes, failure), Some (successes0, _) =>
        successes = filter (fun s => truthy (s_witness s)) successes0
        /\ Forall (fun s => truthy (s_witness s) = true) successes
        /\ (successes <> [] \/ failure <> None)
    | None, None => True
    | _, _ => False
    end.
Proof.
  intros parser fuel input success. unfold parseFilter.
  destruct (parser fuel input success) as [[successes0 failure0]|]; [|exact I].
  rewrite categorize_filter.
  destruct (filter _ successes0) as [|p ps] eqn:P.
  - destruct failure0 as [f|];
      (split; [reflexivity|]; split; [constructor|]; right; discriminate).
  - split; [reflexivity|].
    split; [rewrite <- P; apply filter_forall | left; discriminate].
Qed.

(** X8.  [parseMaybe(parser)] returns only successes of [parser] whose
    witness is neither null nor undefined, and never returns
    empty-handed; the failure it makes up when [parser] returned none
    stands at the start and carries the annotations of the successes it
    dropped. *)
Theorem parseMaybe_nonNull :
  forall (parser : Parser CommandContext)
         (fuel : nat) (input : string) (success : Success CommandContext),
    match parseMaybe parser fuel input success, parser fuel input success with
    | Some (successes, failure), Some (successes0, failure0) =>
        successes = filter (fun s => negb (isNull (s_witness s))) successes0
        /\ Forall (fun s => isNull (s_witness s) = false) successes
        /\ (successes <> [] \/ failure <> None)
        /\ (successes = [] -> failure0 = None ->
            failure = Some (mkFailure (mergeSuccessAnnotations successes0) []
                                      (Int (s_end success)) false))
    | None, None => True
    | _, _ => False
    end.
Proof.
  intros parser fuel input success. unfold parseMaybe.
  destruct (parser fuel input success) as [[successes0 failure0]|]; [|exact I].
  rewrite categorize_filter.
  destruct (filter (fun x => negb (isNull (s_witness x))) successes0)
    as [|p ps] eqn:P.
  - simpl. split; [reflexivity|]. split; [constructor|]. split.
    + right. destruct failure0; discriminate.
    + intros _ ->. reflexivity.
  - simpl. split; [reflexivity|]. split; [|split].
    + pose proof (filter_forall (fun x => negb (isNull (s_witness x))) successes0) as F.
      rewrite P in F. eapply Forall_impl; [|exact F].
      intros s Hs. simpl in Hs. now apply negb_true_iff in Hs.
    + left. discriminate.
    + discriminate.
Qed.

Lemma parseNonEmpty_moves :
  forall (parser : Parser CommandContext)
         (fuel : nat) (input : string) (success : Success CommandContext),
    match parseNonEmpty parser fuel input success with
    | Some (successes, _) => Forall (fun s => s_end s <> s_end success) successes
    | None => parser fuel input success = None
    end.
Proof.
  intros parser fuel input success. unfold parseNonEmpty.
  destruct (parser fuel input success) as [[successes0 failure0]|]; [|reflexivity].
  rewrite categorize_filter.
  destruct (filter (fun s => s_end success =? s_end s) successes0) as [|e es] eqn:P.
  - simpl. apply filter_nil_forall in P.
    eapply Forall_impl; [|exact P]. intros s Hs. simpl in Hs.
    apply Z.eqb_neq in Hs. congruence.
  - simpl.
    pose proof (filter_forall (fun x => negb (s_end success =? s_end x)) successes0) as F.
    eapply Forall_impl; [|exact F]. intros s Hs. simpl in Hs.
    apply negb_true_iff, Z.eqb_neq in Hs. congruence.
Qed.

(** X9.  [parseNonEmpty(parser)] never returns a success that ends where
    the parse started. *)
Theorem parseNonEmpty_consumes :
  forall (parser : Parser CommandContext)
         (fuel : nat) (input : string) (success : Success CommandContext),
    match parseNonEmpty parser fuel input success with
    | Some (successes, _) => Forall (fun s => s_end s <> s_end success) successes
    | None => parser fuel input success = None
    end.
Proof. intros parser fuel input success. apply parseNonEmpty_moves. Qed.

(** X10.  Over a parser that keeps the invariant, [parsePlus] keeps it
    too: from a position that is not negative, every success it returns
    ends after the start, and it always returns a failure, which ends no
    earlier than any of its successes. *)
Theorem parsePlus_progress :
  forall (mergeWitnesses : Value -> Value) (parser : Parser CommandContext)
         (fuel : nat) (input : string) (success : Success CommandContext)
         (successes : list (Success CommandContext)) (failure : option Failure),
    keepsInvariant parser ->
    0 <= s_end success ->
    parsePlus mergeWitnesses parser fuel input success = Some (successes, failure) ->
    Forall (fun s => s_end success < s_end s) successes
    /\ exists f e, failure = Some f
                   /\ f_end f = Int e
                   /\ Forall (fun s => s_end s <= e) successes.
Proof.
  intros mergeWitnesses parser fuel input success successes failure K H0 H.
  pose proof (parseNonEmpty_moves (parseStar mergeWitnesses parser)
                fuel input success) as C.
  unfold parsePlus in H. rewrite H in C.
  destruct (parsePlus_keeps mergeWitnesses parser K fuel input success _ H0 H)
    as [F I]. simpl in F, I.
  split.
  - rewrite Forall_forall in *. intros s Hs.
    specialize (C s Hs). specialize (F s Hs). simpl in C, F. lia.
  - destruct failure as [f|].
    + destruct I as (e & Ee & _ & Fe). now exists f, e.
    + exfalso. unfold parseNonEmpty in H.
      destruct (parseStar mergeWitnesses parser fuel input success)
        as [[successes0 failure0]|] eqn:E; [|discriminate H].
      pose proof (parseStar_fails mergeWitnesses parser K fuel input success _ H0 E)
        as N. simpl in N.
      destruct (categorize _ _) as [empties nonEmpties].
      destruct (List.length empties =? 0)%nat, failure0; try discriminate H;
        congruence.
Qed.

Lemma parseKleene_never (parser : Parser CommandContext) :
  (forall fuel input success r,
      parser fuel input success = Some r -> fst r <> []) ->
  forall (fuel : nat) (input : string) (success : Success CommandContext),
    parseKleene parser fuel input success = None.
Proof.
  intros A. induction fuel as [|fuel IH]; intros input success;
    rewrite parseKleene_unfold, parseAlternatives_successes; cbn [parseEmpty];
    unfold parseThen, parseChain;
    (destruct (parser _ input success) as [[successes1 f1]|] eqn:E; [|reflexivity]);
    (destruct successes1 as [|s1 rest]; [exfalso; exact (A _ _ _ _ E eq_refl)|]);
    cbn [chainLoop].
  - reflexivity.
  - now rewrite IH.
Qed.

(** X11.  [parseStar] over a parser that returns a success whenever it
    returns never returns itself, whatever the budget: the repetition has
    nowhere to stop.  Such are [parseEmpty] and every [parseOptional]. *)
Theorem parseStar_never_returns :
  forall (mergeWitnesses : Value -> Value) (parser : Parser CommandContext),
    (forall fuel input success r,
        parser fuel input success = Some r -> fst r <> []) ->
    forall (fuel : nat) (input : string) (success : Success CommandContext),
      parseStar mergeWitnesses parser fuel input success = None.
Proof.
  intros mergeWitnesses parser A fuel input success.
  unfold parseStar, parseTransform. now rewrite parseKleene_never.
Qed.

(** X12.  Whenever [parseStar(mergeWitnesses, parser)] returns, its first
    success is the empty repetition: it ends at the start and carries
    [mergeWitnesses([])].  Over a parser that keeps the invariant, and from
    a position that is not negative, it also returns a failure, which ends
    no earlier than any of its successes. *)
Theorem parseStar_shape :
  forall (mergeWitnesses : Value -> Value) (parser : Parser CommandContext)
         (fuel : nat) (input : string) (success : Success CommandContext)
         (successes : list (Success CommandContext)) (failure : option Failure),
    parseStar mergeWitnesses parser fuel input success = Some (successes, failure) ->
    (exists rest,
        successes
        = new_Success (s_annotations success) (s_context success) (s_end success)
                      (mergeWitnesses (VArr []))
          :: rest)
    /\ (keepsInvariant parser -> 0 <= s_end success ->
        exists f e, failure = Some f
                    /\ f_end f = Int e
                    /\ Forall (fun s => s_end s <= e) successes).
Proof.
  intros mergeWitnesses parser fuel input success successes failure H. split.
  - unfold parseStar, parseTransform in H.
    rewrite parseKleene_unfold, parseAlternatives_successes in H.
    cbn [parseEmpty] in H.
    destruct (parseThen _ _ _ _ _ _) as [[s2 f2]|]; [|discriminate H].
    injection H as <- _. simpl. eexists. reflexivity.
  - intros K H0.
    pose proof (parseStar_fails mergeWitnesses parser K fuel input success _ H0 H) as N.
    destruct (parseStar_keeps mergeWitnesses parser K fuel input success _ H0 H)
      as [_ I]. simpl in N, I.
    destruct failure as [f|]; [|congruence].
    destruct I as (e & Ee & _ & Fe). now exists f, e.
Qed.

(** X13.  Every parser built by finitely many applications of
    [parseConstant], [parseEmpty], [parseFail], [parseRestrictedRegexp],
    [parseAlternatives], [parseWithFallback], [parseChoice], [parseChain],
    [parseThen], [parseSequence], [parseTransform], [parseFilter],
    [parseStar], [parseSeparated], [parsePlus], [parseDelayed],
    [parseOptional], [parseWithCompletions], [parsePause],
    [withoutCompletions], [parseMaybe], [parseContext], [parseSubset] and
    [parseCheckInvariants] keeps the invariant that [parseCheckInvariants]
    asserts: started at a position that is not negative, it returns no
    success that ends before the start, its failure ends no earlier than
    any success, and without a failure it returns a success.  Parsers
    built with [annotate], with [parseNonEmpty] outside [parsePlus], or
    referring to themselves through [parseDelayed] are not among them. *)
Theorem combinators_keep_invariant :
  forall (parser : Parser CommandContext)
         (fuel : nat) (input : string) (success : Success CommandContext)
         (successes : list (Success CommandContext)) (failure : option Failure),
    Combinator parser ->
    0 <= s_end success ->
    parser fuel input success = Some (successes, failure) ->
    invariantsHold (successes, failure) = true
    /\ Forall (fun s => s_end success <= s_end s) successes
    /\ match failure with
       | Some f => exists e, f_end f = Int e
                             /\ s_end success <= e
                             /\ Forall (fun s => s_end s <= e) successes
       | None => successes <> []
       end.
Proof.
  intros parser fuel input success successes failure C H0 H.
  pose proof (Combinator_keeps parser C fuel input success _ H0 H) as K.
  split; [eapply endsBetween_invariantsHold; exact K | exact K].
Qed.

End Derived.

(** ** Failures *)

Section Failures.

(** X14.  [mergeFailures] of two failures returns a failure that ends at
    the later of the two ends.  Apart from the order of the annotations
    it does not depend on the order of its arguments: the end, the
    completions and the pause are the same, and so are the annotations as a
    set. *)
Theorem mergeFailures_symmetric :
  forall x1 x2 : Failure,
  exists a b,
    mergeFailures (Some x1) (Some x2) = Some a
    /\ mergeFailures (Some x2) (Some x1) = Some b
    /\ f_end a = num_max (f_end x1) (f_end x2)
    /\ f_end b = f_end a
    /\ f_completions b = f_completions a
    /\ f_pause b = f_pause a
    /\ (forall x, In x (f_annotations b) <-> In x (f_annotations a)).
Proof.
  intros x1 x2. simpl.
  destruct (f_end x1) as [|e1] eqn:E1, (f_end x2) as [|e2] eqn:E2; simpl.
  - do 2 eexists. repeat split; simpl.
    + apply normalizeCompletions_perm, Permutation_app_comm.
    + apply orb_comm.
    + rewrite !In_mergeAnnotations. tauto.
    + rewrite !In_mergeAnnotations. tauto.
  - do 2 eexists. repeat split; simpl; auto.
  - do 2 eexists. repeat split; simpl; auto.
  - rewrite (Z.eqb_sym e2 e1).
    destruct (Z.eqb_spec e1 e2) as [->|N].
    + do 2 eexists. repeat split; simpl.
      * now rewrite Z.max_id.
      * apply normalizeCompletions_perm, Permutation_app_comm.
      * apply orb_comm.
      * rewrite !In_mergeAnnotations. tauto.
      * rewrite !In_mergeAnnotations. tauto.
    + destruct (Z.ltb_spec e1 e2), (Z.ltb_spec e2 e1); try lia;
        do 2 eexists; repeat split; simpl; rewrite ?E1, ?E2; auto; f_equal; lia.
Qed.

End Failures.

(** ** Matching strings *)

Lemma commonPrefixLength_sym (a : string) :
  forall b : string, commonPrefixLength a b = commonPrefixLength b a.
Proof.
  induction a as [|x a IH]; intros [|y b]; simpl; try reflexivity.
  rewrite (Ascii.eqb_sym x y). destruct (Ascii.eqb y x); [now rewrite IH | reflexivity].
Qed.

Lemma stringMatchForward_common (a b : string) :
  stringMatchForward a b = Z.of_nat (commonPrefixLength a b).
Proof.
  unfold stringMatchForward, substringMatchForward.
  pose proof (commonPrefixLength_le_l a b) as Hl.
  pose proof (commonPrefixLength_le_r a b) as Hr.
  replace (Z.to_nat (0 + Z.min (strlen a - 0) (strlen b - 0) - 0))
    with (Nat.min (String.length a) (String.length b)) by (unfold strlen; lia).
  rewrite (matchForward_common _ a b 0 0); simpl drop; lia.
Qed.

Lemma slice2_substring (s : string) (n : nat) :
  (n <= String.length s)%nat -> slice2 s 0 (Z.of_nat n) = substring 0 n s.
Proof.
  intros H. unfold slice2, strlen. simpl.
  destruct (Z.of_nat n <? 0) eqn:E; [apply Z.ltb_lt in E; lia|].
  rewrite Z.min_l by lia. rewrite Z.min_l by lia. simpl.
  f_equal. lia.
Qed.

(** X15.  [stringMatchForward(a, b)] is the length of the longest common
    prefix of the two strings: it is at most either length, the two
    strings agree on that many characters, and they differ at the next
    one unless one of them ends there. *)
Theorem stringMatchForward_longest_common_prefix :
  forall a b : string,
  exists n : nat,
    stringMatchForward a b = Z.of_nat n
    /\ (n <= String.length a)%nat
    /\ (n <= String.length b)%nat
    /\ slice2 a 0 (Z.of_nat n) = slice2 b 0 (Z.of_nat n)
    /\ match charAt a (Z.of_nat n), charAt b (Z.of_nat n) with
       | Some x, Some y => x <> y
       | _, _ => True
       end.
Proof.
  intros a b. exists (commonPrefixLength a b).
  pose proof (commonPrefixLength_le_l a b) as Hl.
  pose proof (commonPrefixLength_le_r a b) as Hr.
  split; [apply stringMatchForward_common|].
  split; [exact Hl|]. split; [exact Hr|]. split.
  - rewrite !slice2_substring by assumption. apply commonPrefixLength_common.
  - rewrite !charAt_of_nat. apply commonPrefixLength_maximal.
Qed.

(** ** Completions as a set *)

(** X16.  [normalizeCompletions] depends only on which strings its input
    holds: neither their order nor their repetition changes the result.
    In particular, normalizing a part of the input first changes
    nothing. *)
Theorem normalizeCompletions_set :
  forall xs ys zs : list string,
    (forall x, In x xs <-> In x ys) ->
    normalizeCompletions xs = normalizeCompletions ys
    /\ normalizeCompletions (normalizeCompletions xs ++ zs)
       = normalizeCompletions (ys ++ zs).
Proof.
  intros xs ys zs H. split.
  - now apply normalizeCompletions_same_elements.
  - rewrite normalizeCompletions_absorbs.
    apply normalizeCompletions_same_elements.
    intros x. rewrite !in_app_iff, H. tauto.
Qed.

Lemma normalizeCompletions_set_witness :
  normalizeCompletions ["b"; "a"; "ab"; "b"]%string = normalizeCompletions ["a"; "b"; "ab"]%string
  /\ normalizeCompletions (normalizeCompletions ["b"; "a"; "ab"; "b"]%string ++ ["c"]%string)
     = normalizeCompletions (["a"; "b"; "ab"]%string ++ ["c"]%string).
Proof.
  apply (normalizeCompletions_set ["b"; "a"; "ab"; "b"]%string ["a"; "b"; "ab"]%string).
  intros x. simpl. tauto.
Defined.

(** ** Interleaving separators *)

Lemma prefixElements_flat_map {A : Type} (insert : A) (elements : list A) :
  prefixElements insert elements = flat_map (fun e => [insert; e]) elements.
Proof.
  unfold prefixElements.
  assert (G : forall acc, fold_left (fun accumulator e => accumulator ++ [insert; e]) elements acc
                          = acc ++ flat_map (fun e => [insert; e]) elements).
  { induction elements as [|e l IH]; intros acc; simpl.
    - now rewrite app_nil_r.
    - rewrite IH. now rewrite <- app_assoc. }
  apply (G []).
Qed.

Lemma parity_step (i : nat) : (S (S i) mod 2 = i mod 2)%nat.
Proof.
  replace (S (S i)) with (i + 1 * 2)%nat by lia.
  apply Nat.Div0.mod_add.
Qed.

Lemma parity_succ (i : nat) : (i mod 2 = 0 -> S i mod 2 = 1)%nat.
Proof.
  intros H.
  pose proof (Nat.div_mod_eq i 2) as E.
  pose proof (Nat.div_mod_eq (S i) 2) as E'.
  pose proof (Nat.mod_upper_bound (S i) 2) as B.
  lia.
Qed.

Lemma removePrefixes_from {A : Type} (insert : A) (elements : list A) :
  forall i : nat,
    (i mod 2 = 0)%nat ->
    filterIndexed (fun (e : A) i => (i mod 2 =? 1)%nat)
                  (flat_map (fun e => [insert; e]) elements) i
    = elements.
Proof.
  induction elements as [|e l IH]; intros i Hi; [reflexivity|].
  cbn [flat_map app filterIndexed].
  rewrite Hi. cbn [Nat.eqb].
  rewrite (parity_succ i Hi). cbn [Nat.eqb].
  f_equal. apply IH. now rewrite parity_step.
Qed.

Lemma removeSeparators_from {A : Type} (insert : A) (elements : list A) :
  forall i : nat,
    (i mod 2 = 1)%nat ->
    filterIndexed (fun (e : A) i => (i mod 2 =? 0)%nat)
                  (flat_map (fun e => [insert; e]) elements) i
    = elements.
Proof.
  induction elements as [|e l IH]; intros i Hi; [reflexivity|].
  cbn [flat_map app filterIndexed].
  rewrite Hi. cbn [Nat.eqb].
  assert (H : (S i mod 2 = 0)%nat).
  { pose proof (Nat.div_mod_eq i 2) as E.
    pose proof (Nat.div_mod_eq (S i) 2) as E'.
    pose proof (Nat.mod_upper_bound (S i) 2) as B.
    lia. }
  rewrite H. cbn [Nat.eqb].
  f_equal. apply IH. now rewrite parity_step.
Qed.

Lemma removePrefixes_prefixElements_id {A : Type} (insert : A) (elements : list A) :
  removePrefixes (prefixElements insert elements) = elements.
Proof.
  rewrite prefixElements_flat_map. unfold removePrefixes. now apply removePrefixes_from.
Qed.

Lemma removeSeparators_separate_id {A : Type} (insert : A) (elements : list A) :
  removeSeparators (separate insert elements) = elements.
Proof.
  unfold separate. rewrite prefixElements_flat_map.
  destruct elements as [|e l]; [reflexivity|].
  cbn [flat_map app skipn].
  unfold removeSeparators. cbn [filterIndexed]. simpl Nat.eqb. cbv iota.
  f_equal. now apply removeSeparators_from.
Qed.

(** X17.  [removePrefixes] undoes [prefixElements]: after an element has
    been put in front of every element of an array, keeping the odd
    positions gives the array back.  The interleaved array is twice as
    long. *)
Theorem removePrefixes_prefixElements :
  forall (A : Type) (insert : A) (elements : list A),
    removePrefixes (prefixElements insert elements) = elements
    /\ List.length (prefixElements insert elements) = (2 * List.length elements)%nat.
Proof.
  intros A insert elements. split; [apply removePrefixes_prefixElements_id|].
  rewrite prefixElements_flat_map.
  induction elements as [|e l IH]; simpl in *; lia.
Qed.

(** X18.  [removeSeparators] undoes [separate]: after an element has been
    put between the elements of an array, keeping the even positions
    gives the array back.  The separated array of a non-empty array of
    [n] elements has [2n - 1] elements, and that of the empty array is
    empty. *)
Theorem removeSeparators_separate :
  forall (A : Type) (insert : A) (elements : list A),
    removeSeparators (separate insert elements) = elements
    /\ List.length (separate insert elements) = (2 * List.length elements - 1)%nat.
Proof.
  intros A insert elements. split; [apply removeSeparators_separate_id|].
  unfold separate. rewrite prefixElements_flat_map.
  destruct elements as [|e l]; [reflexivity|].
  cbn [flat_map app skipn]. simpl. f_equal.
  induction l as [|x l IH]; simpl in *; lia.
Qed.

(** ** Annotations of successes *)

Section SuccessAnnotations.
Context {CommandContext : Type}.

Lemma In_fold_mergeAnnotations (a : Annotation) (arrays : list (list Annotation)) :
  forall accumulator : list Annotation,
    In a (fold_left mergeAnnotations arrays accumulator)
    <-> In a accumulator \/ exists annotations, In annotations arrays /\ In a annotations.
Proof.
  induction arrays as [|x l IH]; intros accumulator; simpl.
  - split; [now left | intros [H|(y & [] & _)]; exact H].
  - rewrite IH, In_mergeAnnotations. split.
    + intros [[H|H]|(y & Hy & H)]; [now left | right; exists x; auto | right; exists y; auto].
    + intros [H|(y & [<-|Hy] & H)]; [now left; left | now left; right | right; exists y; auto].
Qed.

Lemma NoDup_fold_mergeAnnotations (arrays : list (list Annotation)) :
  forall accumulator : list Annotation,
    NoDup accumulator -> NoDup (fold_left mergeAnnotations arrays accumulator).
Proof.
  induction arrays as [|x l IH]; intros accumulator H; simpl; [exact H|].
  apply IH, NoDup_mergeAnnotations.
Qed.

(** X19.  [mergeSuccessAnnotations] returns every annotation object of
    every given success, each of them once. *)
Theorem mergeSuccessAnnotations_union :
  forall (successes : list (Success CommandContext)),
    NoDup (mergeSuccessAnnotations successes)
    /\ forall a : Annotation,
         In a (mergeSuccessAnnotations successes)
         <-> exists s, In s successes /\ In a (s_annotations s).
Proof.
  intros successes. unfold mergeSuccessAnnotations. split.
  - apply NoDup_fold_mergeAnnotations. constructor.
  - intros a. rewrite In_fold_mergeAnnotations. split.
    + intros [[]|(x & Hx & Ha)]. apply in_map_iff in Hx.
      destruct Hx as (s & <- & Hs). exists s. auto.
    + intros (s & Hs & Ha). right. exists (s_annotations s).
      split; [now apply in_map | exact Ha].
Qed.

End SuccessAnnotations.

(** ** parseWithCompletions *)

Section WithCompletions.

(** C3.  When [parser] returns [successes] and [failure], then
    [parseWithCompletions(makeCompletions, parser)] returns the same
    successes and: for an inner failure, a failure with the same
    annotations and end, the completions of [makeCompletions] alone and
    [pause] false; without an inner failure, no failure when
    [makeCompletions] returns no completions, and otherwise a failure with
    those completions and [pause] false that ends where the furthest
    success ends: at the end of one of the successes, which none of them
    exceeds.  (Without any success that end is [-Infinity].)  The made-up
    failure carries every annotation object of the successes, each
    once. *)
Theorem parseWithCompletions_correct :
  forall (CommandContext : Type)
         (makeCompletions : CommandContext -> option Failure -> Z
                            -> list string)
         (parser : Parser CommandContext) (fuel : nat) (input : string)
         (success : Success CommandContext)
         (successes : list (Success CommandContext))
         (failure : option Failure),
    parser fuel input success = Some (successes, failure) ->
    let completions := makeCompletions (s_context success) failure (s_end success) in
    exists failure',
      parseWithCompletions makeCompletions parser fuel input success
      = Some (successes, failure')
      /\ match failure with
         | Some f =>
             exists f', failure' = Some f'
                        /\ f_annotations f' = f_annotations f
                        /\ f_end f' = f_end f
                        /\ f_completions f' = completions
                        /\ f_pause f' = false
         | None =>
             match completions with
             | [] => failure' = None
             | _ :: _ =>
                 exists f', failure' = Some f'
                            /\ f_completions f' = completions
                            /\ f_pause f' = false
                            /\ match successes with
                               | [] => f_end f' = NegInfinity
                               | _ :: _ =>
                                   exists furthest,
                                     In furthest successes
                                     /\ f_end f' = Int (s_end furthest)
                                     /\ Forall (fun s => s_end s <= s_end furthest)
                                               successes
                               end
                            /\ NoDup (f_annotations f')
                            /\ (forall a,
                                   In a (f_annotations f')
                                   <-> exists s, In s successes
                                                 /\ In a (s_annotations s))
             end
         end.
Proof.
  intros CommandContext makeCompletions parser fuel input success successes failure
         H completions.
  unfold parseWithCompletions. rewrite H. fold completions.
  destruct failure as [f|].
  - eexists. split; [reflexivity|]. eexists. repeat split.
  - destruct completions as [|c cs]; simpl.
    + eexists. split; reflexivity.
    + eexists. split; [reflexivity|]. eexists.
      split; [reflexivity|]. split; [reflexivity|]. split; [reflexivity|].
      simpl. split; [|split].
      * destruct (furthestSuccess_cases successes) as [[-> E]|(m & E & F & X)];
          [exact E|].
        destruct successes as [|s0 l]; [inversion X|].
        apply Exists_exists in X. destruct X as (s & Hs & <-).
        exists s. split; [exact Hs|]. split; [exact E | exact F].
      * apply NoDup_fold_mergeAnnotations. constructor.
      * intros a. unfold mergeSuccessAnnotations.
        rewrite In_fold_mergeAnnotations. split.
        -- intros [[]|(x & Hx & Ha)]. apply in_map_iff in Hx.
           destruct Hx as (s & <- & Hs). exists s. auto.
        -- intros (s & Hs & Ha). right. exists (s_annotations s).
           split; [now apply in_map | exact Ha].
Qed.

(** Three instances.  The failure of "launch" on "lau" offers "nch";
    wrapped, it offers what [makeCompletions] returns.  The success of "a"
    on "a" stays without a failure when no completion is made.  The two
    successes of an optional "a" on "a", which end at 1 and at 0, get a
    failure that ends at 1. *)
Lemma parseWithCompletions_correct_witness :
  (exists failure',
      parseWithCompletions (fun _ _ _ => ["x"%string; "y"%string])
        (parseConstant "launch" None) 0%nat "lau"%string (initial tt)
      = Some ([], failure')
      /\ exists f', failure' = Some f'
                    /\ f_annotations f' = []
                    /\ f_end f' = Int 3
                    /\ f_completions f' = ["x"%string; "y"%string]
                    /\ f_pause f' = false)
  /\ (exists failure',
        parseWithCompletions (fun _ _ _ => [])
          (parseConstant "a" None) 0%nat "a"%string (initial tt)
        = Some ([mkSuccess [] tt 1 (VStr "a")], failure')
        /\ failure' = None)
  /\ (exists failure',
        parseWithCompletions (fun _ _ _ => ["x"%string])
          (parseOptional (parseConstant "a" None) None) 0%nat "a"%string (initial tt)
        = Some ([mkSuccess [] tt 1 (VStr "a"); mkSuccess [] tt 0 (VStr "missing")],
                failure')
        /\ exists f', failure' = Some f'
                      /\ f_completions f' = ["x"%string]
                      /\ f_pause f' = false
                      /\ (exists furthest,
                             In furthest [mkSuccess [] tt 1 (VStr "a");
                                          mkSuccess [] tt 0 (VStr "missing")]
                             /\ f_end f' = Int (s_end furthest)
                             /\ Forall (fun s => s_end s <= s_end furthest)
                                       [mkSuccess [] tt 1 (VStr "a");
                                        mkSuccess [] tt 0 (VStr "missing")])
                      /\ NoDup (f_annotations f')
                      /\ (forall a,
                             In a (f_annotations f')
                             <-> exists s,
                                   In s [mkSuccess [] tt 1 (VStr "a");
                                         mkSuccess [] tt 0 (VStr "missing")]
                                   /\ In a (s_annotations s))).
Proof.
  split; [|split].
  - exact (parseWithCompletions_correct unit (fun _ _ _ => ["x"%string; "y"%string])
             (parseConstant "launch" None) 0%nat "lau"%string (initial tt)
             [] (Some (mkFailure [] ["nch"%string] (Int 3) false)) eq_refl).
  - exact (parseWithCompletions_correct unit (fun _ _ _ => [])
             (parseConstant "a" None) 0%nat "a"%string (initial tt)
             [mkSuccess [] tt 1 (VStr "a")] None eq_refl).
  - exact (parseWithCompletions_correct unit (fun _ _ _ => ["x"%string])
             (parseOptional (parseConstant "a" None) None) 0%nat "a"%string (initial tt)
             [mkSuccess [] tt 1 (VStr "a"); mkSuccess [] tt 0 (VStr "missing")]
             None eq_refl).
Defined.

End WithCompletions.

(** ** Ranges *)






(** ** The unique completion *)

Lemma prefix_substring (n : nat) :
  forall s : string, String.prefix (substring 0 n s) s = true.
Proof.
  induction n as [|k IH]; intros [|c s]; try reflexivity.
  cbn [substring]. apply prefix_cons. split; [reflexivity | apply IH].
Qed.

(** A common prefix of two strings is a prefix of their longest one. *)
Lemma prefix_common (p : string) :
  forall a b : string,
    String.prefix p a = true -> String.prefix p b = true ->
    String.prefix p (substring 0 (commonPrefixLength a b) a) = true.
Proof.
  induction p as [|x p IH]; intros a b Ha Hb; [apply prefix_nil|].
  destruct a as [|y a]; [discriminate Ha|].
  destruct b as [|z b]; [discriminate Hb|].
  apply prefix_cons in Ha, Hb. destruct Ha as [-> Ha], Hb as [-> Hb].
  cbn [commonPrefixLength]. rewrite Ascii.eqb_refl. cbn [substring].
  apply prefix_cons. split; [reflexivity | now apply IH].
Qed.

Lemma uniqueLoop_step (first s : string) (rest : list string) :
  uniqueLoop first (s :: rest)
  = if (commonPrefixLength first s =? 0)%nat then EmptyString
    else uniqueLoop (substring 0 (commonPrefixLength first s) first) rest.
Proof.
  cbn [uniqueLoop]. rewrite stringMatchForward_common.
  rewrite slice2_substring by apply commonPrefixLength_le_l.
  destruct (commonPrefixLength first s); reflexivity.
Qed.

Lemma uniqueLoop_common (sorted : list string) :
  forall first : string,
    String.prefix (uniqueLoop first sorted) first = true
    /\ Forall (fun c => String.prefix (uniqueLoop first sorted) c = true) sorted.
Proof.
  induction sorted as [|s rest IH]; intros first.
  - split; [apply prefix_refl | constructor].
  - rewrite uniqueLoop_step.
    destruct (commonPrefixLength first s =? 0)%nat.
    + split; [apply prefix_nil|]. apply Forall_forall. intros; apply prefix_nil.
    + destruct (IH (substring 0 (commonPrefixLength first s) first)) as [P F].
      split; [|constructor].
      * eapply prefix_trans; [exact P | apply prefix_substring].
      * eapply prefix_trans; [exact P|].
        rewrite commonPrefixLength_common. apply prefix_substring.
      * exact F.
Qed.

Lemma uniqueLoop_longest (sorted : list string) :
  forall first p : string,
    String.prefix p first = true ->
    Forall (fun c => String.prefix p c = true) sorted ->
    String.prefix p (uniqueLoop first sorted) = true.
Proof.
  induction sorted as [|s rest IH]; intros first p Hf F; [exact Hf|].
  rewrite uniqueLoop_step. inversion F as [|? ? Hs F']; subst.
  pose proof (prefix_common p first s Hf Hs) as C.
  destruct (commonPrefixLength first s =? 0)%nat eqn:E.
  - apply Nat.eqb_eq in E. rewrite E in C.
    now destruct first.
  - now apply IH.
Qed.

(** X21.  [uniqueCompletion] of a failure not marked for pause is the
    longest common prefix of its completions: it is a prefix of each of
    them, and every string that is a prefix of each of them is a prefix
    of it.  For a failure marked for pause, or without completions, it is
    the empty string. *)
Theorem uniqueCompletion_longest_common_prefix :
  forall failure : Failure,
    Forall (fun c => String.prefix (uniqueCompletion failure) c = true)
           (f_completions failure)
    /\ (forall p : string,
          f_pause failure = false ->
          f_completions failure <> [] ->
          Forall (fun c => String.prefix p c = true) (f_completions failure) ->
          String.prefix p (uniqueCompletion failure) = true)
    /\ (f_pause failure = true \/ f_completions failure = [] ->
        uniqueCompletion failure = EmptyString).
Proof.
  intros [annotations completions e pause]. unfold uniqueCompletion. simpl.
  assert (Hin : forall c, In c (sort completions) <-> In c completions).
  { intros c. split; apply Permutation_in;
      [apply sort_perm | apply Permutation_sym, sort_perm]. }
  split; [|split].
  - destruct pause; [apply Forall_forall; intros; apply prefix_nil|].
    destruct completions as [|c l]; [constructor|].
    cbn [List.length Nat.eqb].
    destruct (uniqueLoop_common (sort (c :: l)) (nth 0 (sort (c :: l)) EmptyString))
      as [_ F].
    rewrite Forall_forall in *. intros x Hx. apply F, Hin, Hx.
  - intros p -> Hne F.
    destruct completions as [|c l]; [congruence|].
    cbn [List.length Nat.eqb].
    assert (F' : Forall (fun c => String.prefix p c = true) (sort (c :: l))).
    { rewrite Forall_forall in *. intros x Hx. apply F, Hin, Hx. }
    apply uniqueLoop_longest; [|exact F'].
    destruct (sort (c :: l)) as [|y ys] eqn:E.
    + pose proof (Hin c) as [_ H]. destruct (H (or_introl eq_refl)).
    + simpl. now inversion F'.
  - intros [->| ->]; [reflexivity|]. now destruct pause.
Qed.

(** ** Separators and numbers *)

Section ValueParsers.
Context {CommandContext : Type}.

Lemma separator_result (separator : string) (witness : Value)
  (regexp : string -> option MatchResult)
  (fuel : nat) (input : string) (success : Success CommandContext) :
  let parser :=
    parseWithCompletions (separatorCompletions separator)
                         (parseRestrictedRegexp (fun _ => witness) regexp) in
  match regexp (slice input (s_end success)) with
  | Some result =>
      if index result =? 0
      then parser fuel input success
           = Some ([new_Success (s_annotations success) (s_context success)
                                (s_end success + strlen (matched result)) witness],
                   None)
      else parser fuel input success
           = Some ([], Some (mkFailure [] [separator] (Int (s_end success)) false))
  | None =>
      parser fuel input success
      = Some ([], Some (mkFailure [] [separator] (Int (s_end success)) false))
  end.
Proof.
  unfold parseWithCompletions, parseRestrictedRegexp, separatorCompletions.
  destruct (regexp (slice input (s_end success))) as [result|].
  - destruct (index result =? 0); simpl; [reflexivity|].
    now rewrite Z.eqb_refl.
  - simpl. now rewrite Z.eqb_refl.
Qed.

(** X22.  Whatever the regular expressions match, [parseWhitespace] and
    [parseComma] return either one success and no failure, when there is a
    match where the parse starts, or no success and a failure at the start
    that is not marked for pause and offers the separator itself, a space
    or a comma, as its only completion. *)
Theorem parseWhitespace_parseComma_result :
  forall (regexp : string -> option MatchResult)
         (fuel : nat) (input : string) (success : Success CommandContext),
    let start := s_end success in
    let matches :=
      match regexp (slice input start) with
      | Some result => if index result =? 0 then Some (matched result) else None
      | None => None
      end in
    parseWhitespace regexp fuel input success
    = match matches with
      | Some text =>
          Some ([new_Success (s_annotations success) (s_context success)
                             (start + strlen text) (VStr "whitespace")],
                None)
      | None => Some ([], Some (mkFailure [] [" "%string] (Int start) false))
      end
    /\ parseComma regexp fuel input success
       = match matches with
         | Some text =>
             Some ([new_Success (s_annotations success) (s_context success)
                                (start + strlen text) (VStr "comma")],
                   None)
         | None => Some ([], Some (mkFailure [] [","%string] (Int start) false))
         end.
Proof.
  intros regexp fuel input success start matches. subst start matches.
  unfold parseWhitespace, parseComma.
  pose proof (separator_result " " (VStr "whitespace") regexp fuel input success) as W.
  pose proof (separator_result "," (VStr "comma") regexp fuel input success) as C.
  cbv zeta in W, C.
  destruct (regexp (slice input (s_end success))) as [result|]; [|now split].
  destruct (index result =? 0); now split.
Qed.

(** X23.  Whatever the regular expression matches,
    [parseNonNegativeInteger] always returns a failure, also beside a
    success: the failure is not marked for pause, offers the ten digits
    as completions and ends where the number read ends, or at the start
    when no number was read.  So a number can always be continued. *)
Theorem parseNonNegativeInteger_offers_digits :
  forall (digits : string -> option MatchResult) (parseInt : string -> Value)
         (fuel : nat) (input : string) (success : Success CommandContext),
  exists successes failure,
    parseNonNegativeInteger digits parseInt fuel input success
    = Some (successes, Some failure)
    /\ f_completions failure = DIGIT_LIST
    /\ f_pause failure = false
    /\ ((successes = [] /\ f_end failure = Int (s_end success))
        \/ exists text,
             successes = [new_Success (s_annotations success) (s_context success)
                                      (s_end success + strlen text) (parseInt text)]
             /\ f_end failure = Int (s_end success + strlen text)).
Proof.
  intros digits parseInt fuel input success.
  unfold parseNonNegativeInteger, parseWithCompletions, parseRestrictedRegexp.
  destruct (digits (slice input (s_end success))) as [result|].
  - destruct (index result =? 0).
    + do 2 eexists. split; [reflexivity|]. simpl.
      split; [reflexivity|]. split; [reflexivity|].
      right. exists (matched result). split; reflexivity.
    + do 2 eexists. split; [reflexivity|]. simpl. auto.
  - do 2 eexists. split; [reflexivity|]. simpl. auto.
Qed.

End ValueParsers.

(** ** Sequences with whitespace *)

Section WhitespaceSequences.
Context {CommandContext : Type}.

(** Of pairs laid out in a row, the positions of one parity hold the
    second components. *)
Lemma filterIndexed_seconds {A B : Type} (f g : A -> B) (r : nat) (l : list A) :
  forall i : nat,
    (i mod 2 =? r)%nat = false ->
    (S i mod 2 =? r)%nat = true ->
    filterIndexed (fun (_ : B) i => (i mod 2 =? r)%nat)
                  (flat_map (fun q => [f q; g q]) l) i
    = map g l.
Proof.
  induction l as [|q l IH]; intros i H0 H1; [reflexivity|].
  cbn [flat_map app filterIndexed map].
  rewrite H0, H1. f_equal. apply IH; now rewrite !parity_step.
Qed.

Lemma last_pairs {A : Type} (l : list (A * A)) :
  forall d : A,
    List.last (flat_map (fun q => [fst q; snd q]) l) d = List.last (map snd l) d.
Proof.
  induction l as [|q l IH]; intros d; [reflexivity|].
  cbn [flat_map app map]. rewrite !last_cons. apply IH.
Qed.

(** A path through the parsers with [separator] in front of each is a
    row of pairs. *)
Lemma threaded_prefixed (separator : Parser CommandContext)
  (fuel : nat) (input : string) (parsers : list (Parser CommandContext)) :
  forall (last : Success CommandContext) (seen : list Value)
         (path : list (Success CommandContext)),
    threaded (flat_map (fun p => [separator; p]) parsers) fuel input last seen path
    <-> exists pairs,
          path = flat_map (fun q => [fst q; snd q]) pairs
          /\ separatorThreaded separator parsers fuel input last seen pairs.
Proof.
  induction parsers as [|p l IH]; intros last seen path.
  - simpl. split.
    + intros T. destruct path; [|destruct T]. now exists [].
    + intros ([|q pairs] & -> & T); [exact I | destruct T].
  - cbn [flat_map app]. split.
    + intros T. destruct path as [|w [|s path]];
        [destruct T | destruct T as [_ []] |].
      destruct T as [Hw [Hs T]]. apply IH in T.
      destruct T as (pairs & -> & T).
      exists ((w, s) :: pairs). split; [reflexivity|].
      cbn [separatorThreaded]. auto.
    + intros ([|[w s] pairs] & -> & T); [destruct T|].
      destruct T as [Hw [Hs T]].
      cbn [flat_map app fst snd threaded]. split; [exact Hw|]. split; [exact Hs|].
      apply IH. now exists pairs.
Qed.

(** X24.  The successes of [whitespacePrefixed(parsers)] are exactly
    these: for every way of taking, for each parser in turn, a success of
    [parseWhitespace] and then a success of the parser, each started where
    the one before it ended, the success with the annotations, context and
    end of the last one and, as witness, the array of the witnesses of
    the successes of [parsers], in order: the whitespace witnesses are left
    out.  [whitespaceSeparated(parsers)] is the same without the whitespace
    in front of the first parser, and returns one empty success for no
    parsers. *)
Theorem whitespace_sequences_witnesses :
  forall (whitespace : string -> option MatchResult)
         (parsers : list (Parser CommandContext))
         (fuel : nat) (input : string) (success : Success CommandContext),
    match whitespacePrefixed whitespace parsers fuel input success with
    | Some (successes, _) =>
        forall x,
          In x successes
          <-> exists path,
                separatorThreaded (parseWhitespace whitespace) parsers
                                  fuel input success [] path
                /\ x = new_Success
                         (s_annotations (List.last (map snd path) success))
                         (s_context (List.last (map snd path) success))
                         (s_end (List.last (map snd path) success))
                         (VArr (map (fun q => s_witness (snd q)) path))
    | None => True
    end
    /\ match whitespaceSeparated whitespace parsers fuel input success, parsers with
       | Some (successes, _), [] =>
           successes = [new_Success (s_annotations success) (s_context success)
                                    (s_end success) (VArr [])]
       | Some (successes, _), first :: others =>
           forall x,
             In x successes
             <-> exists s1 path,
                   (exists successes1 failure1,
                       first fuel input
                             (new_Success (s_annotations success) (s_context success)
                                          (s_end success) (VArr []))
                       = Some (successes1, failure1)
                       /\ In s1 successes1)
                   /\ separatorThreaded (parseWhitespace whitespace) others
                                        fuel input s1 [s_witness s1] path
                   /\ x = new_Success
                            (s_annotations (List.last (map snd path) s1))
                            (s_context (List.last (map snd path) s1))
                            (s_end (List.last (map snd path) s1))
                            (VArr (s_witness s1
                                   :: map (fun q => s_witness (snd q)) path))
       | None, _ => True
       end.
Proof.
  intros whitespace parsers fuel input success. split.
  - unfold whitespacePrefixed. rewrite prefixElements_flat_map.
    destruct (parseSequence _ _ fuel input success) as [[successes failure]|] eqn:E;
      [|exact I].
    intros x. rewrite (parseSequence_paths _ _ _ _ _ _ _ E x). split.
    + intros (path & T & ->). apply threaded_prefixed in T.
      destruct T as (pairs & -> & T). exists pairs. split; [exact T|].
      rewrite last_pairs. f_equal. f_equal.
      unfold removePrefixes. rewrite flat_map_concat_map, concat_map, map_map.
      rewrite <- flat_map_concat_map.
      exact (filterIndexed_seconds (fun q => s_witness (fst q))
               (fun q => s_witness (snd q)) 1 pairs 0 eq_refl eq_refl).
    + intros (pairs & T & ->).
      exists (flat_map (fun q => [fst q; snd q]) pairs). split.
      * apply threaded_prefixed. now exists pairs.
      * rewrite last_pairs. f_equal. f_equal.
        unfold removePrefixes. rewrite flat_map_concat_map, concat_map, map_map.
        rewrite <- flat_map_concat_map.
        symmetry.
        exact (filterIndexed_seconds (fun q => s_witness (fst q))
                 (fun q => s_witness (snd q)) 1 pairs 0 eq_refl eq_refl).
  - unfold whitespaceSeparated, separate. rewrite prefixElements_flat_map.
    destruct parsers as [|first others].
    + simpl. reflexivity.
    + cbn [flat_map app skipn].
      destruct (parseSequence _ _ fuel input success) as [[successes failure]|] eqn:E;
        [|exact I].
      intros x. rewrite (parseSequence_paths _ _ _ _ _ _ _ E x). split.
      * intros (path & T & ->).
        destruct path as [|s1 path]; [destruct T|].
        destruct T as [H1 T]. apply threaded_prefixed in T.
        destruct T as (pairs & -> & T). exists s1, pairs.
        split; [exact H1|]. split; [exact T|].
        rewrite last_cons, last_pairs. f_equal. f_equal.
        unfold removeSeparators. cbn [map filterIndexed]. simpl Nat.eqb. cbv iota.
        f_equal.
        rewrite flat_map_concat_map, concat_map, map_map.
        rewrite <- flat_map_concat_map.
        exact (filterIndexed_seconds (fun q => s_witness (fst q))
                 (fun q => s_witness (snd q)) 0 pairs 1 eq_refl eq_refl).
      * intros (s1 & pairs & H1 & T & ->).
        exists (s1 :: flat_map (fun q => [fst q; snd q]) pairs). split.
        -- cbn [threaded]. split; [exact H1|].
           apply threaded_prefixed. now exists pairs.
        -- rewrite last_cons, last_pairs. f_equal. f_equal.
           unfold removeSeparators. cbn [map filterIndexed]. simpl Nat.eqb. cbv iota.
           f_equal.
           rewrite flat_map_concat_map, concat_map, map_map.
           rewrite <- flat_map_concat_map.
           symmetry.
           exact (filterIndexed_seconds (fun q => s_witness (fst q))
                    (fun q => s_witness (snd q)) 0 pairs 1 eq_refl eq_refl).
Qed.

End WhitespaceSequences.

(** ** Transforming witnesses *)

Section Transform.
Context {CommandContext : Type}.

(** X25.  [parseTransform] composes: transforming by [f] and then by [g]
    is transforming by their composition, on every input; and
    transforming by the identity changes no field of any result.
    Only witnesses change: the failure, and the annotations, contexts and
    ends of the successes, are those of the parser. *)
Theorem parseTransform_composes :
  forall (parser : Parser CommandContext) (f g : Value -> Value)
         (fuel : nat) (input : string) (success : Success CommandContext),
    parseTransform (parseTransform parser f) g fuel input success
    = parseTransform parser (fun w => g (f w)) fuel input success
    /\ parseTransform parser (fun w => w) fuel input success
       = parser fuel input success
    /\ match parser fuel input success, parseTransform parser f fuel input success with
       | Some (successes, failure), Some (successes', failure') =>
           failure' = failure
           /\ map s_annotations successes' = map s_annotations successes
           /\ map s_context successes' = map s_context successes
           /\ map s_end successes' = map s_end successes
           /\ map s_witness successes' = map f (map s_witness successes)
       | None, None => True
       | _, _ => False
       end.
Proof.
  intros parser f g fuel input success. unfold parseTransform.
  destruct (parser fuel input success) as [[successes failure]|]; [|now repeat split].
  split; [|split].
  - now rewrite map_map.
  - do 2 f_equal. rewrite <- (map_id successes) at 2.
    apply map_ext. now intros [].
  - rewrite !map_map. now repeat split.
Qed.

End Transform.

(** ** The properties above at concrete inputs *)

Lemma parseChain_successes_witness :
  parseChain (fun a b => VArr [a; b]) (parseConstant "a" None)
             (fun _ => parseConstant "b" None) 0%nat "ab"%string (initial tt)
  = Some ([mkSuccess [] tt 2 (VArr [VStr "a"; VStr "b"])], None)
  /\ exists successes1 failure1,
       parseConstant "a" None 0%nat "ab"%string (initial tt) = Some (successes1, failure1)
       /\ [mkSuccess [] tt 2 (VArr [VStr "a"; VStr "b"])]
          = flat_map (continuations (fun a b => VArr [a; b])
                                    (fun _ => parseConstant "b" None) 0%nat "ab"%string)
                     successes1
       /\ Forall (fun s1 => parseConstant "b" None 0%nat "ab"%string s1 <> None) successes1.
Proof.
  split; [reflexivity|].
  exact (parseChain_successes
           (fun a b => VArr [a; b]) (parseConstant "a" None)
           (fun _ => parseConstant "b" None) 0%nat "ab"%string (initial tt)
           [mkSuccess [] tt 2 (VArr [VStr "a"; VStr "b"])] None eq_refl).
Defined.

Lemma parseChoice_successes_witness :
  Forall2 (fun p r => p 0%nat "cat"%string (initial tt) = Some r)
          [parseConstant "cat" None; parseConstant "ca" None]
          [([mkSuccess [] tt 3 (VStr "cat")], None); ([mkSuccess [] tt 2 (VStr "ca")], None)]
  /\ exists failure,
       parseChoice [parseConstant "cat" None; parseConstant "ca" None]
                   0%nat "cat"%string (initial tt)
       = Some ([mkSuccess [] tt 3 (VStr "cat"); mkSuccess [] tt 2 (VStr "ca")], failure).
Proof.
  assert (H : Forall2 (fun p r => p 0%nat "cat"%string (initial tt) = Some r)
                [parseConstant "cat" None; parseConstant "ca" None]
                [([mkSuccess [] tt 3 (VStr "cat")], None);
                 ([mkSuccess [] tt 2 (VStr "ca")], None)]).
  { repeat constructor. }
  split; [exact H|].
  exact (parseChoice_successes _ _ _ _ _ H).
Defined.

Lemma parseChoice_of_constants_witness :
  0 <= s_end (initial tt)
  /\ parseYesNo 0%nat "y"%string (initial tt)
     = Some ([], Some (mkFailure [] ["es"%string] (Int 1) false))
  /\ parseChoice [parseConstant "a" (Some VUndefined); parseConstant "ab" (Some (VNum 1))]
                 0%nat "ab"%string (initial tt)
     = Some ([mkSuccess [] tt 1 (VStr "a"); mkSuccess [] tt 2 (VNum 1)], None).
Proof.
  split; [simpl; lia|]. split.
  - exact (parseChoice_of_constants
             [("yes"%string, None); ("no"%string, None)] 0%nat "y"%string (initial tt)
             ltac:(simpl; lia)).
  - exact (parseChoice_of_constants
             [("a"%string, Some VUndefined); ("ab"%string, Some (VNum 1))]
             0%nat "ab"%string (initial tt) ltac:(simpl; lia)).
Defined.

Lemma parseSequence_successes_witness :
  parseSequence (fun ws => VArr ws) [parseConstant "a" None; parseConstant "b" None]
                0%nat "ab"%string (initial tt)
  = Some ([mkSuccess [] tt 2 (VArr [VStr "a"; VStr "b"])], None)
  /\ (In (mkSuccess [] tt 2 (VArr [VStr "a"; VStr "b"]))
         [mkSuccess [] tt 2 (VArr [VStr "a"; VStr "b"])]
      <-> exists path,
            threaded [parseConstant "a" None; parseConstant "b" None]
                     0%nat "ab"%string (initial tt) [] path
            /\ mkSuccess [] tt 2 (VArr [VStr "a"; VStr "b"])
               = new_Success (s_annotations (List.last path (initial tt)))
                             (s_context (List.last path (initial tt)))
                             (s_end (List.last path (initial tt)))
                             (VArr (map s_witness path))).
Proof.
  split; [reflexivity|].
  exact (parseSequence_successes
           (fun ws => VArr ws) [parseConstant "a" None; parseConstant "b" None]
           0%nat "ab"%string (initial tt)
           [mkSuccess [] tt 2 (VArr [VStr "a"; VStr "b"])] None eq_refl
           (mkSuccess [] tt 2 (VArr [VStr "a"; VStr "b"]))).
Defined.

Lemma parsePlus_progress_witness :
  keepsInvariant (@parseConstant unit "a" None)
  /\ 0 <= s_end (initial tt)
  /\ parsePlus (fun ws => ws) (parseConstant "a" None) 3%nat "aa"%string (initial tt)
     = Some ([mkSuccess [] tt 1 (VArr [VStr "a"]);
              mkSuccess [] tt 2 (VArr [VStr "a"; VStr "a"])],
             Some (mkFailure [] ["a"%string] (Int 2) false))
  /\ Forall (fun s => s_end (initial tt) < s_end s)
            [mkSuccess [] tt 1 (VArr [VStr "a"]);
             mkSuccess [] tt 2 (VArr [VStr "a"; VStr "a"])]
  /\ exists f e, Some (mkFailure [] ["a"%string] (Int 2) false) = Some f
                 /\ f_end f = Int e
                 /\ Forall (fun s => s_end s <= e)
                           [mkSuccess [] tt 1 (VArr [VStr "a"]);
                            mkSuccess [] tt 2 (VArr [VStr "a"; VStr "a"])].
Proof.
  split; [apply parseConstant_keeps|].
  split; [simpl; lia|].
  split; [reflexivity|].
  exact (parsePlus_progress
           (fun ws => ws) (parseConstant "a" None) 3%nat "aa"%string (initial tt)
           _ _ (parseConstant_keeps "a" None) ltac:(simpl; lia) eq_refl).
Defined.

Lemma parseStar_never_returns_witness :
  parseStar (fun ws => ws) (parseEmpty None) 3%nat "aa"%string (initial tt) = None.
Proof.
  apply (parseStar_never_returns (fun ws => ws) (parseEmpty None)).
  intros fuel input success r H. unfold parseEmpty in H.
  injection H as <-. discriminate.
Defined.

Lemma parseStar_shape_witness :
  parseStar (fun ws => ws) (parseConstant "a" None) 3%nat "aa"%string (initial tt)
  = Some ([mkSuccess [] tt 0 (VArr []);
           mkSuccess [] tt 1 (VArr [VStr "a"]);
           mkSuccess [] tt 2 (VArr [VStr "a"; VStr "a"])],
          Some (mkFailure [] ["a"%string] (Int 2) false))
  /\ exists rest,
       [mkSuccess [] tt 0 (VArr []);
        mkSuccess [] tt 1 (VArr [VStr "a"]);
        mkSuccess [] tt 2 (VArr [VStr "a"; VStr "a"])]
       = new_Success [] tt 0 (VArr []) :: rest.
Proof.
  split; [reflexivity|].
  exact (proj1 (parseStar_shape
                  (fun ws => ws) (parseConstant "a" None) 3%nat "aa"%string (initial tt)
                  _ _ eq_refl)).
Defined.

Lemma combinators_keep_invariant_witness :
  Combinator (parseCommaSeparated
                (fun s => if String.prefix "," s
                          then Some (mkMatchResult 0 "," []) else None)
                (@parseConstant unit "a" None))
  /\ 0 <= s_end (initial tt)
  /\ parseCommaSeparated
       (fun s => if String.prefix "," s then Some (mkMatchResult 0 "," []) else None)
       (parseConstant "a" None) 3%nat "a,a"%string (initial tt)
     = Some ([mkSuccess [] tt 0 (VArr []);
              mkSuccess [] tt 1 (VArr [VStr "a"]);
              mkSuccess [] tt 3 (VArr [VStr "a"; VStr "a"])],
             Some (mkFailure [] [","%string] (Int 3) false))
  /\ invariantsHold
       ([mkSuccess [] tt 0 (VArr []);
         mkSuccess [] tt 1 (VArr [VStr "a"]);
         mkSuccess [] tt 3 (VArr [VStr "a"; VStr "a"])],
        Some (mkFailure [] [","%string] (Int 3) false)) = true.
Proof.
  assert (C : Combinator (parseCommaSeparated
                (fun s => if String.prefix "," s
                          then Some (mkMatchResult 0 "," []) else None)
                (@parseConstant unit "a" None))).
  { apply Combinator_separated; [apply Combinator_constant|].
    apply Combinator_withCompletions, Combinator_regexp. }
  split; [exact C|].
  split; [simpl; lia|].
  split; [reflexivity|].
  exact (proj1 (combinators_keep_invariant _ 3%nat "a,a"%string (initial tt)
                  _ _ C ltac:(simpl; lia) eq_refl)).
Defined.

Lemma whitespace_sequences_witnesses_witness :
  whitespacePrefixed
    (fun s => if String.prefix " " s then Some (mkMatchResult 0 " " []) else None)
    [parseConstant "a" None; parseConstant "b" None] 0%nat " a b"%string (initial tt)
  = Some ([mkSuccess [] tt 4 (VArr [VStr "a"; VStr "b"])], None)
  /\ (exists path,
         separatorThreaded
           (parseWhitespace
              (fun s => if String.prefix " " s
                        then Some (mkMatchResult 0 " " []) else None))
           [parseConstant "a" None; parseConstant "b" None]
           0%nat " a b"%string (initial tt) [] path
         /\ mkSuccess [] tt 4 (VArr [VStr "a"; VStr "b"])
            = new_Success
                (s_annotations (List.last (map snd path) (initial tt)))
                (s_context (List.last (map snd path) (initial tt)))
                (s_end (List.last (map snd path) (initial tt)))
                (VArr (map (fun q => s_witness (snd q)) path)))
  /\ whitespaceSeparated
       (fun s => if String.prefix " " s then Some (mkMatchResult 0 " " []) else None)
       [parseConstant "a" None; parseConstant "b" None] 0%nat "a b"%string (initial tt)
     = Some ([mkSuccess [] tt 3 (VArr [VStr "a"; VStr "b"])], None)
  /\ (exists s1 path,
         (exists successes1 failure1,
             parseConstant "a" None 0%nat "a b"%string
                           (new_Success [] tt 0 (VArr []))
             = Some (successes1, failure1)
             /\ In s1 successes1)
         /\ separatorThreaded
              (parseWhitespace
                 (fun s => if String.prefix " " s
                           then Some (mkMatchResult 0 " " []) else None))
              [parseConstant "b" None] 0%nat "a b"%string s1 [s_witness s1] path
         /\ mkSuccess [] tt 3 (VArr [VStr "a"; VStr "b"])
            = new_Success
                (s_annotations (List.last (map snd path) s1))
                (s_context (List.last (map snd path) s1))
                (s_end (List.last (map snd path) s1))
                (VArr (s_witness s1 :: map (fun q => s_witness (snd q)) path))).
Proof.
  split; [reflexivity|]. split; [|split; [reflexivity|]].
  - exact (proj1 (proj1 (whitespace_sequences_witnesses
                           (fun s => if String.prefix " " s
                                     then Some (mkMatchResult 0 " " []) else None)
                           [parseConstant "a" None; parseConstant "b" None]
                           0%nat " a b"%string (initial tt))
                        (mkSuccess [] tt 4 (VArr [VStr "a"; VStr "b"])))
                 (or_introl eq_refl)).
  - exact (proj1 (proj2 (whitespace_sequences_witnesses
                           (fun s => if String.prefix " " s
                                     then Some (mkMatchResult 0 " " []) else None)
                           [parseConstant "a" None; parseConstant "b" None]
                           0%nat "a b"%string (initial tt))
                        (mkSuccess [] tt 3 (VArr [VStr "a"; VStr "b"])))
                 (or_introl eq_refl)).
Defined.
